(** * MWEB light-client verification core (mweb.go)

    A shallow embedding of the MMR primitives, the header verifier, the
    UTXO proof verifier, the leafset differ and the response handling of
    [mweb.go], together with the properties of its specification. *)

From Stdlib Require Import ZArith Lia Bool.
From Stdlib Require String.
From stdpp Require Import base option list gmap.

Local Open Scope Z_scope.

(** ** Machine integers and the [math/bits] helpers *)

(** Go's [uint64] arithmetic wraps modulo 2^64. *)
Definition u64 (z : Z) : Z := z mod 2 ^ 64.

(** Go's [uint16] conversion. *)
Definition u16 (z : Z) : Z := z mod 2 ^ 16.

(** [bits.Len64]: the number of bits needed to represent [x]. *)
Definition Len64 (x : Z) : Z := if x =? 0 then 0 else Z.log2 x + 1.

(** [bits.LeadingZeros64]. *)
Definition LeadingZeros64 (x : Z) : Z := 64 - Len64 x.

Fixpoint popcount (p : positive) : Z :=
  match p with
  | xH => 1
  | xO q => popcount q
  | xI q => popcount q + 1
  end.

(** [bits.OnesCount64]: the number of one bits of [x]. *)
Definition OnesCount64 (x : Z) : Z :=
  match x with
  | Zpos p => popcount p
  | _ => 0
  end.

(** ** Leafset bitmap *)

(** [type leafset []byte]; a byte is a number below 256. *)
Definition leafset := list Z.

Module Leafset.

(** [func (l leafset) contains(i leafIdx) bool] *)
Definition contains (l : leafset) (i : Z) : bool :=
  if Z.of_nat (length l) <=? i / 8 then false
  else 0 <? Z.land (nth (Z.to_nat (i / 8)) l 0) (Z.shiftr 128 (i mod 8)).

(** The body of the [for] loop of [nextUnspent]; [None] when the fuel
    runs out before the loop returns. *)
Fixpoint nextUnspent_loop (fuel : nat) (l : leafset) (i : Z) : option Z :=
  match fuel with
  | O => None
  | S fuel' =>
      let i' := u64 (i + 1) in
      if contains l i' || (Z.of_nat (length l) <=? i' / 8) then Some i'
      else nextUnspent_loop fuel' l i'
  end.

(** [func (l leafset) nextUnspent(i leafIdx) leafIdx]. The loop leaves
    at the latest when the index runs off the bitmap, so [8 * len + 2]
    iterations are always enough (see [nextUnspent_loop_total]). *)
Definition nextUnspent (l : leafset) (i : Z) : option Z :=
  nextUnspent_loop (8 * length l + 2) l i.

End Leafset.

(** ** Leaf and node indices *)

(** The loop shared by [height], [leafIdx] and [calcPeaks]:
    [for peakSize := ...; peakSize > 0; peakSize >>= 1 { body }]. *)
Fixpoint peakLoop {A : Type} (body : Z -> A -> A) (fuel : nat)
    (peakSize : Z) (st : A) : A :=
  match fuel with
  | O => st
  | S fuel' =>
      if 0 <? peakSize
      then peakLoop body fuel' (Z.shiftr peakSize 1) (body peakSize st)
      else st
  end.

(** [uint64(1<<h - 1)] with [h := 64 - bits.LeadingZeros64(x)]. *)
Definition firstPeakSize (x : Z) : Z :=
  u64 (u64 (Z.shiftl 1 (64 - LeadingZeros64 x)) - 1).

Module LeafIdx.

(** [func (i leafIdx) nodeIdx() nodeIdx] *)
Definition nodeIdx (i : Z) : Z := u64 (u64 (2 * i) - OnesCount64 i).

End LeafIdx.

Module NodeIdx.

Definition height_body (peakSize height : Z) : Z :=
  if peakSize <=? height then u64 (height - peakSize) else height.

(** [func (i nodeIdx) height() uint64] *)
Definition height (i : Z) : Z :=
  peakLoop height_body 64 (firstPeakSize i) i.

Definition leafIdx_body (peakSize : Z) (st : Z * Z) : Z * Z :=
  let '(leafIndex, numLeft) := st in
  if peakSize <=? numLeft
  then (u64 (leafIndex + u64 (peakSize + 1) / 2), u64 (numLeft - peakSize))
  else st.

(** [func (i nodeIdx) leafIdx() leafIdx] *)
Definition leafIdx (i : Z) : Z :=
  fst (peakLoop leafIdx_body 64 (firstPeakSize i) (0, i)).

(** [func (i nodeIdx) left(height uint64) nodeIdx] *)
Definition left (i height : Z) : Z := u64 (i - u64 (Z.shiftl 1 height)).

(** [func (i nodeIdx) right() nodeIdx] *)
Definition right (i : Z) : Z := u64 (i - 1).

End NodeIdx.

Definition calcPeaks_body (peakSize : Z) (st : list Z * Z * Z) : list Z * Z * Z :=
  let '(peaks, sumPrevPeaks, nodes) := st in
  if peakSize <=? nodes
  then (peaks ++ [u64 (sumPrevPeaks + peakSize - 1)],
        u64 (sumPrevPeaks + peakSize), u64 (nodes - peakSize))
  else st.

(** [func calcPeaks(nodes uint64) (peaks []nodeIdx)] *)
Definition calcPeaks (nodes : Z) : list Z :=
  fst (fst (peakLoop calcPeaks_body 64 (firstPeakSize nodes) ([], 0, nodes))).


(** [s[i]] on a Go slice with an [int] index: [None] is the
    index-out-of-range panic. *)
Definition index {A : Type} (s : list A) (i : Z) : option A :=
  if i <? 0 then None else s !! Z.to_nat i.

(** ** Hashes and wire messages *)

(** [chainhash.Hash]: a digest, as its list of bytes. *)
Definition Hash := list Z.

(** [chainhash.Hash{}], the all-zero digest. *)
Definition zeroHash : Hash := repeat 0 32.

(** [binary.Write(h, binary.LittleEndian, uint64(i))]: [n] bytes of [x],
    least significant first. *)
Fixpoint leBytes (n : nat) (x : Z) : list Z :=
  match n with
  | O => []
  | S n' => x mod 256 :: leBytes n' (x / 256)
  end.

(** [wire.WriteVarInt]: the CompactSize encoding of a length. *)
Definition varInt (n : Z) : list Z :=
  if n <? 253 then [n]
  else if n <=? 65535 then 253 :: leBytes 2 n
  else if n <=? 4294967295 then 254 :: leBytes 4 n
  else 255 :: leBytes 8 n.

(** [wire.WriteVarBytes]: the length, then the bytes. *)
Definition varBytes (data : list Z) : list Z :=
  varInt (Z.of_nat (length data)) ++ data.

(** Modelled from the spec: [wire.MwebNetUtxo] is declared outside this
    file; only [LeafIndex] and the 32-byte [OutputId] take part in the
    verification. *)
Record MwebNetUtxo := {
  LeafIndex : Z;
  OutputId : Hash
}.

(** Modelled from the spec: [wire.MsgMwebUtxos]. *)
Record MsgMwebUtxos := {
  BlockHash : Hash;
  StartIndex : Z;
  OutputFormat : Z;
  Utxos : list MwebNetUtxo;
  ProofHashes : list Hash
}.

(** Modelled from the spec: the fields of [wire.MwebHeader] that the
    verifiers read. *)
Record MwebHeader := {
  OutputRoot : Hash;
  OutputMMRSize : Z;
  LeafsetRoot : Hash
}.

(** ** The UTXO proof verifier *)

(** The condition of the empty-MMR short circuit that opens
    [verifyMwebUtxos]. *)
Definition emptyMMR (mwebHeader : MwebHeader) (m : MsgMwebUtxos) : bool :=
  (StartIndex m =? 0) &&
  bool_decide (length (Utxos m) = 0%nat) &&
  bool_decide (length (ProofHashes m) = 0%nat) &&
  bool_decide (OutputRoot mwebHeader = zeroHash) &&
  (OutputMMRSize mwebHeader =? 0).

(** [type verifyMwebUtxosVars struct]. *)
Record verifyMwebUtxosVars := {
  mwebUtxos : MsgMwebUtxos;
  vleafset : leafset;
  firstLeafIdx : Z;
  lastLeafIdx : Z;
  leavesUsed : nat;
  hashesUsed : nat;
  isProofHash : gmap Z bool
}.

Definition set_cursors (lu hu : nat) (v : verifyMwebUtxosVars) :=
  {| mwebUtxos := mwebUtxos v; vleafset := vleafset v;
     firstLeafIdx := firstLeafIdx v; lastLeafIdx := lastLeafIdx v;
     leavesUsed := lu; hashesUsed := hu; isProofHash := isProofHash v |}.

Definition mark_proof (n : Z) (v : verifyMwebUtxosVars) :=
  {| mwebUtxos := mwebUtxos v; vleafset := vleafset v;
     firstLeafIdx := firstLeafIdx v; lastLeafIdx := lastLeafIdx v;
     leavesUsed := leavesUsed v; hashesUsed := hashesUsed v;
     isProofHash := <[n := true]> (isProofHash v) |}.

(** [v.isProofHash[nodeIdx]]: a missing key reads as [false]. *)
Definition is_proof (v : verifyMwebUtxosVars) (n : Z) : bool :=
  default false (isProofHash v !! n).

(** Methods on [*verifyMwebUtxosVars] thread the record; [None] is a
    runtime panic (an index out of range or a nil dereference). *)
Definition M (A : Type) : Type :=
  verifyMwebUtxosVars -> option (A * verifyMwebUtxosVars).

Definition ret {A} (a : A) : M A := fun v => Some (a, v).

Definition bind {A B} (m : M A) (k : A -> M B) : M B :=
  fun v => match m v with
           | Some (a, v') => k a v'
           | None => None
           end.

Definition panic {A} : M A := fun _ => None.

Definition get : M verifyMwebUtxosVars := fun v => Some (v, v).

Notation "'do' x <- m ;; k" := (bind m (fun x => k))
  (at level 10, x name, m at level 99, k at level 200).

(** [func (v *verifyMwebUtxosVars) nextLeaf() (leafIdx, *chainhash.Hash)] *)
Definition nextLeaf : M (Z * option Hash) := fun v =>
  if decide (leavesUsed v = length (Utxos (mwebUtxos v))) then Some ((0, None), v)
  else match Utxos (mwebUtxos v) !! leavesUsed v with
       | None => None
       | Some utxo =>
           Some ((LeafIndex utxo, Some (OutputId utxo)),
                 set_cursors (S (leavesUsed v)) (hashesUsed v) v)
       end.

(** [func (v *verifyMwebUtxosVars) nextHash(nodeIdx nodeIdx) *chainhash.Hash] *)
Definition nextHash (nodeIdx : Z) : M (option Hash) := fun v =>
  if decide (hashesUsed v = length (ProofHashes (mwebUtxos v))) then Some (None, v)
  else match ProofHashes (mwebUtxos v) !! hashesUsed v with
       | None => None
       | Some hash =>
           Some (Some hash,
                 mark_proof nodeIdx (set_cursors (leavesUsed v) (S (hashesUsed v)) v))
       end.

Section Hashing.

(** The BLAKE3 digest (lukechampine.com/blake3) of a byte string. *)
Variable blake3 : list Z -> Hash.

(** [func (i nodeIdx) hash(data []byte) *chainhash.Hash] *)
Definition node_hash (i : Z) (data : list Z) : Hash :=
  blake3 (leBytes 8 i ++ varBytes data).

(** [func (i nodeIdx) parentHash(left, right []byte) *chainhash.Hash] *)
Definition parentHash (i : Z) (left right : list Z) : Hash :=
  blake3 (leBytes 8 i ++ left ++ right).

(** The [height == 0] branch of [calcNodeHash]: the node is a leaf. *)
Definition calcLeafHash (nodeIdx : Z) : M (option Hash) :=
  do v <- get ;;
  let leafIdx := NodeIdx.leafIdx nodeIdx in
  if negb (Leafset.contains (vleafset v) leafIdx) then ret None
  else
    do lo <- nextLeaf ;;
    match snd lo with
    | Some outputId =>
        if negb (leafIdx =? fst lo) then ret None
        else ret (Some (node_hash nodeIdx outputId))
    | None => ret None
    end.

(** The [switch] that ends [calcNodeHash]: a side that came back nil is
    replaced by the next proof hash, unless both did. *)
Definition joinChildren (nodeIdx l r : Z) (left right : option Hash)
    : M (option Hash) :=
  match left, right with
  | None, None => ret None
  | None, Some rh =>
      do left' <- nextHash l ;;
      match left' with
      | None => ret None
      | Some lh => ret (Some (parentHash nodeIdx lh rh))
      end
  | Some lh, None =>
      do right' <- nextHash r ;;
      match right' with
      | None => ret None
      | Some rh => ret (Some (parentHash nodeIdx lh rh))
      end
  | Some lh, Some rh => ret (Some (parentHash nodeIdx lh rh))
  end.

(** [func (v *verifyMwebUtxosVars) calcNodeHash(nodeIdx, height)];
    the recursion is on [height]. *)
Fixpoint calcNodeHash (nodeIdx : Z) (height : nat) : M (option Hash) :=
  do v <- get ;;
  if (nodeIdx <? LeafIdx.nodeIdx (firstLeafIdx v)) || is_proof v nodeIdx
  then nextHash nodeIdx
  else
    match height with
    | O => calcLeafHash nodeIdx
    | S height' =>
        let l := NodeIdx.left nodeIdx (Z.of_nat height) in
        let r := NodeIdx.right nodeIdx in
        do left <- calcNodeHash l height' ;;
        do right <- (if LeafIdx.nodeIdx (lastLeafIdx v) <=? l
                     then nextHash r
                     else calcNodeHash r height') ;;
        joinChildren nodeIdx l r left right
    end.

(** The leaf-range walk, [for i := 0; ; i++ { ... }]: [Some (Some last)]
    when the loop breaks with [v.lastLeafIdx = last], [Some None] when it
    returns false, [None] on an index out of range (or when the fuel,
    one unit per utxo, runs out). *)
Fixpoint leafWalk (l : leafset) (utxos : list MwebNetUtxo) (fuel i : nat)
    (last : Z) : option (option Z) :=
  match fuel with
  | O => None
  | S fuel' =>
      if negb (Leafset.contains l last) then Some None
      else
        match utxos !! i with
        | None => None
        | Some utxo =>
            if negb (LeafIndex utxo =? last) then Some None
            else if decide (Z.of_nat i = Z.of_nat (length utxos) - 1)
            then Some (Some last)
            else
              match Leafset.nextUnspent l last with
              | None => None
              | Some next => leafWalk l utxos fuel' (S i) next
              end
        end
  end.

(** The hash of one peak: [calcNodeHash], and the next proof hash when
    that came back nil. *)
Definition peakHashOf (peakNodeIdx : Z) : M (option Hash) :=
  do h <- calcNodeHash peakNodeIdx (Z.to_nat (NodeIdx.height peakNodeIdx)) ;;
  match h with
  | None => nextHash peakNodeIdx
  | Some _ => ret h
  end.

(** What follows the peak that holds the last leaf: one more proof hash
    for the peaks to its right, if there are any. *)
Definition bagRest (nextNodeIdx : Z) (peaks : list Z) (peakNodeIdx : Z)
    (peakHashes : list Hash) : M (option (list Hash)) :=
  match index peaks (Z.of_nat (length peaks) - 1) with
  | None => panic
  | Some lastPeak =>
      if negb (peakNodeIdx =? lastPeak) then
        do b <- nextHash nextNodeIdx ;;
        match b with
        | None => ret None
        | Some baggedPeak => ret (Some (peakHashes ++ [baggedPeak]))
        end
      else ret (Some peakHashes)
  end.

(** The body of [for _, peakNodeIdx := range peaks]: the hashes
    collected so far and the state when the loop ends or breaks,
    [None] as value when the verifier returns false inside the loop. *)
Fixpoint peakWalk (nextNodeIdx : Z) (peaks rest : list Z)
    (peakHashes : list Hash) : M (option (list Hash)) :=
  match rest with
  | [] => ret (Some peakHashes)
  | peakNodeIdx :: rest' =>
      do h <- peakHashOf peakNodeIdx ;;
      match h with
      | None => ret None
      | Some peakHash =>
          let peakHashes := peakHashes ++ [peakHash] in
          do v <- get ;;
          if LeafIdx.nodeIdx (lastLeafIdx v) <=? peakNodeIdx
          then bagRest nextNodeIdx peaks peakNodeIdx peakHashes
          else peakWalk nextNodeIdx peaks rest' peakHashes
      end
  end.

(** One round of [for i := 0; i < 2; i++]: the cursors are reset, the
    peaks are walked, and the cursors must have reached the ends. *)
Definition onePass (nextNodeIdx : Z) (peaks : list Z) : M (option (list Hash)) :=
  fun v =>
    match peakWalk nextNodeIdx peaks peaks [] (set_cursors 0 0 v) with
    | None => None
    | Some (None, v') => Some (None, v')
    | Some (Some peakHashes, v') =>
        if negb (bool_decide (leavesUsed v' = length (Utxos (mwebUtxos v')))) ||
           negb (bool_decide (hashesUsed v' = length (ProofHashes (mwebUtxos v'))))
        then Some (None, v')
        else Some (Some peakHashes, v')
    end.

(** [for i := 0; i < 2; i++ { ... }] *)
Fixpoint passes (n : nat) (nextNodeIdx : Z) (peaks : list Z)
    (peakHashes : list Hash) : M (option (list Hash)) :=
  match n with
  | O => ret (Some peakHashes)
  | S n' =>
      do r <- onePass nextNodeIdx peaks ;;
      match r with
      | None => ret None
      | Some peakHashes' => passes n' nextNodeIdx peaks peakHashes'
      end
  end.

(** The right-to-left fold of the peak hashes; [None] is the panic of
    [peakHashes[len(peakHashes)-1]] on an empty slice. *)
Definition bagPeaks (nextNodeIdx : Z) (peakHashes : list Hash) : option Hash :=
  match index peakHashes (Z.of_nat (length peakHashes) - 1) with
  | None => None
  | Some baggedPeak =>
      Some (fold_right (fun h acc => parentHash nextNodeIdx h acc) baggedPeak
              (take (length peakHashes - 1) peakHashes))
  end.

(** [func verifyMwebUtxos(mwebHeader, mwebLeafset, mwebUtxos) bool];
    [None] is a runtime panic. *)
Definition verifyMwebUtxos (mwebHeader : MwebHeader) (mwebLeafset : leafset)
    (m : MsgMwebUtxos) : option bool :=
  if emptyMMR mwebHeader m then Some true
  else if bool_decide (length (Utxos m) = 0%nat) ||
          (OutputMMRSize mwebHeader =? 0)
  then Some false
  else
    match leafWalk mwebLeafset (Utxos m) (length (Utxos m)) 0 (StartIndex m) with
    | None => None
    | Some None => Some false
    | Some (Some last) =>
        let v := {| mwebUtxos := m; vleafset := mwebLeafset;
                    firstLeafIdx := StartIndex m; lastLeafIdx := last;
                    leavesUsed := 0; hashesUsed := 0; isProofHash := ∅ |} in
        let nextNodeIdx := LeafIdx.nodeIdx (OutputMMRSize mwebHeader) in
        let peaks := calcPeaks nextNodeIdx in
        match passes 2 nextNodeIdx peaks [] v with
        | None => None
        | Some (None, _) => Some false
        | Some (Some peakHashes, _) =>
            match bagPeaks nextNodeIdx peakHashes with
            | None => None
            | Some baggedPeak =>
                Some (bool_decide (baggedPeak = OutputRoot mwebHeader))
            end
        end
    end.

(** The two-pass reference of the specification: the peak walk is run
    twice, the cursors are reset between the passes and [isProofHash] is
    kept; the cursors are compared with the lengths after the second
    pass only. *)
Definition walkPass (nextNodeIdx : Z) (peaks : list Z) : M (option (list Hash)) :=
  fun v => peakWalk nextNodeIdx peaks peaks [] (set_cursors 0 0 v).

Definition twoPassReference (mwebHeader : MwebHeader) (mwebLeafset : leafset)
    (m : MsgMwebUtxos) : option bool :=
  if emptyMMR mwebHeader m then Some true
  else if bool_decide (length (Utxos m) = 0%nat) ||
          (OutputMMRSize mwebHeader =? 0)
  then Some false
  else
    match leafWalk mwebLeafset (Utxos m) (length (Utxos m)) 0 (StartIndex m) with
    | None => None
    | Some None => Some false
    | Some (Some last) =>
        let v := {| mwebUtxos := m; vleafset := mwebLeafset;
                    firstLeafIdx := StartIndex m; lastLeafIdx := last;
                    leavesUsed := 0; hashesUsed := 0; isProofHash := ∅ |} in
        let nextNodeIdx := LeafIdx.nodeIdx (OutputMMRSize mwebHeader) in
        let peaks := calcPeaks nextNodeIdx in
        match walkPass nextNodeIdx peaks v with
        | None => None
        | Some (None, _) => Some false
        | Some (Some _, v1) =>
            match walkPass nextNodeIdx peaks v1 with
            | None => None
            | Some (None, _) => Some false
            | Some (Some peakHashes, v2) =>
                if negb (bool_decide (leavesUsed v2 = length (Utxos m))) ||
                   negb (bool_decide (hashesUsed v2 = length (ProofHashes m)))
                then Some false
                else
                  match bagPeaks nextNodeIdx peakHashes with
                  | None => None
                  | Some baggedPeak =>
                      Some (bool_decide (baggedPeak = OutputRoot mwebHeader))
                  end
            end
        end
    end.

End Hashing.

(** ** The header verifier *)

(** Modelled from the spec: the parts of [wire.MsgMwebHeader] and of the
    messages inside it that [verifyMwebHeader] reads; they are declared
    in the wire package. *)
Record BlockHeader := {
  MerkleRoot : Hash;
  headerFields : list Z
}.

Record MsgMerkleBlock := {
  Header : BlockHeader;
  Transactions : Z;
  Hashes : list Hash;
  Flags : list Z
}.

Record TxOut := {
  Value : Z;
  PkScript : list Z
}.

Record MsgTx := {
  IsHogEx : bool;
  TxOuts : list TxOut;
  txFields : list Z
}.

Record MsgMwebHeader := {
  Merkle : MsgMerkleBlock;
  Hogex : MsgTx;
  MwebHeaderOf : MwebHeader
}.

Record MsgMwebLeafset := {
  Leafset : list Z
}.

(** The result of [bloom.VerifyMerkleBlock]: the root the partial merkle
    tree folds to, the matched transaction hashes and their positions. *)
Record ExtractResult := {
  Root : option Hash;
  Match : list Hash;
  Index : list Z
}.

(** [func (hash *Hash) IsEqual(target *Hash) bool] *)
Definition IsEqual (h target : option Hash) : bool :=
  match h, target with
  | None, None => true
  | Some a, Some b => bool_decide (a = b)
  | _, _ => false
  end.

(** [txscript.OP_8] *)
Definition OP_8 : Z := 88.

Section HeaderVerifier.

Variable blake3 : list Z -> Hash.
(** [BlockHeader.BlockHash], [bloom.VerifyMerkleBlock], [MsgTx.TxHash]
    and [MwebHeader.Hash] live in other packages. *)
Variable blockHash : BlockHeader -> Hash.
Variable VerifyMerkleBlock : MsgMerkleBlock -> ExtractResult.
Variable txHash : MsgTx -> Hash.
Variable mwebHeaderHash : MwebHeader -> Hash.

(** [func verifyMwebHeader(mwebHeader, mwebLeafset, lastHeight, lastHash) bool];
    the two messages are pointers and may be nil; [None] is a runtime
    panic. *)
Definition verifyMwebHeader (mwebHeader : option MsgMwebHeader)
    (mwebLeafset : option MsgMwebLeafset) (lastHeight : Z) (lastHash : Hash)
    : option bool :=
  match mwebHeader, mwebLeafset with
  | Some h, Some ls =>
      if negb (bool_decide (blockHash (Header (Merkle h)) = lastHash))
      then Some false
      else
        let extractResult := VerifyMerkleBlock (Merkle h) in
        if negb (IsEqual (Root extractResult) (Some (MerkleRoot (Header (Merkle h)))))
        then Some false
        else if negb (IsHogEx (Hogex h)) then Some false
        else
          match index (Match extractResult)
                  (Z.of_nat (length (Match extractResult)) - 1) with
          | None => None
          | Some finalTx =>
              if negb (bool_decide (txHash (Hogex h) = finalTx)) then Some false
              else
                match index (Index extractResult)
                        (Z.of_nat (length (Index extractResult)) - 1) with
                | None => None
                | Some finalTxPos =>
                    if negb (finalTxPos =? (Transactions (Merkle h) - 1) mod 2 ^ 32)
                    then Some false
                    else
                      let script := [OP_8; 32] ++ mwebHeaderHash (MwebHeaderOf h) in
                      match index (TxOuts (Hogex h)) 0 with
                      | None => None
                      | Some out =>
                          if negb (bool_decide (PkScript out = script))
                          then Some false
                          else
                            let leafsetRoot := blake3 (Leafset ls) in
                            if negb (bool_decide
                                       (leafsetRoot = LeafsetRoot (MwebHeaderOf h)))
                            then Some false
                            else Some true
                      end
                end
          end
  | _, _ => Some false
  end.

End HeaderVerifier.

(** ** The leafset differ of [getMwebUtxos] *)

(** [type span struct { start uint64; count uint16 }] *)
Record span := {
  start : Z;
  count : Z
}.

Record diffState := {
  addLeaf : span;
  addedLeaves : list span;
  removedLeaves : list Z
}.

(** The closure [addLeafSpan]. *)
Definition addLeafSpan (st : diffState) : diffState :=
  if 0 <? count (addLeaf st)
  then {| addLeaf := {| start := 0; count := 0 |};
          addedLeaves := addedLeaves st ++ [addLeaf st];
          removedLeaves := removedLeaves st |}
  else st.

(** The common byte prefix: [for index < len(old) && index < len(new) &&
    old[index] == new[index] { index++ }]. *)
Fixpoint commonPrefix (old new : leafset) : Z :=
  match old, new with
  | a :: old', b :: new' => if a =? b then 1 + commonPrefix old' new' else 0
  | _, _ => 0
  end.

Section Differ.

(** [wire.MaxMwebUtxosPerQuery], declared in the wire package. *)
Variable MaxMwebUtxosPerQuery : Z.

(** The body of the bit loop at [index]. *)
Definition diffBody (oldLeafset newLeafset : leafset) (index : Z)
    (st : diffState) : diffState :=
  if Leafset.contains oldLeafset index then
    let st := addLeafSpan st in
    if negb (Leafset.contains newLeafset index)
    then {| addLeaf := addLeaf st; addedLeaves := addedLeaves st;
            removedLeaves := removedLeaves st ++ [index] |}
    else st
  else if Leafset.contains newLeafset index then
    let s0 := if count (addLeaf st) =? 0 then index else start (addLeaf st) in
    let st := {| addLeaf := {| start := s0; count := u16 (count (addLeaf st) + 1) |};
                 addedLeaves := addedLeaves st;
                 removedLeaves := removedLeaves st |} in
    if count (addLeaf st) =? MaxMwebUtxosPerQuery then addLeafSpan st else st
  else st.

(** [for index *= 8; index < oldNumLeaves || index < newNumLeaves; index++] *)
Fixpoint diffLoop (fuel : nat) (oldLeafset newLeafset : leafset)
    (oldNumLeaves newNumLeaves index : Z) (st : diffState) : diffState :=
  match fuel with
  | O => st
  | S fuel' =>
      if (index <? oldNumLeaves) || (index <? newNumLeaves)
      then diffLoop fuel' oldLeafset newLeafset oldNumLeaves newNumLeaves
             (index + 1) (diffBody oldLeafset newLeafset index st)
      else st
  end.

(** The planning part of [getMwebUtxos]: the additive spans and the
    removed leaves. The loop runs from [8 * prefix] up to the larger
    leaf count. *)
Definition leafsetDiff (oldLeafset : leafset) (oldNumLeaves : Z)
    (newLeafset : leafset) (newNumLeaves : Z) : list span * list Z :=
  let index := u64 (commonPrefix oldLeafset newLeafset * 8) in
  let st := diffLoop (Z.to_nat (Z.max oldNumLeaves newNumLeaves - index))
              oldLeafset newLeafset oldNumLeaves newNumLeaves index
              {| addLeaf := {| start := 0; count := 0 |};
                 addedLeaves := []; removedLeaves := [] |} in
  let st := addLeafSpan st in
  (addedLeaves st, removedLeaves st).

End Differ.

(** ** The response handler *)

(** Modelled from the spec: [wire.MsgGetMwebUtxos]. *)
Record MsgGetMwebUtxos := {
  qBlockHash : Hash;
  qStartIndex : Z;
  qNumRequested : Z;
  qOutputFormat : Z
}.

(** [wire.Message]: the two kinds the handler looks for, and the rest. *)
Inductive Message :=
| MwebUtxosMsg (r : MsgMwebUtxos)
| GetMwebUtxosMsg (q : MsgGetMwebUtxos)
| OtherMsg (command : Z).

(** [query.Progress] *)
Record Progress := {
  Finished : bool;
  Progressed : bool
}.

(** [banman.InvalidMwebUtxos Reason = 21] *)
Definition InvalidMwebUtxos : Z := 21.

(** What the handler does to its collaborators. *)
Inductive Effect :=
| BanPeer (peerAddr : Z) (reason : Z)
| SendUtxos (r : MsgMwebUtxos).

(** [type mwebUtxosQuery struct]: the fields the handler reads. *)
Record mwebUtxosQuery := {
  qMwebHeader : MwebHeader;
  qLeafset : leafset
}.

Section Handler.

Variable blake3 : list Z -> Hash.

(** [func (m *mwebUtxosQuery) handleResponse(req, resp, peerAddr)];
    [sendWins] tells which case of the final [select] is taken: the
    send on [utxosChan] or the receive from [quit]. *)
Definition handleResponse (m : mwebUtxosQuery) (req resp : Message)
    (peerAddr : Z) (sendWins : bool) : option (Progress * list Effect) :=
  match resp with
  | MwebUtxosMsg r =>
      match req with
      | GetMwebUtxosMsg q =>
          if negb (bool_decide (qBlockHash q = BlockHash r)) ||
             negb (qStartIndex q =? StartIndex r) ||
             negb (qOutputFormat q =? OutputFormat r) ||
             negb (qNumRequested q =? u16 (Z.of_nat (length (Utxos r))))
          then Some ({| Finished := false; Progressed := false |}, [])
          else
            match verifyMwebUtxos blake3 (qMwebHeader m) (qLeafset m) r with
            | None => None
            | Some false =>
                Some ({| Finished := false; Progressed := false |},
                      [BanPeer peerAddr InvalidMwebUtxos])
            | Some true =>
                if sendWins
                then Some ({| Finished := true; Progressed := true |},
                           [SendUtxos r])
                else Some ({| Finished := false; Progressed := false |}, [])
            end
      | _ => Some ({| Finished := false; Progressed := false |}, [])
      end
  | _ => Some ({| Finished := false; Progressed := false |}, [])
  end.

End Handler.

(** ** The reassembly loop of [getMwebUtxos] *)

(** What the [select] of one iteration receives. *)
Inductive Arrival :=
| GotUtxos (r : MsgMwebUtxos)
| GotErrNil
| GotErr
| GotQuit.

(** A commit: [PutCoins(r.Utxos)] followed by one call of every
    subscriber callback with [r.Utxos]. *)
Inductive Commit :=
| PutCoins (utxos : list MwebNetUtxo)
| Callback (cb : nat) (utxos : list MwebNetUtxo).

Record coordState := {
  nextSpan : nat;
  queryResponses : gmap Z MsgMwebUtxos;
  commits : list Commit;
  totalUtxos : Z
}.

Section Coordinator.

Variable plan : list span.
(** The number of registered callbacks, [len(b.mwebUtxosCallbacks)]. *)
Variable callbacks : nat.

Definition commitOne (r : MsgMwebUtxos) : list Commit :=
  PutCoins (Utxos r) :: map (fun cb => Callback cb (Utxos r)) (seq 0 callbacks).

(** The inner loop [for i < len(addedLeaves) { ... }] that drains the
    cache; one unit of fuel per remaining span. *)
Fixpoint drain (fuel : nat) (st : coordState) : coordState :=
  match fuel with
  | O => st
  | S fuel' =>
      match plan !! nextSpan st with
      | None => st
      | Some sp =>
          match queryResponses st !! start sp with
          | None => st
          | Some r =>
              drain fuel'
                {| nextSpan := S (nextSpan st);
                   queryResponses := delete (start sp) (queryResponses st);
                   commits := commits st ++ commitOne r;
                   totalUtxos := totalUtxos st + Z.of_nat (length (Utxos r)) |}
          end
      end
  end.

(** One delivered response: the body of the outer loop after the
    [select]; [None] is the panic of [r.Utxos[0]] on an empty batch. *)
Definition deliver (r : MsgMwebUtxos) (st : coordState) : option coordState :=
  match index (Utxos r) 0,
        index (Utxos r) (Z.of_nat (length (Utxos r)) - 1),
        plan !! nextSpan st with
  | Some first, Some last, Some sp =>
      let startIndex := LeafIndex first in
      let lastIndex := LeafIndex last in
      let curIndex := start sp in
      if lastIndex <? curIndex then Some st
      else
        let st := {| nextSpan := nextSpan st;
                     queryResponses := <[startIndex := r]> (queryResponses st);
                     commits := commits st;
                     totalUtxos := totalUtxos st |} in
        Some (drain (length plan - nextSpan st) st)
  | _, _, _ => None
  end.

(** How the outer loop [for i := 0; i < len(addedLeaves); { select ... }]
    ended. *)
Inductive Outcome :=
| AllCommitted (st : coordState)
| Waiting (st : coordState)
| Abandoned (st : coordState)
| Panicked.

(** The outer loop run on the sequence of arrivals. *)
Fixpoint reassemble (arrivals : list Arrival) (st : coordState) : Outcome :=
  if bool_decide (nextSpan st < length plan)%nat then
    match arrivals with
    | [] => Waiting st
    | GotUtxos r :: rest =>
        match deliver r st with
        | None => Panicked
        | Some st' => reassemble rest st'
        end
    | GotErrNil :: rest => reassemble rest st
    | GotErr :: _ => Abandoned st
    | GotQuit :: _ => Abandoned st
    end
  else AllCommitted st.

Definition initialState : coordState :=
  {| nextSpan := 0; queryResponses := ∅; commits := []; totalUtxos := 0 |}.

End Coordinator.

(** ** The added leaves of [notifyAddedMwebUtxos] *)

(** The scan of [notifyAddedMwebUtxos]:
    [for index *= 8; index < newNumLeaves; index++ { ... }], the fuel
    counts the iterations. *)
Fixpoint addedLoop (fuel : nat) (oldLeafset newLeafset : leafset)
    (newNumLeaves index : Z) (addedLeaves : list Z) : list Z :=
  match fuel with
  | O => addedLeaves
  | S fuel' =>
      if index <? newNumLeaves
      then addedLoop fuel' oldLeafset newLeafset newNumLeaves (index + 1)
             (if negb (Leafset.contains oldLeafset index) &&
                 Leafset.contains newLeafset index
              then addedLeaves ++ [index]
              else addedLeaves)
      else addedLeaves
  end.

(** The leaves that [notifyAddedMwebUtxos] fetches and hands to the
    callbacks: [oldLeafset] is the argument, [newLeafset] and
    [newNumLeaves] come from the coins database. *)
Definition notifyAddedLeaves (oldLeafset newLeafset : leafset)
    (newNumLeaves : Z) : list Z :=
  let index := u64 (commonPrefix oldLeafset newLeafset * 8) in
  addedLoop (Z.to_nat (newNumLeaves - index)) oldLeafset newLeafset
    newNumLeaves index [].

(** ** Ban reasons (banman/reason.go) *)

Module Reason.

Import Stdlib.Strings.String.

(** [type Reason uint8] and its constants. *)
Definition ExceededBanThreshold : Z := 1.
Definition NoCompactFilters : Z := 2.
Definition InvalidFilterHeader : Z := 3.
Definition InvalidFilterHeaderCheckpoint : Z := 4.
Definition InvalidBlock : Z := 5.
Definition InvalidMwebHeader : Z := 20.
Definition InvalidMwebUtxos : Z := 21.

(** [func (r Reason) String() string] *)
Definition String (r : Z) : String.string :=
  if r =? ExceededBanThreshold then "peer exceeded ban threshold"%string
  else if r =? NoCompactFilters then "peer was unable to serve compact filters"%string
  else if r =? InvalidFilterHeader then "peer served invalid filter header"%string
  else if r =? InvalidFilterHeaderCheckpoint
  then "peer served invalid filter header checkpoint"%string
  else if r =? InvalidBlock then "peer served an invalid block"%string
  else if r =? InvalidMwebHeader then "peer served invalid mweb header message"%string
  else if r =? InvalidMwebUtxos then "peer served invalid mweb utxos message"%string
  else "unknown reason"%string.

(** The reasons that have a constant. *)
Definition known : list Z :=
  [ExceededBanThreshold; NoCompactFilters; InvalidFilterHeader;
   InvalidFilterHeaderCheckpoint; InvalidBlock; InvalidMwebHeader;
   InvalidMwebUtxos].

End Reason.

(** * Notions used in the statements *)

(** The node index of leaf [i], before reduction modulo 2^64. *)
Definition mmrSize (i : Z) : Z := 2 * i - OnesCount64 i.

(** The scan of [nextUnspent] stops at [x]. *)
Definition stops (l : leafset) (x : Z) : bool :=
  Leafset.contains l x || (Z.of_nat (length l) <=? x / 8).

(** [unspentChain l a idxs b]: [idxs] starts at [a], ends at [b], every
    index is set in [l] and each one is the next unspent index after the
    one before it. *)
Inductive unspentChain (l : leafset) : Z -> list Z -> Z -> Prop :=
| chain_last a :
    Leafset.contains l a = true -> unspentChain l a [a] a
| chain_next a n rest b :
    Leafset.contains l a = true ->
    Leafset.nextUnspent l a = Some n ->
    unspentChain l n rest b ->
    unspentChain l a (a :: rest) b.

(** The cursors stay within the two slices of the message. *)
Definition cursors_ok (v : verifyMwebUtxosVars) : Prop :=
  (leavesUsed v <= length (Utxos (mwebUtxos v)))%nat /\
  (hashesUsed v <= length (ProofHashes (mwebUtxos v)))%nat.

(** The fields a walk never writes. *)
Definition frame (v v' : verifyMwebUtxosVars) : Prop :=
  mwebUtxos v' = mwebUtxos v /\ vleafset v' = vleafset v /\
  firstLeafIdx v' = firstLeafIdx v /\ lastLeafIdx v' = lastLeafIdx v.

(** A monadic step runs without panic and keeps the invariant. *)
Definition runs {A} (m : M A) : Prop :=
  forall v, cursors_ok v ->
    exists a v', m v = Some (a, v') /\ cursors_ok v' /\ frame v v'.

(** The marks of [v] are among those of [v']. *)
Definition marks_le (v v' : verifyMwebUtxosVars) : Prop :=
  forall n, is_proof v n = true -> is_proof v' n = true.

(** [nilb r] is 1 when a hash came back nil. *)
Definition nilb (r : option Hash) : nat :=
  match r with Some _ => 0%nat | None => 1%nat end.

(** A step that changes the cursors and the marks only, and only
    forward. *)
Definition advances (v v' : verifyMwebUtxosVars) : Prop :=
  frame v v' /\ marks_le v v' /\
  (leavesUsed v <= leavesUsed v')%nat /\ (hashesUsed v <= hashesUsed v')%nat.

Section WalkSteps.

Variable blake3 : list Z -> Hash.

(** [pulled v n]: [calcNodeHash] answers node [n] with a proof hash. *)
Definition pulled (v : verifyMwebUtxosVars) (n : Z) : bool :=
  (n <? LeafIdx.nodeIdx (firstLeafIdx v)) || is_proof v n.

(** The right child of [n]: a proof hash when the last leaf is on the
    left, the recursion otherwise. *)
Definition rightChild (n : Z) (h : nat) (v : verifyMwebUtxosVars)
    : M (option Hash) :=
  if LeafIdx.nodeIdx (lastLeafIdx v) <=? NodeIdx.left n (Z.of_nat (S h))
  then nextHash (NodeIdx.right n)
  else calcNodeHash blake3 (NodeIdx.right n) h.

End WalkSteps.

(** A merkle block that proves no transaction: the extraction returns
    the root and no match. *)
Definition noMatchExtract (mb : MsgMerkleBlock) : ExtractResult :=
  {| Root := Some (MerkleRoot (Header mb)); Match := []; Index := [] |}.

Definition noMatchHeader : MsgMwebHeader :=
  {| Merkle := {| Header := {| MerkleRoot := repeat 17 32; headerFields := [] |};
                  Transactions := 2; Hashes := [repeat 17 32]; Flags := [0] |};
     Hogex := {| IsHogEx := true; TxOuts := []; txFields := [] |};
     MwebHeaderOf := {| OutputRoot := zeroHash; OutputMMRSize := 0;
                        LeafsetRoot := zeroHash |} |}.

Section HandlerSpec.

Variable blake3 : list Z -> Hash.

(** The response answers the request: the kinds and the four fields
    agree. *)
Definition answersRequest (req resp : Message) : Prop :=
  exists q r, req = GetMwebUtxosMsg q /\ resp = MwebUtxosMsg r /\
    qBlockHash q = BlockHash r /\ qStartIndex q = StartIndex r /\
    qOutputFormat q = OutputFormat r /\
    qNumRequested q = Z.of_nat (length (Utxos r)).

Definition noProgress : Progress := {| Finished := false; Progressed := false |}.

(** What the claim says of a run that ended with [p] and [effects]. *)
Definition handlerPost (m : mwebUtxosQuery) (req resp : Message)
    (peerAddr : Z) (sendWins : bool) (p : Progress) (effects : list Effect)
    : Prop :=
  (* banned exactly on a failed verification *)
  ((exists r, resp = MwebUtxosMsg r /\ answersRequest req resp /\
              verifyMwebUtxos blake3 (qMwebHeader m) (qLeafset m) r = Some false) ->
   p = noProgress /\ effects = [BanPeer peerAddr InvalidMwebUtxos]) /\
  ((exists a reason, In (BanPeer a reason) effects) ->
   exists r, resp = MwebUtxosMsg r /\ answersRequest req resp /\
             verifyMwebUtxos blake3 (qMwebHeader m) (qLeafset m) r = Some false) /\
  (* no answer: no progress, no ban *)
  (~ answersRequest req resp -> p = noProgress /\ effects = []) /\
  (* verified and delivered *)
  ((exists r, resp = MwebUtxosMsg r /\ answersRequest req resp /\
              verifyMwebUtxos blake3 (qMwebHeader m) (qLeafset m) r = Some true) ->
   sendWins = true ->
   p = {| Finished := true; Progressed := true |} /\
   exists r, effects = [SendUtxos r] /\ resp = MwebUtxosMsg r).

End HandlerSpec.

Section ReassemblySpec.

Variable plan : list span.
Variable callbacks : nat.

(** The planned spans start at strictly ascending indices. *)
Definition ascending : Prop :=
  forall i j a b, plan !! i = Some a -> plan !! j = Some b ->
                  (i < j)%nat -> start a < start b.



(** What the coin store sees of a log of commits: the batches handed
    to [PutCoins], in order. *)
Definition persisted (log : list Commit) : list (list MwebNetUtxo) :=
  flat_map (fun c => match c with
                     | PutCoins utxos => [utxos]
                     | Callback _ _ => []
                     end) log.


(** The leaf index a batch starts at, [r.Utxos[0].LeafIndex]. *)
Definition firstLeaf (utxos : list MwebNetUtxo) : Z :=
  match index utxos 0 with
  | Some u => LeafIndex u
  | None => 0
  end.




End ReassemblySpec.

(** ** Sample data

    The scenarios of the specification, run with a digest that returns
    its input: it is injective, so distinct inputs never collide. *)

Definition plainDigest (data : list Z) : Hash := data.

Definition mkUtxo (i : Z) (id : Hash) : MwebNetUtxo :=
  {| LeafIndex := i; OutputId := id |}.

Definition idA : Hash := repeat 170 32.
Definition idB : Hash := repeat 187 32.
Definition idC : Hash := repeat 204 32.

(** An empty MMR and the empty batch. *)
Definition emptyHeader : MwebHeader :=
  {| OutputRoot := zeroHash; OutputMMRSize := 0; LeafsetRoot := zeroHash |}.

Definition emptyBatch : MsgMwebUtxos :=
  {| BlockHash := zeroHash; StartIndex := 0; OutputFormat := 0;
     Utxos := []; ProofHashes := [] |}.

(** Three leaves, the middle one spent: leafset [0xA0], peaks at node 2
    (over leaves 0 and 1) and node 3 (leaf 2). *)
Definition spentLeafHash : Hash := node_hash plainDigest 1 idB.

Definition threeLeafRoot : Hash :=
  parentHash plainDigest 4
    (parentHash plainDigest 2 (node_hash plainDigest 0 idA) spentLeafHash)
    (node_hash plainDigest 3 idC).

Definition threeLeafHeader : MwebHeader :=
  {| OutputRoot := threeLeafRoot; OutputMMRSize := 3; LeafsetRoot := zeroHash |}.

Definition threeLeafBatch : MsgMwebUtxos :=
  {| BlockHash := zeroHash; StartIndex := 0; OutputFormat := 0;
     Utxos := [mkUtxo 0 idA; mkUtxo 2 idC]; ProofHashes := [spentLeafHash] |}.

Definition threeLeafRequest : MsgGetMwebUtxos :=
  {| qBlockHash := zeroHash; qStartIndex := 0; qNumRequested := 2;
     qOutputFormat := 0 |}.

Definition threeLeafQuery : mwebUtxosQuery :=
  {| qMwebHeader := threeLeafHeader; qLeafset := [160] |}.

(** Three planned spans and their responses. *)
Definition threeSpans : list span :=
  [{| start := 100; count := 2 |}; {| start := 200; count := 1 |};
   {| start := 300; count := 1 |}].

Definition responseAt (first last : Z) : MsgMwebUtxos :=
  {| BlockHash := zeroHash; StartIndex := first; OutputFormat := 0;
     Utxos := [mkUtxo first idA; mkUtxo last idB]; ProofHashes := [] |}.

(** ** The MMR of the full node and its proofs

    The verifier is checked against an honest prover. The prover is not
    part of this repository: the MMR, its root and the proof of a batch
    are built here as sections 4.1 and 4.3 of the specification describe
    them. *)

Definition pow2 (h : nat) : Z := 2 ^ Z.of_nat h.

(** The node index of the root of the perfect subtree of height [h]
    whose leftmost leaf is [first]: the subtree ends [2^(h+1) - 1] nodes
    after the node of [first] begins. *)
Definition subtreeRoot (first : Z) (h : nat) : Z :=
  mmrSize first + 2 * pow2 h - 2.

(** [first] can head a perfect subtree of height [h] in an MMR of [N]
    leaves. *)
Definition validSubtree (N : Z) (first : Z) (h : nat) : Prop :=
  0 <= first /\ first mod pow2 h = 0 /\ first + pow2 h <= N.

(** The peaks of an MMR of [n] more leaves after [first], for [n] below
    [2^k]: one perfect tree per set bit of the leaf count, the tallest
    first. *)
Fixpoint mmrPeaks (k : nat) (n first : Z) : list (Z * nat) :=
  match k with
  | O => []
  | S k' =>
      if pow2 k' <=? n
      then (first, k') :: mmrPeaks k' (n - pow2 k') (first + pow2 k')
      else mmrPeaks k' n first
  end.

Definition rootOf (p : Z * nat) : Z := subtreeRoot (fst p) (snd p).

(** The unspent leaves of the perfect subtree, in ascending order. *)
Fixpoint leavesIn (l : leafset) (h : nat) (first : Z) : list Z :=
  match h with
  | O => if Leafset.contains l first then [first] else []
  | S h' => leavesIn l h' first ++ leavesIn l h' (first + pow2 h')
  end.

(** The subtree holds an unspent leaf. *)
Fixpoint hasLeaf (l : leafset) (h : nat) (first : Z) : bool :=
  match h with
  | O => Leafset.contains l first
  | S h' => hasLeaf l h' first || hasLeaf l h' (first + pow2 h')
  end.

(** The number of proof hashes a subtree needs: one for each maximal
    subtree without an unspent leaf. *)
Fixpoint needs (l : leafset) (h : nat) (first : Z) : nat :=
  match h with
  | O => if Leafset.contains l first then 0 else 1
  | S h' =>
      if hasLeaf l (S h') first
      then needs l h' first + needs l h' (first + pow2 h')
      else 1
  end.

(** The unspent leaves below [N], in ascending order. *)
Definition unspent (l : leafset) (N : Z) : list Z :=
  List.filter (Leafset.contains l) (seqZ 0 N).

(** The right-to-left fold of a list of peak hashes. *)
Fixpoint bagHashes (parent : Hash -> Hash -> Hash) (hs : list Hash) : Hash :=
  match hs with
  | [] => zeroHash
  | [h] => h
  | h :: rest => parent h (bagHashes parent rest)
  end.

Section Prover.

Variable blake3 : list Z -> Hash.
(** The output id of every leaf. *)
Variable ids : Z -> Hash.
Variable l : leafset.

(** The hash of a node of the MMR (section 4.1): leaves hash their
  output id, inner nodes their two children. *)
Fixpoint treeHash (h : nat) (first : Z) : Hash :=
match h with
| O => node_hash blake3 (subtreeRoot first 0) (ids first)
| S h' =>
    parentHash blake3 (subtreeRoot first h)
      (treeHash h' first) (treeHash h' (first + pow2 h'))
end.

Definition peakHash (p : Z * nat) : Hash := treeHash (snd p) (fst p).

(** The bagged root of the MMR of [N] leaves. *)
Definition mmrRoot (N : Z) : Hash :=
bagHashes (parentHash blake3 (mmrSize N)) (map peakHash (mmrPeaks 63 N 0)).

(** The proof of the unspent leaves of a subtree: the hashes of its
  maximal subtrees without an unspent leaf, from left to right. *)
Fixpoint subProof (h : nat) (first : Z) : list Hash :=
match h with
| O => if Leafset.contains l first then [] else [treeHash 0 first]
| S h' =>
    if hasLeaf l (S h') first
    then subProof h' first ++ subProof h' (first + pow2 h')
    else [treeHash (S h') first]
end.

(** The proof of a batch that ends at leaf [last]: the proofs of the
  peaks up to the one that holds [last], then the bagged hash of the
  peaks to its right, if there are any. *)
Fixpoint peaksProof (N last : Z) (peaks : list (Z * nat)) : list Hash :=
match peaks with
| [] => []
| p :: rest =>
    subProof (snd p) (fst p) ++
    (if last <? fst p + pow2 (snd p)
     then match rest with
          | [] => []
          | _ => [bagHashes (parentHash blake3 (mmrSize N)) (map peakHash rest)]
          end
     else peaksProof N last rest)
end.

(** The header and the batch of the honest prover: every unspent leaf,
  from the first one on. *)
Definition honestHeader (N : Z) (leafsetRoot : Hash) : MwebHeader :=
{| OutputRoot := mmrRoot N; OutputMMRSize := N; LeafsetRoot := leafsetRoot |}.

Definition honestBatch (N : Z) (blockHash : Hash) (format : Z) : MsgMwebUtxos :=
{| BlockHash := blockHash;
   StartIndex := hd 0 (unspent l N);
   OutputFormat := format;
   Utxos := map (fun i => mkUtxo i (ids i)) (unspent l N);
   ProofHashes := peaksProof N (List.last (unspent l N) 0) (mmrPeaks 63 N 0) |}.

End Prover.

(** *** What the verifier recomputes from a batch *)

Section Recompute.

Variable blake3 : list Z -> Hash.
Variable l : leafset.
Variable m : MsgMwebUtxos.

Definition outputIdAt (i : nat) : Hash :=
nth i (map OutputId (Utxos m)) [].

Definition proofHashAt (j : nat) : Hash := nth j (ProofHashes m) [].

(** The hash of a subtree as recomputed from the utxos from cursor [lu]
  on and the proof hashes from cursor [hu] on. *)
Fixpoint rebuildAt (h : nat) (first : Z) (lu hu : nat) : Hash :=
match h with
| O =>
    if Leafset.contains l first
    then node_hash blake3 (subtreeRoot first 0) (outputIdAt lu)
    else proofHashAt hu
| S h' =>
    if hasLeaf l (S h') first
    then parentHash blake3 (subtreeRoot first h)
           (rebuildAt h' first lu hu)
           (rebuildAt h' (first + pow2 h')
              (lu + length (leavesIn l h' first)) (hu + needs l h' first))
    else proofHashAt hu
end.

(** The peak hashes as recomputed by a walk that ends at the peak of
  [last]. *)
Fixpoint rebuildPeaks (last : Z) (peaks : list (Z * nat)) (lu hu : nat)
  : list Hash :=
match peaks with
| [] => []
| p :: rest =>
    rebuildAt (snd p) (fst p) lu hu ::
    (if last <? fst p + pow2 (snd p)
     then match rest with
          | [] => []
          | _ => [proofHashAt (hu + needs l (snd p) (fst p))]
          end
     else rebuildPeaks last rest
            (lu + length (leavesIn l (snd p) (fst p)))
            (hu + needs l (snd p) (fst p)))
end.

End Recompute.

(** *** Single-bit corruptions *)

(** Bit [k] of a byte string flipped; bit 0 is the top bit of the first
    byte, as in the leafset. *)
Definition flipBit (k : Z) (bytes : list Z) : list Z :=
  alter (fun b => Z.lxor b (Z.shiftr 128 (k mod 8))) (Z.to_nat (k / 8)) bytes.

Definition withProofHashes (m : MsgMwebUtxos) (hs : list Hash) : MsgMwebUtxos :=
  {| BlockHash := BlockHash m; StartIndex := StartIndex m;
     OutputFormat := OutputFormat m; Utxos := Utxos m; ProofHashes := hs |}.

Definition withUtxos (m : MsgMwebUtxos) (us : list MwebNetUtxo) : MsgMwebUtxos :=
  {| BlockHash := BlockHash m; StartIndex := StartIndex m;
     OutputFormat := OutputFormat m; Utxos := us; ProofHashes := ProofHashes m |}.

(** Bit [k] of proof hash [j] flipped. *)
Definition flipProofHash (j : nat) (k : Z) (m : MsgMwebUtxos) : MsgMwebUtxos :=
  withProofHashes m (alter (flipBit k) j (ProofHashes m)).

(** Bit [k] of the output id of utxo [j] flipped. *)
Definition flipOutputId (j : nat) (k : Z) (m : MsgMwebUtxos) : MsgMwebUtxos :=
  withUtxos m
    (alter (fun u => mkUtxo (LeafIndex u) (flipBit k (OutputId u))) j (Utxos m)).

(** *** The marks of the first pass *)

(** Every mark is on the root of a subtree without unspent leaf, or on
    the node after the last one. *)
Definition marksSound (l : leafset) (N : Z) (v : verifyMwebUtxosVars) : Prop :=
  forall x, is_proof v x = true ->
    x = mmrSize N \/
    exists first h, validSubtree N first h /\ hasLeaf l h first = false /\
                    x = subtreeRoot first h.

(** Every mark is below node [bound]. *)
Definition marksBelow (v : verifyMwebUtxosVars) (bound : Z) : Prop :=
  forall x, is_proof v x = true -> x < bound.

(** Below a subtree with unspent leaves, the root of every maximal
    subtree without one is marked. *)
Fixpoint marksDone (l : leafset) (v : verifyMwebUtxosVars) (h : nat)
    (first : Z) : Prop :=
  match h with
  | O => True
  | S h' =>
      (if hasLeaf l h' first then marksDone l v h' first
       else is_proof v (subtreeRoot first h') = true) /\
      (if hasLeaf l h' (first + pow2 h') then marksDone l v h' (first + pow2 h')
       else is_proof v (subtreeRoot (first + pow2 h') h') = true)
  end.

(** The peaks from leaf [first] up to leaf count [N], each lower than
    [k] and lower than the one before. *)
Fixpoint peaksChain (N first : Z) (k : nat) (peaks : list (Z * nat)) : Prop :=
  match peaks with
  | [] => first = N
  | p :: rest =>
      fst p = first /\ (snd p < k)%nat /\ 0 <= first /\
      first mod pow2 (S (snd p)) = 0 /\ first + pow2 (snd p) <= N /\
      peaksChain N (first + pow2 (snd p)) (snd p) rest
  end.

(** *** Notions of the walk over a batch *)

(** The number of unspent leaves below [x]. *)
Definition before (l : leafset) (x : Z) : nat := length (unspent l x).

(** The state of a walk over batch [m] with range [first..last]. *)
Definition walkState (l : leafset) (m : MsgMwebUtxos) (first last : Z)
    (v : verifyMwebUtxosVars) : Prop :=
  mwebUtxos v = m /\ vleafset v = l /\
  firstLeafIdx v = first /\ lastLeafIdx v = last.

(** The two states have the same marks. *)
Definition marks_eq (v v' : verifyMwebUtxosVars) : Prop :=
  forall x, is_proof v' x = is_proof v x.

(** The number of proof hashes of a walk that ends at the peak of
    [last]. *)
Fixpoint peaksNeeds (l : leafset) (last : Z) (peaks : list (Z * nat)) : nat :=
  match peaks with
  | [] => 0
  | p :: rest =>
      needs l (snd p) (fst p) +
      (if last <? fst p + pow2 (snd p)
       then match rest with [] => 0 | _ => 1 end
       else peaksNeeds l last rest)
  end.

(** The marks the first pass leaves on the peaks up to the one of
    [last]. *)
Fixpoint peaksDone (l : leafset) (last : Z) (v : verifyMwebUtxosVars)
    (peaks : list (Z * nat)) : Prop :=
  match peaks with
  | [] => True
  | p :: rest =>
      (if hasLeaf l (snd p) (fst p) then marksDone l v (snd p) (fst p)
       else is_proof v (rootOf p) = true) /\
      (if last <? fst p + pow2 (snd p) then True else peaksDone l last v rest)
  end.

(** *** Notions of the further properties *)

(** Two different inputs with the same digest. *)
Definition collision (blake3 : list Z -> Hash) : Prop :=
  exists x y, x <> y /\ blake3 x = blake3 y.

(** The number of utxos of a walk that ends at the peak of [last]. *)
Fixpoint peaksLeaves (l : leafset) (last : Z) (peaks : list (Z * nat)) : nat :=
  match peaks with
  | [] => 0
  | p :: rest =>
      length (leavesIn l (snd p) (fst p)) +
      (if last <? fst p + pow2 (snd p) then 0 else peaksLeaves l last rest)
  end.

(** A batch of the full shape for a leafset below [N] leaves: it lists
    every unspent leaf, starts at the first and carries as many proof
    hashes as the walk to the peak of the last one needs. *)
Definition fullBatch (l : leafset) (N : Z) (m : MsgMwebUtxos) : Prop :=
  (forall i, 0 <= i -> Leafset.contains l i = true -> i < N) /\
  unspent l N <> [] /\
  map LeafIndex (Utxos m) = unspent l N /\
  StartIndex m = hd 0 (unspent l N) /\
  length (ProofHashes m) =
    peaksNeeds l (List.last (unspent l N) 0) (mmrPeaks 63 N 0).

(** Leaf [i] is new: set in the new leafset and not in the old one. *)
Definition isAdded (old new : leafset) (i : Z) : bool :=
  negb (Leafset.contains old i) && Leafset.contains new i.

(** Leaf [i] is spent: set in the old leafset and not in the new one. *)
Definition isRemoved (old new : leafset) (i : Z) : bool :=
  Leafset.contains old i && negb (Leafset.contains new i).

(** [chunks A spans]: the spans cut the list [A] into consecutive
    non-empty pieces; each span starts at the first leaf of its piece
    and counts its leaves. *)
Fixpoint chunks (A : list Z) (spans : list span) : Prop :=
  match spans with
  | [] => A = []
  | sp :: rest =>
      0 < count sp /\ head A = Some (start sp) /\
      count sp <= Z.of_nat (length A) /\
      chunks (drop (Z.to_nat (count sp)) A) rest
  end.

(** The spans of a differ state, the pending one last. *)
Definition plannedSpans (st : diffState) : list span :=
  addedLeaves st ++ (if 0 <? count (addLeaf st) then [addLeaf st] else []).

(** * Properties *)


(** ** Bit counting *)

Lemma popcount_pos p : 0 < popcount p.
Proof. induction p; simpl; lia. Qed.

Lemma OnesCount64_double x : 0 <= x -> OnesCount64 (2 * x) = OnesCount64 x.
Proof. destruct x; simpl; try lia; reflexivity. Qed.

Lemma OnesCount64_succ_double x :
  0 <= x -> OnesCount64 (2 * x + 1) = OnesCount64 x + 1.
Proof. destruct x; simpl; try lia; reflexivity. Qed.

Lemma OnesCount64_nonneg x : 0 <= OnesCount64 x.
Proof. destruct x; simpl; try lia. pose proof (popcount_pos p). lia. Qed.

Lemma OnesCount64_le x : 0 <= x -> OnesCount64 x <= x.
Proof.
  destruct x; simpl; try lia. intros _.
  induction p; simpl; lia.
Qed.

Lemma OnesCount64_top (k : nat) j :
  0 <= j < 2 ^ Z.of_nat k -> OnesCount64 (2 ^ Z.of_nat k + j) = 1 + OnesCount64 j.
Proof.
  revert j. induction k as [|k IH]; intros j Hj.
  - simpl in Hj. assert (j = 0) by lia. subst. reflexivity.
  - rewrite Nat2Z.inj_succ, Z.pow_succ_r in * by lia.
    destruct (Z.even j) eqn:He.
    + apply Z.even_spec in He. destruct He as [j' ->].
      replace (2 * 2 ^ Z.of_nat k + 2 * j') with (2 * (2 ^ Z.of_nat k + j')) by lia.
      rewrite !OnesCount64_double by lia. apply IH. lia.
    + assert (Ho : Z.odd j = true) by (rewrite <- Z.negb_even, He; reflexivity).
      apply Z.odd_spec in Ho. destruct Ho as [j' ->].
      replace (2 * 2 ^ Z.of_nat k + (2 * j' + 1))
        with (2 * (2 ^ Z.of_nat k + j') + 1) by lia.
      rewrite !OnesCount64_succ_double by lia. rewrite IH by lia. lia.
Qed.


Lemma mmrSize_bounds i : 0 <= i -> i <= mmrSize i <= 2 * i.
Proof.
  intros Hi. unfold mmrSize.
  pose proof (OnesCount64_le i Hi). pose proof (OnesCount64_nonneg i). lia.
Qed.

Lemma mmrSize_top (k : nat) j :
  0 <= j < 2 ^ Z.of_nat k ->
  mmrSize (2 ^ Z.of_nat k + j) = 2 ^ (Z.of_nat k + 1) - 1 + mmrSize j.
Proof.
  intros Hj. unfold mmrSize. rewrite OnesCount64_top by assumption.
  rewrite Z.pow_add_r by lia. lia.
Qed.

Lemma nodeIdx_small i : 0 <= i < 2 ^ 63 -> LeafIdx.nodeIdx i = mmrSize i.
Proof.
  intros Hi. unfold LeafIdx.nodeIdx, u64, mmrSize.
  pose proof (OnesCount64_le i ltac:(lia)). pose proof (OnesCount64_nonneg i).
  rewrite (Z.mod_small (2 * i)) by lia.
  apply Z.mod_small. lia.
Qed.

(** ** The peak-size loop *)

Lemma peakLoop_zero {A} (body : Z -> A -> A) fuel st :
  peakLoop body fuel 0 st = st.
Proof. destruct fuel; reflexivity. Qed.

Lemma shiftr_peak (k : nat) :
  Z.shiftr (2 ^ Z.of_nat (S k) - 1) 1 = 2 ^ Z.of_nat k - 1.
Proof.
  rewrite Z.shiftr_div_pow2 by lia. rewrite Nat2Z.inj_succ, Z.pow_succ_r by lia.
  change (2 ^ 1) with 2.
  assert (0 < 2 ^ Z.of_nat k) by (apply Z.pow_pos_nonneg; lia).
  symmetry. apply Z.div_unique with (r := 1); lia.
Qed.

Lemma peakLoop_step {A} (body : Z -> A -> A) fuel (k : nat) st :
  peakLoop body (S fuel) (2 ^ Z.of_nat (S k) - 1) st =
  peakLoop body fuel (2 ^ Z.of_nat k - 1) (body (2 ^ Z.of_nat (S k) - 1) st).
Proof.
  cbn [peakLoop].
  assert (0 < 2 ^ Z.of_nat k) by (apply Z.pow_pos_nonneg; lia).
  assert (Hlt : (0 <? 2 ^ Z.of_nat (S k) - 1) = true).
  { apply Z.ltb_lt. rewrite Nat2Z.inj_succ, Z.pow_succ_r by lia. lia. }
  rewrite Hlt, shiftr_peak. reflexivity.
Qed.

(** The value of [uint64(1<<h - 1)] for [h = bits.Len64(x)]. *)
Lemma Len64_range x : 0 <= x < 2 ^ 64 -> 0 <= Len64 x <= 64.
Proof.
  intros Hx. unfold Len64. destruct (x =? 0) eqn:E; [lia|].
  apply Z.eqb_neq in E.
  pose proof (Z.log2_nonneg x).
  assert (Z.log2 x < 64) by (apply Z.log2_lt_pow2; lia). lia.
Qed.

Lemma Len64_spec x : 0 <= x -> x < 2 ^ Len64 x.
Proof.
  intros Hx. unfold Len64. destruct (x =? 0) eqn:E.
  - apply Z.eqb_eq in E. subst. reflexivity.
  - apply Z.eqb_neq in E.
    pose proof (Z.log2_spec x ltac:(lia)) as [_ H].
    replace (Z.log2 x + 1) with (Z.succ (Z.log2 x)) by lia. exact H.
Qed.

Lemma firstPeakSize_eq x :
  0 <= x < 2 ^ 64 -> firstPeakSize x = 2 ^ Len64 x - 1.
Proof.
  intros Hx. unfold firstPeakSize, LeadingZeros64.
  replace (64 - (64 - Len64 x)) with (Len64 x) by lia.
  pose proof (Len64_range x Hx) as Hr.
  rewrite Z.shiftl_1_l. unfold u64.
  destruct (Z.eq_dec (Len64 x) 64) as [E|E].
  - rewrite E. reflexivity.
  - assert (0 < 2 ^ Len64 x) by (apply Z.pow_pos_nonneg; lia).
    assert (2 ^ Len64 x < 2 ^ 64) by (apply Z.pow_lt_mono_r; lia).
    rewrite (Z.mod_small (2 ^ Len64 x)) by lia.
    apply Z.mod_small. lia.
Qed.

(** ** Leaf index round trip *)

Lemma leafIdx_loop (k : nat) : forall fuel j acc,
  (k <= fuel)%nat -> (k <= 64)%nat ->
  0 <= j < 2 ^ Z.of_nat k -> j < 2 ^ 63 ->
  0 <= acc -> acc + j < 2 ^ 64 ->
  peakLoop NodeIdx.leafIdx_body fuel (2 ^ Z.of_nat k - 1) (acc, mmrSize j) =
  (acc + j, 0).
Proof.
  induction k as [|k IH]; intros fuel j acc Hf Hk Hj Hj63 Hacc Hsum.
  - simpl in Hj. assert (j = 0) by lia. subst j.
    change (2 ^ Z.of_nat 0 - 1) with 0. rewrite peakLoop_zero.
    rewrite Z.add_0_r. reflexivity.
  - destruct fuel as [|fuel]; [lia|].
    rewrite peakLoop_step.
    assert (Hpk : 0 < 2 ^ Z.of_nat k) by (apply Z.pow_pos_nonneg; lia).
    assert (Hpow : 2 ^ Z.of_nat (S k) = 2 * 2 ^ Z.of_nat k)
      by (rewrite Nat2Z.inj_succ, Z.pow_succ_r by lia; reflexivity).
    destruct (Z_lt_dec j (2 ^ Z.of_nat k)) as [Hlt|Hge].
    + pose proof (mmrSize_bounds j ltac:(lia)).
      unfold NodeIdx.leafIdx_body at 2.
      replace (2 ^ Z.of_nat (S k) - 1 <=? mmrSize j) with false
        by (symmetry; apply Z.leb_gt; lia).
      apply IH; lia.
    + set (j' := j - 2 ^ Z.of_nat k).
      assert (Hj' : 0 <= j' < 2 ^ Z.of_nat k) by (unfold j'; lia).
      assert (Ek : (k < 63)%nat).
      { destruct (le_lt_dec 63 k) as [H63|]; [|assumption].
        assert (2 ^ 63 <= 2 ^ Z.of_nat k) by (apply Z.pow_le_mono_r; lia). lia. }
      assert (Hk64 : 2 ^ Z.of_nat (S k) <= 2 ^ 63)
        by (apply Z.pow_le_mono_r; lia).
      replace j with (2 ^ Z.of_nat k + j') by (unfold j'; lia).
      rewrite mmrSize_top by assumption.
      replace (2 ^ (Z.of_nat k + 1)) with (2 ^ Z.of_nat (S k))
        by (rewrite Nat2Z.inj_succ; reflexivity).
      pose proof (mmrSize_bounds j' ltac:(lia)).
      unfold NodeIdx.leafIdx_body at 2.
      replace (2 ^ Z.of_nat (S k) - 1 <=? 2 ^ Z.of_nat (S k) - 1 + mmrSize j')
        with true by (symmetry; apply Z.leb_le; lia).
      replace (2 ^ Z.of_nat (S k) - 1 + 1) with (2 * 2 ^ Z.of_nat k) by lia.
      unfold u64.
      rewrite (Z.mod_small (2 * 2 ^ Z.of_nat k)) by lia.
      replace (2 * 2 ^ Z.of_nat k / 2) with (2 ^ Z.of_nat k)
        by (apply Z.div_unique with (r := 0); lia).
      rewrite (Z.mod_small (acc + 2 ^ Z.of_nat k)) by (unfold j' in *; lia).
      replace (2 ^ Z.of_nat (S k) - 1 + mmrSize j' - (2 ^ Z.of_nat (S k) - 1))
        with (mmrSize j') by lia.
      rewrite (Z.mod_small (mmrSize j')) by lia.
      rewrite IH by (unfold j' in *; lia). f_equal. lia.
Qed.

Lemma height_loop (k : nat) : forall fuel j,
  (k <= fuel)%nat -> (k <= 64)%nat ->
  0 <= j < 2 ^ Z.of_nat k -> j < 2 ^ 63 ->
  peakLoop NodeIdx.height_body fuel (2 ^ Z.of_nat k - 1) (mmrSize j) = 0.
Proof.
  induction k as [|k IH]; intros fuel j Hf Hk Hj Hj63.
  - simpl in Hj. assert (j = 0) by lia. subst j.
    change (2 ^ Z.of_nat 0 - 1) with 0. rewrite peakLoop_zero. reflexivity.
  - destruct fuel as [|fuel]; [lia|].
    rewrite peakLoop_step.
    assert (Hpk : 0 < 2 ^ Z.of_nat k) by (apply Z.pow_pos_nonneg; lia).
    assert (Hpow : 2 ^ Z.of_nat (S k) = 2 * 2 ^ Z.of_nat k)
      by (rewrite Nat2Z.inj_succ, Z.pow_succ_r by lia; reflexivity).
    destruct (Z_lt_dec j (2 ^ Z.of_nat k)) as [Hlt|Hge].
    + pose proof (mmrSize_bounds j ltac:(lia)).
      unfold NodeIdx.height_body at 2.
      replace (2 ^ Z.of_nat (S k) - 1 <=? mmrSize j) with false
        by (symmetry; apply Z.leb_gt; lia).
      apply IH; lia.
    + set (j' := j - 2 ^ Z.of_nat k).
      assert (Hj' : 0 <= j' < 2 ^ Z.of_nat k) by (unfold j'; lia).
      replace j with (2 ^ Z.of_nat k + j') by (unfold j'; lia).
      rewrite mmrSize_top by assumption.
      replace (2 ^ (Z.of_nat k + 1)) with (2 ^ Z.of_nat (S k))
        by (rewrite Nat2Z.inj_succ; reflexivity).
      pose proof (mmrSize_bounds j' ltac:(lia)).
      unfold NodeIdx.height_body at 2.
      replace (2 ^ Z.of_nat (S k) - 1 <=? 2 ^ Z.of_nat (S k) - 1 + mmrSize j')
        with true by (symmetry; apply Z.leb_le; lia).
      replace (2 ^ Z.of_nat (S k) - 1 + mmrSize j' - (2 ^ Z.of_nat (S k) - 1))
        with (mmrSize j') by lia.
      unfold u64. rewrite (Z.mod_small (mmrSize j')) by (unfold j' in *; lia).
      apply IH; unfold j' in *; lia.
Qed.

Lemma Len64_nat x : 0 <= x < 2 ^ 64 ->
  exists k : nat, Len64 x = Z.of_nat k /\ (k <= 64)%nat.
Proof.
  intros Hx. pose proof (Len64_range x Hx).
  exists (Z.to_nat (Len64 x)). split; lia.
Qed.

Lemma mmrSize_lt_64 i : 0 <= i < 2 ^ 63 -> 0 <= mmrSize i < 2 ^ 64.
Proof. intros Hi. pose proof (mmrSize_bounds i ltac:(lia)). lia. Qed.

Lemma leafIdx_nodeIdx i :
  0 <= i < 2 ^ 63 -> NodeIdx.leafIdx (LeafIdx.nodeIdx i) = i.
Proof.
  intros Hi. rewrite nodeIdx_small by assumption.
  pose proof (mmrSize_lt_64 i Hi) as Hm.
  unfold NodeIdx.leafIdx. rewrite firstPeakSize_eq by assumption.
  destruct (Len64_nat _ Hm) as (k & Ek & Hk). rewrite Ek.
  pose proof (Len64_spec (mmrSize i) ltac:(lia)) as Hs. rewrite Ek in Hs.
  pose proof (mmrSize_bounds i ltac:(lia)).
  rewrite leafIdx_loop by lia. reflexivity.
Qed.

Lemma height_nodeIdx i :
  0 <= i < 2 ^ 63 -> NodeIdx.height (LeafIdx.nodeIdx i) = 0.
Proof.
  intros Hi. rewrite nodeIdx_small by assumption.
  pose proof (mmrSize_lt_64 i Hi) as Hm.
  unfold NodeIdx.height. rewrite firstPeakSize_eq by assumption.
  destruct (Len64_nat _ Hm) as (k & Ek & Hk). rewrite Ek.
  pose proof (Len64_spec (mmrSize i) ltac:(lia)) as Hs. rewrite Ek in Hs.
  pose proof (mmrSize_bounds i ltac:(lia)).
  apply height_loop; lia.
Qed.

(** ** Leafset scanning *)

Lemma contains_in_range l i :
  0 <= i -> Leafset.contains l i = true -> i / 8 < Z.of_nat (length l).
Proof.
  unfold Leafset.contains. intros Hi.
  destruct (Z.of_nat (length l) <=? i / 8) eqn:E; [discriminate|].
  intros _. apply Z.leb_gt in E. exact E.
Qed.


Lemma u64_add_l a b : u64 (u64 a + b) = u64 (a + b).
Proof. unfold u64. apply Zplus_mod_idemp_l. Qed.

Lemma u64_range x : 0 <= u64 x < 2 ^ 64.
Proof. unfold u64. apply Z.mod_pos_bound. lia. Qed.

Lemma u64_small x : 0 <= x < 2 ^ 64 -> u64 x = x.
Proof. apply Z.mod_small. Qed.

Lemma nextUnspent_loop_stops l : forall fuel i d,
  0 <= d < Z.of_nat fuel -> stops l (u64 (i + 1 + d)) = true ->
  exists j, Leafset.nextUnspent_loop fuel l i = Some j /\ stops l j = true.
Proof.
  induction fuel as [|fuel IH]; intros i d Hd Hs; [lia|].
  cbn [Leafset.nextUnspent_loop]. fold (stops l (u64 (i + 1))).
  destruct (stops l (u64 (i + 1))) eqn:E; [eauto|].
  destruct (Z.eq_dec d 0) as [->|Hne].
  { rewrite Z.add_0_r in Hs. congruence. }
  apply (IH (u64 (i + 1)) (d - 1)); [lia|].
  replace (u64 (i + 1) + 1 + (d - 1)) with (u64 (i + 1) + d) by lia.
  rewrite u64_add_l. exact Hs.
Qed.

(** From an index of the bitmap the scan always returns. *)
Lemma nextUnspent_total l i :
  0 <= i < 2 ^ 64 -> Leafset.contains l i = true ->
  exists j, Leafset.nextUnspent l i = Some j /\ 0 <= j < 2 ^ 64.
Proof.
  intros Hi Hc. pose proof (contains_in_range l i ltac:(lia) Hc) as Hr.
  assert (Hi8 : i < 8 * Z.of_nat (length l)).
  { pose proof (Z.mul_div_le i 8 ltac:(lia)). pose proof (Z.mod_pos_bound i 8 ltac:(lia)).
    pose proof (Z.div_mod i 8 ltac:(lia)). lia. }
  unfold Leafset.nextUnspent.
  assert (Hex : exists d, 0 <= d < Z.of_nat (8 * length l + 2) /\
                          stops l (u64 (i + 1 + d)) = true).
  { destruct (Z_lt_dec (8 * Z.of_nat (length l)) (2 ^ 64)) as [Hsmall|Hbig].
    - exists (8 * Z.of_nat (length l) - i - 1). split; [lia|].
      replace (i + 1 + (8 * Z.of_nat (length l) - i - 1))
        with (8 * Z.of_nat (length l)) by lia.
      rewrite u64_small by lia. unfold stops.
      replace (8 * Z.of_nat (length l) / 8) with (Z.of_nat (length l))
        by (apply Z.div_unique with (r := 0); lia).
      rewrite Z.leb_refl. apply orb_true_r.
    - exists (2 ^ 64 - 1). split; [lia|].
      replace (i + 1 + (2 ^ 64 - 1)) with (i + 1 * 2 ^ 64) by lia.
      unfold u64. rewrite Z.mod_add by lia. rewrite Z.mod_small by lia.
      unfold stops. rewrite Hc. reflexivity. }
  destruct Hex as (d & Hd & Hs).
  destruct (nextUnspent_loop_stops l _ i d Hd Hs) as (j & Hj & _).
  exists j. split; [exact Hj|].
  clear -Hj. revert i Hj. generalize (8 * length l + 2)%nat.
  induction n as [|n IH]; intros i Hj; [discriminate|].
  cbn [Leafset.nextUnspent_loop] in Hj.
  destruct (_ || _) in Hj.
  - injection Hj as <-. apply u64_range.
  - eauto.
Qed.

(** What the scan returns: the first later index that is set or off the
    bitmap, when the index does not wrap. *)
Lemma nextUnspent_loop_spec l : forall fuel i j,
  0 <= i -> 8 * Z.of_nat (length l) < 2 ^ 64 -> i < 8 * Z.of_nat (length l) ->
  Leafset.nextUnspent_loop fuel l i = Some j ->
  i < j /\ stops l j = true /\
  forall k, i < k < j -> Leafset.contains l k = false.
Proof.
  induction fuel as [|fuel IH]; intros i j Hi Hlen Hlt Hj; [discriminate|].
  cbn [Leafset.nextUnspent_loop] in Hj. fold (stops l (u64 (i + 1))) in Hj.
  assert (Hu : u64 (i + 1) = i + 1).
  { destruct (Z.eq_dec (i + 1) (2 ^ 64)) as [E|E]; [|apply u64_small; lia].
    exfalso. lia. }
  rewrite Hu in Hj.
  destruct (stops l (i + 1)) eqn:E.
  - injection Hj as <-. split; [lia|]. split; [exact E|]. intros k Hk. lia.
  - unfold stops in E. apply orb_false_iff in E as [Ec Er].
    apply Z.leb_gt in Er.
    assert (i + 1 < 8 * Z.of_nat (length l)).
    { pose proof (Z.div_mod (i + 1) 8 ltac:(lia)).
      pose proof (Z.mod_pos_bound (i + 1) 8 ltac:(lia)). lia. }
    destruct (IH (i + 1) j ltac:(lia) Hlen H Hj) as (H1 & H2 & H3).
    split; [lia|]. split; [exact H2|].
    intros k Hk. destruct (Z.eq_dec k (i + 1)) as [->|]; [exact Ec|].
    apply H3. lia.
Qed.

(** ** The leaf-range walk *)

Arguments Leafset.nextUnspent : simpl never.
Arguments Leafset.contains : simpl never.


Lemma leafWalk_chain l utxos : forall fuel i last res,
  (fuel + i = length utxos)%nat ->
  leafWalk l utxos fuel i last = Some (Some res) ->
  unspentChain l last (map LeafIndex (drop i utxos)) res.
Proof.
  induction fuel as [|fuel IH]; intros i last res Hf Hw; [discriminate|].
  cbn [leafWalk] in Hw.
  destruct (Leafset.contains l last) eqn:Hc; cbn in Hw; [|discriminate].
  destruct (utxos !! i) as [u|] eqn:Hu; [|discriminate].
  destruct (LeafIndex u =? last) eqn:He; cbn in Hw. 2: discriminate Hw.
  apply Z.eqb_eq in He.
  rewrite (drop_S _ _ _ Hu). cbn [map]. rewrite He.
  destruct (decide (Z.of_nat i = Z.of_nat (length utxos) - 1)) as [Hi|Hi].
  - injection Hw as <-.
    rewrite drop_ge by lia. cbn. constructor. exact Hc.
  - destruct (Leafset.nextUnspent l last) as [n|] eqn:Hn; [|discriminate].
    eapply chain_next; eauto. apply IH; [lia|exact Hw].
Qed.

Lemma leafWalk_total l utxos : forall fuel i last,
  (fuel + i = length utxos)%nat -> (0 < fuel)%nat -> 0 <= last < 2 ^ 64 ->
  exists r, leafWalk l utxos fuel i last = Some r.
Proof.
  induction fuel as [|fuel IH]; intros i last Hf Hpos Hl; [lia|].
  cbn [leafWalk].
  destruct (Leafset.contains l last) eqn:Hc; cbn; [|eauto].
  destruct (lookup_lt_is_Some_2 utxos i ltac:(lia)) as [u Hu]. rewrite Hu.
  destruct (LeafIndex u =? last); cbn; [|eauto].
  destruct (decide (Z.of_nat i = Z.of_nat (length utxos) - 1)) as [Hi|Hi]; [eauto|].
  destruct (nextUnspent_total l last Hl Hc) as (n & Hn & Hr). rewrite Hn.
  apply IH; [lia|lia|exact Hr].
Qed.

Lemma unspentChain_head l a idxs b :
  unspentChain l a idxs b -> head idxs = Some a.
Proof. destruct 1; reflexivity. Qed.

Lemma unspentChain_contains l a idxs b :
  unspentChain l a idxs b -> Forall (fun i => Leafset.contains l i = true) idxs.
Proof. induction 1; constructor; auto. Qed.

Lemma unspentChain_last l a idxs b :
  unspentChain l a idxs b -> last idxs = Some b.
Proof.
  induction 1; [reflexivity|].
  destruct rest; [inversion H1|]. exact IHunspentChain.
Qed.

Lemma unspentChain_next l a idxs b :
  unspentChain l a idxs b ->
  forall k x y, idxs !! k = Some x -> idxs !! S k = Some y ->
                Leafset.nextUnspent l x = Some y.
Proof.
  induction 1; intros k x y Hx Hy.
  - destruct k; discriminate.
  - destruct k as [|k].
    + cbn in Hx, Hy. injection Hx as <-.
      apply unspentChain_head in H1. destruct rest; [discriminate|].
      cbn in H1, Hy. congruence.
    + cbn in Hx, Hy. eauto.
Qed.

Lemma contains_lt l i :
  0 <= i -> Leafset.contains l i = true -> i < 8 * Z.of_nat (length l).
Proof.
  intros Hi Hc. pose proof (contains_in_range l i Hi Hc).
  pose proof (Z.div_mod i 8 ltac:(lia)).
  pose proof (Z.mod_pos_bound i 8 ltac:(lia)). lia.
Qed.

(** Without wrap-around a chain is strictly ascending and lists exactly
    the set indices between its ends. *)
Lemma unspentChain_covers l a idxs b :
  8 * Z.of_nat (length l) < 2 ^ 64 -> 0 <= a ->
  unspentChain l a idxs b ->
  a <= b /\
  (forall k x y, idxs !! k = Some x -> idxs !! S k = Some y -> x < y) /\
  (forall j, a <= j <= b -> (Leafset.contains l j = true <-> In j idxs)).
Proof.
  intros Hlen Ha Hch. induction Hch as [a Hc|a n rest b Hc Hn Hch IH].
  - split; [lia|]. split.
    + intros k x y Hx Hy. destruct k; discriminate.
    + intros j Hj. assert (j = a) by lia. subst. cbn. tauto.
  - pose proof (contains_lt l a Ha Hc) as Hlt.
    destruct (nextUnspent_loop_spec l _ a n Ha Hlen Hlt Hn) as (Han & Hs & Hgap).
    destruct (IH ltac:(lia)) as (Hnb & Hasc & Hcov).
    split; [lia|]. split.
    + intros k x y Hx Hy. destruct k as [|k].
      * cbn in Hx, Hy. injection Hx as <-.
        apply unspentChain_head in Hch. destruct rest; [discriminate|].
        cbn in Hch, Hy. congruence.
      * cbn in Hx, Hy. eauto.
    + intros j Hj. cbn [In].
      destruct (Z.eq_dec j a) as [->|Hne]; [tauto|].
      destruct (Z_lt_dec j n) as [Hjn|Hjn].
      * rewrite (Hgap j) by lia. split; [discriminate|].
        intros [E|Hin]; [congruence|].
        exfalso.
        assert (Hall : forall x, In x rest -> n <= x).
        { clear -Hch Hlen Han Ha.
          assert (Hn0 : 0 <= n) by lia. clear Han Ha.
          induction Hch as [c Hc|c m r d Hc Hm Hch IH]; intros x Hx.
          - destruct Hx as [<-|[]]. lia.
          - destruct Hx as [<-|Hx]; [lia|].
            pose proof (contains_lt l c Hn0 Hc) as Hlt.
            destruct (nextUnspent_loop_spec l _ c m Hn0 Hlen Hlt Hm) as (Hcm & _).
            specialize (IH ltac:(lia) x Hx). lia. }
        specialize (Hall j Hin). lia.
      * rewrite (Hcov j) by lia. split; [auto|]. intros [E|Hin]; [congruence|auto].
Qed.

Lemma frame_refl v : frame v v.
Proof. repeat split. Qed.

Lemma frame_trans v1 v2 v3 : frame v1 v2 -> frame v2 v3 -> frame v1 v3.
Proof. unfold frame. intuition congruence. Qed.

(** ** The verifier never leaves its slices *)


Lemma runs_ret {A} (a : A) : runs (ret a).
Proof. intros v Hv. exists a, v. auto using frame_refl. Qed.

Lemma runs_bind {A B} (m : M A) (k : A -> M B) :
  runs m -> (forall a, runs (k a)) -> runs (bind m k).
Proof.
  intros Hm Hk v Hv. unfold bind.
  destruct (Hm v Hv) as (a & v1 & -> & Hv1 & Hf1).
  destruct (Hk a v1 Hv1) as (b & v2 & -> & Hv2 & Hf2).
  exists b, v2. eauto using frame_trans.
Qed.

Lemma run_bind {A B} (m : M A) (k : A -> M B) v b v' :
  bind m k v = Some (b, v') ->
  exists a v1, m v = Some (a, v1) /\ k a v1 = Some (b, v').
Proof.
  unfold bind. destruct (m v) as [[a v1]|]; [eauto|discriminate].
Qed.

Lemma runs_get_bind {B} (k : verifyMwebUtxosVars -> M B) :
  (forall v, runs (k v)) -> runs (bind get k).
Proof. intros Hk v Hv. unfold bind, get. apply Hk, Hv. Qed.

Lemma runs_nextLeaf : runs nextLeaf.
Proof.
  intros v [Hl Hh]. unfold nextLeaf.
  destruct (decide _) as [E|E].
  - eexists _, v. split; [reflexivity|]. split; [split; assumption|apply frame_refl].
  - destruct (lookup_lt_is_Some_2 (Utxos (mwebUtxos v)) (leavesUsed v) ltac:(lia))
      as [u ->].
    eexists _, _. split; [reflexivity|].
    split; [split; cbn; lia|repeat split].
Qed.

Lemma runs_nextHash n : runs (nextHash n).
Proof.
  intros v [Hl Hh]. unfold nextHash.
  destruct (decide _) as [E|E].
  - eexists _, v. split; [reflexivity|]. split; [split; assumption|apply frame_refl].
  - destruct (lookup_lt_is_Some_2 (ProofHashes (mwebUtxos v)) (hashesUsed v) ltac:(lia))
      as [u ->].
    eexists _, _. split; [reflexivity|].
    split; [split; cbn; lia|repeat split].
Qed.

Section Totality.

Variable blake3 : list Z -> Hash.

Lemma runs_calcLeafHash n : runs (calcLeafHash blake3 n).
Proof.
  unfold calcLeafHash. apply runs_get_bind. intros v.
  destruct (negb _); [apply runs_ret|].
  apply runs_bind; [apply runs_nextLeaf|]. intros [i [o|]]; cbn;
    [destruct (negb _)|]; apply runs_ret.
Qed.

Lemma runs_joinChildren n l r left right :
  runs (joinChildren blake3 n l r left right).
Proof.
  unfold joinChildren.
  destruct left, right; try apply runs_ret;
    (apply runs_bind; [apply runs_nextHash|]);
    intros [?|]; apply runs_ret.
Qed.

Lemma runs_calcNodeHash height : forall n, runs (calcNodeHash blake3 n height).
Proof.
  induction height as [|h IH]; intros n; cbn [calcNodeHash];
    apply runs_get_bind; intros v.
  - destruct (_ || _); [apply runs_nextHash|apply runs_calcLeafHash].
  - destruct (_ || _); [apply runs_nextHash|].
    apply runs_bind; [apply IH|]. intros left.
    apply runs_bind; [destruct (_ <=? _); [apply runs_nextHash|apply IH]|].
    intros right. apply runs_joinChildren.
Qed.

Lemma runs_peakHashOf p : runs (peakHashOf blake3 p).
Proof.
  unfold peakHashOf. apply runs_bind; [apply runs_calcNodeHash|].
  intros [h|]; [apply runs_ret|apply runs_nextHash].
Qed.

Lemma runs_bagRest nextNodeIdx peaks p acc :
  peaks <> [] -> runs (bagRest nextNodeIdx peaks p acc).
Proof.
  intros Hne. unfold bagRest.
  assert (Hidx : is_Some (index peaks (Z.of_nat (length peaks) - 1))).
  { unfold index. destruct peaks; [congruence|].
    cbn [length]. destruct (_ <? 0) eqn:E; [apply Z.ltb_lt in E; lia|].
    apply lookup_lt_is_Some_2. cbn [length]. lia. }
  destruct Hidx as [lp ->].
  destruct (negb _); [|apply runs_ret].
  apply runs_bind; [apply runs_nextHash|]. intros [?|]; apply runs_ret.
Qed.

Lemma runs_peakWalk nextNodeIdx peaks : forall rest acc,
  (rest = [] \/ peaks <> []) ->
  runs (peakWalk blake3 nextNodeIdx peaks rest acc).
Proof.
  induction rest as [|p rest IH]; intros acc Hne; cbn [peakWalk].
  - apply runs_ret.
  - destruct Hne as [|Hne]; [discriminate|].
    apply runs_bind; [apply runs_peakHashOf|].
    intros [ph|]; [|apply runs_ret].
    apply runs_get_bind. intros v.
    destruct (_ <=? _); [apply runs_bagRest; assumption|apply IH; auto].
Qed.

Lemma bagRest_nonempty nextNodeIdx peaks p acc v hs v' :
  bagRest nextNodeIdx peaks p acc v = Some (Some hs, v') ->
  (length acc <= length hs)%nat.
Proof.
  unfold bagRest. destruct (index peaks _); [|discriminate].
  destruct (negb _).
  - intros H. apply run_bind in H as ([b|] & v1 & _ & H); [|discriminate].
    injection H as <- <-. rewrite length_app. lia.
  - intros H. injection H as <- <-. lia.
Qed.

(** A walk that returns hashes after visiting a peak returns at least
    one. *)
Lemma peakWalk_nonempty nextNodeIdx peaks : forall rest acc v hs v',
  peakWalk blake3 nextNodeIdx peaks rest acc v = Some (Some hs, v') ->
  (length acc <= length hs)%nat /\ (rest <> [] -> hs <> []).
Proof.
  induction rest as [|p rest IH]; intros acc v hs v' H; cbn [peakWalk] in H.
  - injection H as <- <-. split; [lia|congruence].
  - apply run_bind in H as ([ph|] & v1 & _ & H); [|discriminate].
    apply run_bind in H as (v2 & v3 & _ & H).
    assert (Hlen : (length acc < length hs)%nat).
    { destruct (_ <=? _).
      - apply bagRest_nonempty in H. rewrite length_app in H. cbn in H. lia.
      - apply IH in H. rewrite length_app in H. cbn in H. lia. }
    split; [lia|]. intros _ ->. cbn in Hlen. lia.
Qed.

Lemma peakWalk_empty nextNodeIdx peaks acc v :
  peakWalk blake3 nextNodeIdx peaks [] acc v = Some (Some acc, v).
Proof. reflexivity. Qed.

Lemma cursors_ok_reset v : cursors_ok (set_cursors 0 0 v).
Proof. split; cbn; lia. Qed.

Lemma frame_reset v : frame v (set_cursors 0 0 v).
Proof. repeat split. Qed.

Lemma runs_onePass nextNodeIdx peaks : runs (onePass blake3 nextNodeIdx peaks).
Proof.
  intros v Hv. unfold onePass.
  destruct (runs_peakWalk nextNodeIdx peaks peaks []
              ltac:(destruct peaks; [left; reflexivity|right; discriminate])
              (set_cursors 0 0 v) (cursors_ok_reset v))
    as (r & v' & -> & Hv' & Hf).
  pose proof (frame_trans _ _ _ (frame_reset v) Hf) as Hf'.
  destruct r as [hs|]; [|eauto].
  destruct (_ || _); eauto.
Qed.

(** A pass that survives over a message with at least one utxo
    returns at least one peak hash. *)
Lemma onePass_nonempty nextNodeIdx peaks v hs v' :
  (0 < length (Utxos (mwebUtxos v)))%nat ->
  onePass blake3 nextNodeIdx peaks v = Some (Some hs, v') -> hs <> [].
Proof.
  intros Hpos. unfold onePass.
  destruct (peakWalk _ _ _ _ _ _) as [[[hs'|] v1]|] eqn:Hw; try discriminate.
  destruct (_ || _) eqn:Hck; [discriminate|].
  intros H. injection H as <- <-.
  destruct peaks as [|p peaks].
  - rewrite peakWalk_empty in Hw. injection Hw as <- <-.
    cbn in Hck. apply orb_false_iff in Hck as [Hck _].
    apply negb_false_iff, bool_decide_eq_true in Hck. lia.
  - apply peakWalk_nonempty in Hw. apply Hw. discriminate.
Qed.

Lemma runs_passes nextNodeIdx peaks : forall n acc,
  runs (passes blake3 n nextNodeIdx peaks acc).
Proof.
  induction n as [|n IH]; intros acc; cbn [passes].
  - apply runs_ret.
  - apply runs_bind; [apply runs_onePass|]. intros [hs|]; [apply IH|apply runs_ret].
Qed.

Lemma passes_nonempty nextNodeIdx peaks : forall n acc v hs v',
  (0 < length (Utxos (mwebUtxos v)))%nat -> cursors_ok v ->
  passes blake3 (S n) nextNodeIdx peaks acc v = Some (Some hs, v') -> hs <> [].
Proof.
  induction n as [|n IH]; intros acc v hs v' Hpos Hv H;
    cbn [passes] in H; unfold bind at 1 in H;
    destruct (onePass _ _ _ _) as [[[hs1|] v1]|] eqn:H1; try discriminate.
  - unfold ret in H. injection H as <- <-.
    eapply onePass_nonempty; eauto.
  - destruct (runs_onePass nextNodeIdx peaks v Hv) as (a & v2 & E & Hv2 & Hf).
    rewrite H1 in E. injection E as <- <-.
    eapply (IH hs1 v1); [|exact Hv2|exact H].
    destruct Hf as [-> _]. exact Hpos.
Qed.

Lemma bagPeaks_nonempty nextNodeIdx hs :
  hs <> [] -> is_Some (bagPeaks blake3 nextNodeIdx hs).
Proof.
  intros Hne. unfold bagPeaks, index.
  destruct hs as [|h hs]; [congruence|]. cbn [length].
  destruct (_ <? 0) eqn:E; [apply Z.ltb_lt in E; lia|].
  destruct (lookup_lt_is_Some_2 (h :: hs) (Z.to_nat (Z.of_nat (S (length hs)) - 1))
              ltac:(cbn [length]; lia)) as [x ->].
  eauto.
Qed.

Lemma verifyMwebUtxos_total mwebHeader mwebLeafset m :
  0 <= StartIndex m < 2 ^ 64 ->
  exists b, verifyMwebUtxos blake3 mwebHeader mwebLeafset m = Some b.
Proof.
  intros Hs. unfold verifyMwebUtxos.
  destruct (emptyMMR _ _); [eauto|].
  destruct (_ || _) eqn:E; [eauto|].
  apply orb_false_iff in E as [E _]. apply bool_decide_eq_false in E.
  destruct (leafWalk_total mwebLeafset (Utxos m) (length (Utxos m)) 0
              (StartIndex m) ltac:(lia) ltac:(lia) Hs) as [r ->].
  destruct r as [last|]; [|eauto].
  match goal with |- context [passes _ _ ?n ?p ?a ?v] =>
    destruct (runs_passes n p 2%nat a v ltac:(split; cbn; lia))
      as (r & v' & Hp & _ & _);
    pose proof (passes_nonempty n p 1%nat a v) as Hne
  end.
  rewrite Hp. destruct r as [hs|]; [|eauto].
  specialize (Hne hs v' ltac:(cbn; lia) ltac:(split; cbn; lia) Hp).
  destruct (bagPeaks_nonempty (LeafIdx.nodeIdx (OutputMMRSize mwebHeader)) hs Hne)
    as [b ->].
  eauto.
Qed.

End Totality.

(** ** How one step changes the state *)


Lemma marks_le_refl v : marks_le v v.
Proof. intros n H. exact H. Qed.

Lemma marks_le_trans v1 v2 v3 : marks_le v1 v2 -> marks_le v2 v3 -> marks_le v1 v3.
Proof. unfold marks_le. auto. Qed.

Lemma frame_sym v v' : frame v v' -> frame v' v.
Proof. unfold frame. intuition congruence. Qed.

Lemma is_proof_mark n v k :
  is_proof (mark_proof n v) k = true <-> k = n \/ is_proof v k = true.
Proof.
  unfold is_proof, mark_proof. cbn.
  destruct (decide (k = n)) as [->|Hne].
  - rewrite lookup_insert_eq. cbn. tauto.
  - rewrite lookup_insert_ne by congruence. split; [auto|].
    intros [E|H]; [contradiction|exact H].
Qed.


Lemma advances_refl v : advances v v.
Proof. repeat split; auto using marks_le_refl. Qed.

Lemma advances_trans v1 v2 v3 : advances v1 v2 -> advances v2 v3 -> advances v1 v3.
Proof.
  intros (F1 & M1 & L1 & H1) (F2 & M2 & L2 & H2).
  split; [eauto using frame_trans|]. split; [eauto using marks_le_trans|]. lia.
Qed.

Lemma nextHash_spec n v r v' :
  nextHash n v = Some (r, v') ->
  advances v v' /\ leavesUsed v' = leavesUsed v /\
  (hashesUsed v' + nilb r = S (hashesUsed v))%nat /\
  (r <> None -> is_proof v' n = true) /\
  (r = None -> v' = v /\ hashesUsed v = length (ProofHashes (mwebUtxos v))) /\
  (forall x, r = Some x -> ProofHashes (mwebUtxos v) !! hashesUsed v = Some x).
Proof.
  unfold nextHash. destruct (decide _) as [E|E].
  - intros H. injection H as <- <-.
    split; [apply advances_refl|]. cbn. repeat split; try lia; try congruence.
  - destruct (_ !! _) as [x|] eqn:Hx; [|discriminate].
    intros H. injection H as <- <-.
    split.
    { split; [repeat split|]. split; [|cbn; lia].
      intros k Hk. apply is_proof_mark. right. exact Hk. }
    cbn. repeat split; try lia; try congruence.
    intros _. apply is_proof_mark. left. reflexivity.
Qed.

Lemma nextLeaf_spec v i o v' :
  nextLeaf v = Some ((i, o), v') ->
  advances v v' /\ hashesUsed v' = hashesUsed v /\ marks_le v' v /\
  ((o = None /\ v' = v /\ leavesUsed v = length (Utxos (mwebUtxos v))) \/
   (exists u, Utxos (mwebUtxos v) !! leavesUsed v = Some u /\
              i = LeafIndex u /\ o = Some (OutputId u) /\
              leavesUsed v' = S (leavesUsed v))).
Proof.
  unfold nextLeaf. destruct (decide _) as [E|E].
  - intros H. injection H as <- <- <-.
    split; [apply advances_refl|]. split; [reflexivity|].
    split; [apply marks_le_refl|]. left. auto.
  - destruct (_ !! _) as [u|] eqn:Hu; [|discriminate].
    intros H. injection H as <- <- <-.
    split.
    { split; [repeat split|]. split; [intros k Hk; exact Hk|cbn; lia]. }
    split; [reflexivity|]. split; [intros k Hk; exact Hk|].
    right. exists u. auto.
Qed.

Section TwoPass.

Variable blake3 : list Z -> Hash.

(** The outcomes of the leaf branch. *)
Lemma calcLeafHash_spec n v r v' :
  calcLeafHash blake3 n v = Some (r, v') ->
  advances v v' /\ hashesUsed v' = hashesUsed v /\ marks_le v' v /\
  ((r = None /\ v' = v /\
    (Leafset.contains (vleafset v) (NodeIdx.leafIdx n) = false \/
     leavesUsed v = length (Utxos (mwebUtxos v)))) \/
   (exists u, Leafset.contains (vleafset v) (NodeIdx.leafIdx n) = true /\
              Utxos (mwebUtxos v) !! leavesUsed v = Some u /\
              leavesUsed v' = S (leavesUsed v) /\
              r = if NodeIdx.leafIdx n =? LeafIndex u
                  then Some (node_hash blake3 n (OutputId u)) else None)).
Proof.
  unfold calcLeafHash. intros H.
  apply run_bind in H as (v0 & v1 & Hg & H).
  unfold get in Hg. injection Hg as <- <-.
  destruct (Leafset.contains _ _) eqn:Hc; cbn [negb] in H.
  - apply run_bind in H as ([i o] & v1 & Hl & H).
    apply nextLeaf_spec in Hl as (Ha & Hh & Hm & Hl). cbn [fst snd] in H.
    destruct Hl as [(-> & -> & Hlen)|(u & Hu & -> & -> & Hlu)].
    + injection H as <- <-. repeat split; auto; try apply Ha.
    + assert (E : v' = v1 /\
                  r = if NodeIdx.leafIdx n =? LeafIndex u
                      then Some (node_hash blake3 n (OutputId u)) else None).
      { destruct (_ =? _); cbn [negb] in H; injection H as <- <-; auto. }
      destruct E as [-> ->].
      split; [exact Ha|]. split; [exact Hh|]. split; [exact Hm|].
      right. exists u. auto.
  - injection H as <- <-.
    split; [apply advances_refl|]. split; [reflexivity|].
    split; [apply marks_le_refl|]. left. auto.
Qed.

(** The outcomes of the final switch. *)
Lemma joinChildren_spec n l r left right v res v' :
  joinChildren blake3 n l r left right v = Some (res, v') ->
  advances v v' /\ leavesUsed v' = leavesUsed v /\
  (hashesUsed v' + nilb res <= hashesUsed v + nilb left + nilb right)%nat /\
  (res <> None ->
     (hashesUsed v' = hashesUsed v + nilb left + nilb right)%nat /\
     (left = None -> is_proof v' l = true) /\
     (right = None -> is_proof v' r = true)).
Proof.
  unfold joinChildren. destruct left as [lh|], right as [rh|].
  - intros H. injection H as <- <-.
    split; [apply advances_refl|]. cbn. repeat split; try lia; congruence.
  - intros H. apply run_bind in H as (x & v1 & Hn & H).
    apply nextHash_spec in Hn as (Ha & Hl & Hh & Hm & _).
    destruct x as [x|]; injection H as <- <-; cbn in *;
      (split; [exact Ha|]); repeat split; try lia; try congruence.
    intros _. apply Hm. congruence.
  - intros H. apply run_bind in H as (x & v1 & Hn & H).
    apply nextHash_spec in Hn as (Ha & Hl & Hh & Hm & _).
    destruct x as [x|]; injection H as <- <-; cbn in *;
      (split; [exact Ha|]); repeat split; try lia; try congruence.
    intros _. apply Hm. congruence.
  - intros H. injection H as <- <-.
    split; [apply advances_refl|]. cbn. repeat split; try lia; congruence.
Qed.



Lemma calcNodeHash_O n v :
  calcNodeHash blake3 n 0 v =
  if pulled v n then nextHash n v else calcLeafHash blake3 n v.
Proof.
  cbn [calcNodeHash]. unfold bind at 1, get, pulled.
  destruct (_ || _); reflexivity.
Qed.

Lemma calcNodeHash_S n h v :
  calcNodeHash blake3 n (S h) v =
  if pulled v n then nextHash n v
  else (do left <- calcNodeHash blake3 (NodeIdx.left n (Z.of_nat (S h))) h ;;
        do right <- rightChild blake3 n h v ;;
        joinChildren blake3 n (NodeIdx.left n (Z.of_nat (S h)))
          (NodeIdx.right n) left right) v.
Proof.
  cbn [calcNodeHash]. unfold bind at 1, get, pulled.
  destruct (_ || _); reflexivity.
Qed.

Lemma calcNodeHash_advances h : forall n v r v',
  calcNodeHash blake3 n h v = Some (r, v') ->
  advances v v' /\
  (r <> None ->
   (leavesUsed v + hashesUsed v < leavesUsed v' + hashesUsed v')%nat).
Proof.
  induction h as [|h IH]; intros n v r v' H.
  - rewrite calcNodeHash_O in H. destruct (pulled v n).
    + apply nextHash_spec in H as (Ha & Hl & Hh & _).
      split; [exact Ha|]. intros Hr. destruct r; [cbn in Hh; lia|congruence].
    + apply calcLeafHash_spec in H as (Ha & Hh & _ & [(-> & _)|(u & _ & _ & Hl & _)]).
      * split; [exact Ha|congruence].
      * split; [exact Ha|]. intros _. lia.
  - rewrite calcNodeHash_S in H. destruct (pulled v n).
    + apply nextHash_spec in H as (Ha & Hl & Hh & _).
      split; [exact Ha|]. intros Hr. destruct r; [cbn in Hh; lia|congruence].
    + apply run_bind in H as (left & va & HL & H).
      apply run_bind in H as (right & vb & HR & H).
      apply IH in HL as (HaL & HcL).
      assert (HaR : advances va vb /\
                    (right <> None ->
                     (leavesUsed va + hashesUsed va <
                      leavesUsed vb + hashesUsed vb)%nat)).
      { unfold rightChild in HR. destruct (_ <=? _).
        - apply nextHash_spec in HR as (Ha & Hl & Hh & _).
          split; [exact Ha|]. intros Hr.
          destruct right; [cbn in Hh; lia|congruence].
        - apply IH in HR. exact HR. }
      destruct HaR as (HaR & HcR).
      apply joinChildren_spec in H as (HaJ & HlJ & HhJ & HJ).
      split; [eauto using advances_trans|].
      intros Hr. destruct (HJ Hr) as (Hh & _).
      destruct HaL as (_ & _ & ? & ?), HaR as (_ & _ & ? & ?).
      destruct left as [lh|].
      * specialize (HcL ltac:(congruence)). lia.
      * cbn in Hh. destruct right as [rh|]; [|cbn in *].
        -- cbn in Hh. lia.
        -- lia.
Qed.

(** *** The second pass against the first

    Both passes call [calcNodeHash] on the same nodes, the second one
    with the marks of the first. Per call the second pass consumes no
    more leaves than the first, and where the leaf cursors agree it
    needs no more proof hashes, counting one for a nil result. *)
Lemma calcNodeHash_sim h : forall n s1 s2 r1 s1' r2 s2',
  calcNodeHash blake3 n h s1 = Some (r1, s1') ->
  calcNodeHash blake3 n h s2 = Some (r2, s2') ->
  frame s1 s2 -> marks_le s1' s2 ->
  (r1 = None -> is_proof s2 n = true) ->
  (leavesUsed s2 <= leavesUsed s1)%nat ->
  (leavesUsed s2' + leavesUsed s1 <= leavesUsed s1' + leavesUsed s2)%nat /\
  (leavesUsed s1' = leavesUsed s2' ->
   (hashesUsed s2' + nilb r2 + hashesUsed s1 <=
    hashesUsed s1' + nilb r1 + hashesUsed s2)%nat).
Proof.
  induction h as [|h IH]; intros n s1 s2 r1 s1' r2 s2' H1 H2 Hf Hm Hnil Hlu.
  - (* a leaf *)
    pose proof (calcNodeHash_advances _ _ _ _ _ H1) as ((_ & Hm1 & _) & _).
    rewrite calcNodeHash_O in H1, H2.
    pose proof Hf as (Hfu & Hfl & Hff & Hfla).
    destruct (pulled s2 n) eqn:P2.
    + apply nextHash_spec in H2 as (_ & Hl2 & Hh2 & _).
      destruct (pulled s1 n) eqn:P1.
      * apply nextHash_spec in H1 as (_ & Hl1 & Hh1 & _). lia.
      * apply calcLeafHash_spec in H1
          as (_ & Hh1 & _ & [(-> & -> & _)|(u & _ & _ & Hl1 & _)]).
        -- cbn. lia.
        -- lia.
    + assert (P1 : pulled s1 n = false).
      { unfold pulled in *. apply orb_false_iff in P2 as [Pa Pb].
        rewrite Hff in Pa. rewrite Pa. cbn.
        destruct (is_proof s1 n) eqn:E; [|reflexivity].
        rewrite (Hm n (Hm1 n E)) in Pb. discriminate. }
      rewrite P1 in H1.
      assert (Hr1 : r1 <> None).
      { intros E. specialize (Hnil E). unfold pulled in P2.
        rewrite Hnil in P2. rewrite orb_true_r in P2. discriminate. }
      apply calcLeafHash_spec in H1
        as (_ & Hh1 & _ & [(-> & _)|(u1 & Hc1 & Hu1 & Hl1 & Hr1')]);
        [congruence|].
      apply calcLeafHash_spec in H2
        as (_ & Hh2 & _ & [(-> & -> & _)|(u2 & Hc2 & Hu2 & Hl2 & Hr2')]).
      * split; [lia|]. intros E. lia.
      * split; [lia|]. intros E.
        assert (El : leavesUsed s1 = leavesUsed s2) by lia.
        rewrite Hfu, <- El, Hu1 in Hu2. injection Hu2 as <-.
        subst r1 r2. lia.
  - (* an inner node *)
    pose proof (calcNodeHash_advances _ _ _ _ _ H1)
      as ((_ & Hm1 & Hl1' & Hh1') & Hc1).
    rewrite calcNodeHash_S in H1, H2.
    pose proof Hf as (Hfu & Hfl & Hff & Hfla).
    destruct (pulled s2 n) eqn:P2.
    + apply nextHash_spec in H2 as (_ & Hl2 & Hh2 & _).
      destruct (pulled s1 n) eqn:P1.
      * apply nextHash_spec in H1 as (_ & Hl1 & Hh1 & _). lia.
      * split; [lia|]. intros E.
        destruct r1 as [x|]; [|cbn; cbn in Hh2; lia].
        specialize (Hc1 ltac:(congruence)). cbn. lia.
    + assert (P1 : pulled s1 n = false).
      { unfold pulled in *. apply orb_false_iff in P2 as [Pa Pb].
        rewrite Hff in Pa. rewrite Pa. cbn.
        destruct (is_proof s1 n) eqn:E; [|reflexivity].
        rewrite (Hm n (Hm1 n E)) in Pb. discriminate. }
      rewrite P1 in H1.
      assert (Hr1 : r1 <> None).
      { intros E. specialize (Hnil E). unfold pulled in P2.
        rewrite Hnil in P2. rewrite orb_true_r in P2. discriminate. }
      apply run_bind in H1 as (left1 & a1 & HL1 & H1).
      apply run_bind in H1 as (right1 & b1 & HR1 & HJ1).
      apply run_bind in H2 as (left2 & a2 & HL2 & H2).
      apply run_bind in H2 as (right2 & b2 & HR2 & HJ2).
      apply joinChildren_spec in HJ1 as (HaJ1 & HlJ1 & _ & HJ1).
      destruct (HJ1 Hr1) as (HhJ1 & HmL & HmR).
      apply joinChildren_spec in HJ2 as (HaJ2 & HlJ2 & HhJ2 & _).
      pose proof (calcNodeHash_advances _ _ _ _ _ HL1) as (HaL1 & _).
      pose proof (calcNodeHash_advances _ _ _ _ _ HL2) as (HaL2 & _).
      assert (HaR1 : advances a1 b1).
      { unfold rightChild in HR1. destruct (_ <=? _).
        - apply nextHash_spec in HR1. apply HR1.
        - apply calcNodeHash_advances in HR1. apply HR1. }
      assert (HaR2 : advances a2 b2).
      { unfold rightChild in HR2. destruct (_ <=? _).
        - apply nextHash_spec in HR2. apply HR2.
        - apply calcNodeHash_advances in HR2. apply HR2. }
      assert (Hmb1 : marks_le b1 s2).
      { eapply marks_le_trans; [apply HaJ1|exact Hm]. }
      assert (Hma1 : marks_le a1 s2).
      { eapply marks_le_trans; [apply HaR1|exact Hmb1]. }
      destruct (IH _ _ _ _ _ _ _ HL1 HL2 Hf Hma1
                  ltac:(intros E; apply Hm, HmL, E) Hlu) as (IL1 & IL2).
      assert (Hfa : frame a1 a2).
      { destruct HaL1 as (F1 & _), HaL2 as (F2 & _).
        eapply frame_trans; [apply frame_sym, F1|].
        eapply frame_trans; [exact Hf|exact F2]. }
      assert (IR : (leavesUsed b2 + leavesUsed a1 <=
                    leavesUsed b1 + leavesUsed a2)%nat /\
                   (leavesUsed b1 = leavesUsed b2 ->
                    (hashesUsed b2 + nilb right2 + hashesUsed a1 <=
                     hashesUsed b1 + nilb right1 + hashesUsed a2)%nat)).
      { unfold rightChild in HR1, HR2. rewrite Hfla in HR2.
        destruct (_ <=? _).
        - apply nextHash_spec in HR1 as (_ & Hl1 & Hh1 & _).
          apply nextHash_spec in HR2 as (_ & Hl2 & Hh2 & _). lia.
        - apply (IH _ _ _ _ _ _ _ HR1 HR2 Hfa).
          + eapply marks_le_trans; [exact Hmb1|apply HaL2].
          + intros E. apply HaL2, Hm, HmR, E.
          + lia. }
      destruct IR as (IR1 & IR2).
      destruct HaL1 as (_ & _ & ? & ?), HaL2 as (_ & _ & ? & ?).
      destruct HaR1 as (_ & _ & ? & ?), HaR2 as (_ & _ & ? & ?).
      split; [lia|]. intros E.
      specialize (IL2 ltac:(lia)). specialize (IR2 ltac:(lia)).
      destruct r1; [cbn [nilb]|congruence]. lia.
Qed.

End TwoPass.

Section TwoPassWalk.

Variable blake3 : list Z -> Hash.

Lemma peakHashOf_advances p v r v' :
  peakHashOf blake3 p v = Some (r, v') ->
  advances v v' /\ (r <> None -> is_proof v' p = true \/
     exists v1, calcNodeHash blake3 p (Z.to_nat (NodeIdx.height p)) v = Some (r, v1)).
Proof.
  unfold peakHashOf. intros H.
  apply run_bind in H as (h & v1 & Hc & H).
  pose proof (calcNodeHash_advances _ _ _ _ _ _ Hc) as (Ha & _).
  destruct h as [x|].
  - injection H as <- <-. split; [exact Ha|]. intros _. right. eauto.
  - apply nextHash_spec in H as (Ha2 & _ & _ & Hm & _).
    split; [eauto using advances_trans|]. intros Hr. left. auto.
Qed.

Lemma peakHashOf_sim p s1 s2 x1 s1' x2 s2' :
  peakHashOf blake3 p s1 = Some (Some x1, s1') ->
  peakHashOf blake3 p s2 = Some (Some x2, s2') ->
  frame s1 s2 -> marks_le s1' s2 ->
  (leavesUsed s2 <= leavesUsed s1)%nat ->
  (leavesUsed s2' + leavesUsed s1 <= leavesUsed s1' + leavesUsed s2)%nat /\
  (leavesUsed s1' = leavesUsed s2' ->
   (hashesUsed s2' + hashesUsed s1 <= hashesUsed s1' + hashesUsed s2)%nat).
Proof.
  unfold peakHashOf. intros H1 H2 Hf Hm Hlu.
  apply run_bind in H1 as (r1 & a1 & Hc1 & H1).
  apply run_bind in H2 as (r2 & a2 & Hc2 & H2).
  assert (Ha1 : advances a1 s1' /\ leavesUsed s1' = leavesUsed a1 /\
                (hashesUsed s1' = hashesUsed a1 + nilb r1)%nat /\
                (r1 = None -> is_proof s1' p = true)).
  { destruct r1 as [y|].
    - injection H1 as <- <-. split; [apply advances_refl|].
      cbn. repeat split; try lia. discriminate.
    - apply nextHash_spec in H1 as (Ha & Hl & Hh & Hmk & _).
      split; [exact Ha|]. cbn in *. repeat split; try lia.
      intros _. apply Hmk. discriminate. }
  destruct Ha1 as (Ha1 & Hl1 & Hh1 & Hmk1).
  assert (Ha2 : leavesUsed s2' = leavesUsed a2 /\
                (hashesUsed s2' = hashesUsed a2 + nilb r2)%nat).
  { destruct r2 as [y|].
    - injection H2 as <- <-. cbn. lia.
    - apply nextHash_spec in H2 as (Ha & Hl & Hh & Hmk & _). cbn in *. lia. }
  destruct Ha2 as (Hl2 & Hh2).
  destruct (calcNodeHash_sim blake3 _ _ _ _ _ _ _ _ Hc1 Hc2 Hf
              ltac:(eapply marks_le_trans; [apply Ha1|exact Hm])
              ltac:(intros E; apply Hm, Hmk1, E) Hlu) as (I1 & I2).
  split; [lia|]. intros E. specialize (I2 ltac:(lia)). lia.
Qed.

Lemma bagRest_spec nextNodeIdx peaks p acc v hs v' :
  bagRest nextNodeIdx peaks p acc v = Some (Some hs, v') ->
  advances v v' /\ leavesUsed v' = leavesUsed v /\
  exists lastPeak, index peaks (Z.of_nat (length peaks) - 1) = Some lastPeak /\
    hashesUsed v' = (hashesUsed v + (if (p =? lastPeak)%Z then 0 else 1))%nat.
Proof.
  unfold bagRest. destruct (index peaks _) as [lp|]; [|discriminate].
  destruct (p =? lp) eqn:Ep; cbn [negb].
  - intros H. injection H as <- <-.
    split; [apply advances_refl|]. split; [reflexivity|].
    exists lp. rewrite Ep. split; [reflexivity|lia].
  - intros H. apply run_bind in H as ([b|] & v1 & Hn & H); [|discriminate].
    injection H as <- <-.
    apply nextHash_spec in Hn as (Ha & Hl & Hh & _). cbn in Hh.
    split; [exact Ha|]. split; [exact Hl|].
    exists lp. rewrite Ep. split; [reflexivity|lia].
Qed.

Lemma peakWalk_advances nextNodeIdx peaks : forall rest acc v hs v',
  peakWalk blake3 nextNodeIdx peaks rest acc v = Some (Some hs, v') ->
  advances v v'.
Proof.
  induction rest as [|p rest IH]; intros acc v hs v' H; cbn [peakWalk] in H.
  - injection H as <- <-. apply advances_refl.
  - apply run_bind in H as ([ph|] & v1 & Hp & H); [|discriminate].
    apply peakHashOf_advances in Hp as (Ha & _).
    apply run_bind in H as (v2 & v3 & Hg & H).
    unfold get in Hg. injection Hg as <- <-.
    destruct (_ <=? _).
    + apply bagRest_spec in H as (Hb & _). eauto using advances_trans.
    + apply IH in H. eauto using advances_trans.
Qed.

(** The walk of the second pass against the walk of the first. *)
Lemma peakWalk_sim nextNodeIdx peaks : forall rest acc1 acc2 s1 s2 hs1 s1' hs2 s2',
  peakWalk blake3 nextNodeIdx peaks rest acc1 s1 = Some (Some hs1, s1') ->
  peakWalk blake3 nextNodeIdx peaks rest acc2 s2 = Some (Some hs2, s2') ->
  frame s1 s2 -> marks_le s1' s2 ->
  (leavesUsed s2 <= leavesUsed s1)%nat ->
  (leavesUsed s2' + leavesUsed s1 <= leavesUsed s1' + leavesUsed s2)%nat /\
  (leavesUsed s1' = leavesUsed s2' ->
   (hashesUsed s2' + hashesUsed s1 <= hashesUsed s1' + hashesUsed s2)%nat).
Proof.
  induction rest as [|p rest IH];
    intros acc1 acc2 s1 s2 hs1 s1' hs2 s2' H1 H2 Hf Hm Hlu;
    cbn [peakWalk] in H1, H2.
  - injection H1 as <- <-. injection H2 as <- <-. lia.
  - apply run_bind in H1 as ([x1|] & a1 & Hp1 & H1); [|discriminate].
    apply run_bind in H2 as ([x2|] & a2 & Hp2 & H2); [|discriminate].
    apply run_bind in H1 as (? & ? & Hg & H1).
    unfold get in Hg. injection Hg as <- <-.
    apply run_bind in H2 as (? & ? & Hg & H2).
    unfold get in Hg. injection Hg as <- <-.
    pose proof (peakHashOf_advances _ _ _ _ Hp1) as (Ha1 & _).
    pose proof (peakHashOf_advances _ _ _ _ Hp2) as (Ha2 & _).
    assert (Hfa : frame a1 a2).
    { destruct Ha1 as (F1 & _), Ha2 as (F2 & _).
      eapply frame_trans; [apply frame_sym, F1|].
      eapply frame_trans; [exact Hf|exact F2]. }
    assert (Hla : lastLeafIdx a2 = lastLeafIdx a1) by apply Hfa.
    rewrite Hla in H2.
    destruct (_ <=? _).
    + apply bagRest_spec in H1 as (Hb1 & Hl1 & lp1 & Hi1 & Hh1).
      apply bagRest_spec in H2 as (Hb2 & Hl2 & lp2 & Hi2 & Hh2).
      rewrite Hi1 in Hi2. injection Hi2 as <-.
      destruct (peakHashOf_sim _ _ _ _ _ _ _ Hp1 Hp2 Hf
                  ltac:(eapply marks_le_trans; [apply Hb1|exact Hm]) Hlu)
        as (I1 & I2).
      split; [lia|]. intros E. specialize (I2 ltac:(lia)). lia.
    + pose proof (peakWalk_advances _ _ _ _ _ _ _ H1) as Hw1.
      destruct (peakHashOf_sim _ _ _ _ _ _ _ Hp1 Hp2 Hf
                  ltac:(eapply marks_le_trans; [apply Hw1|exact Hm]) Hlu)
        as (I1 & I2).
      destruct (IH _ _ _ _ _ _ _ _ H1 H2 Hfa
                  ltac:(eapply marks_le_trans; [exact Hm|apply Ha2])
                  ltac:(lia)) as (J1 & J2).
      destruct Ha1 as (_ & _ & ? & ?), Ha2 as (_ & _ & ? & ?).
      destruct Hw1 as (_ & _ & ? & ?).
      pose proof (peakWalk_advances _ _ _ _ _ _ _ H2) as (_ & _ & ? & ?).
      split; [lia|]. intros E.
      specialize (I2 ltac:(lia)). specialize (J2 ltac:(lia)). lia.
Qed.

(** When the second walk uses up both slices, so did the first. *)
Lemma walkPass_second nextNodeIdx peaks v hs1 v1 hs2 v2 :
  cursors_ok v ->
  walkPass blake3 nextNodeIdx peaks v = Some (Some hs1, v1) ->
  walkPass blake3 nextNodeIdx peaks v1 = Some (Some hs2, v2) ->
  leavesUsed v2 = length (Utxos (mwebUtxos v2)) ->
  hashesUsed v2 = length (ProofHashes (mwebUtxos v2)) ->
  leavesUsed v1 = length (Utxos (mwebUtxos v1)) /\
  hashesUsed v1 = length (ProofHashes (mwebUtxos v1)).
Proof.
  unfold walkPass. intros Hv H1 H2 El Eh.
  destruct (runs_peakWalk blake3 nextNodeIdx peaks peaks []
              ltac:(destruct peaks; [left; reflexivity|right; discriminate])
              (set_cursors 0 0 v) (cursors_ok_reset v))
    as (r & v' & E & (Hc1 & Hc2) & Hf1).
  rewrite H1 in E. injection E as <- <-.
  pose proof (peakWalk_advances _ _ _ _ _ _ _ H2) as ((Hu & _) & _).
  cbn in Hu.
  assert (Hfr : frame (set_cursors 0 0 v) (set_cursors 0 0 v1)).
  { destruct Hf1 as (F1 & F2 & F3 & F4). repeat split; cbn; assumption. }
  destruct (peakWalk_sim _ _ _ _ _ _ _ _ _ _ _ H1 H2 Hfr
              ltac:(intros k Hk; exact Hk) ltac:(cbn; lia)) as (I1 & I2).
  cbn in I1, I2. rewrite Hu in El, Eh.
  assert (leavesUsed v1 = leavesUsed v2) by lia.
  specialize (I2 ltac:(assumption)). lia.
Qed.

Lemma onePass_eq nextNodeIdx peaks v :
  onePass blake3 nextNodeIdx peaks v =
  match walkPass blake3 nextNodeIdx peaks v with
  | None => None
  | Some (None, v') => Some (None, v')
  | Some (Some peakHashes, v') =>
      if negb (bool_decide (leavesUsed v' = length (Utxos (mwebUtxos v')))) ||
         negb (bool_decide (hashesUsed v' = length (ProofHashes (mwebUtxos v'))))
      then Some (None, v')
      else Some (Some peakHashes, v')
  end.
Proof. reflexivity. Qed.

(** What follows the leaf-range walk, in the implementation and in the
    reference. *)
Lemma passes_eq_reference (root : Hash) (n : Z) (peaks : list Z)
    (v : verifyMwebUtxosVars) (m : MsgMwebUtxos) :
  cursors_ok v -> mwebUtxos v = m ->
  match passes blake3 2 n peaks [] v with
  | None => None
  | Some (None, _) => Some false
  | Some (Some peakHashes, _) =>
      match bagPeaks blake3 n peakHashes with
      | None => None
      | Some baggedPeak => Some (bool_decide (baggedPeak = root))
      end
  end =
  match walkPass blake3 n peaks v with
  | None => None
  | Some (None, _) => Some false
  | Some (Some _, v1) =>
      match walkPass blake3 n peaks v1 with
      | None => None
      | Some (None, _) => Some false
      | Some (Some peakHashes, v2) =>
          if negb (bool_decide (leavesUsed v2 = length (Utxos m))) ||
             negb (bool_decide (hashesUsed v2 = length (ProofHashes m)))
          then Some false
          else
            match bagPeaks blake3 n peakHashes with
            | None => None
            | Some baggedPeak => Some (bool_decide (baggedPeak = root))
            end
      end
  end.
Proof.
  intros Hv Hm.
  cbn [passes]. unfold bind at 1. rewrite onePass_eq.
  destruct (walkPass blake3 n peaks v) as [[[hs1|] v1]|] eqn:W1;
    [|reflexivity|reflexivity].
  assert (Hv1 : cursors_ok v1 /\ mwebUtxos v1 = m).
  { destruct (runs_peakWalk blake3 n peaks peaks []
                ltac:(destruct peaks; [left; reflexivity|right; discriminate])
                (set_cursors 0 0 v) (cursors_ok_reset v))
      as (r & v' & E & Hc & Hf).
    unfold walkPass in W1. rewrite W1 in E. injection E as <- <-.
    split; [exact Hc|]. destruct Hf as (F & _). cbn in F. congruence. }
  destruct Hv1 as (Hv1 & Hu1).
  assert (W2 : exists r v2, walkPass blake3 n peaks v1 = Some (r, v2) /\
                            mwebUtxos v2 = m).
  { destruct (runs_peakWalk blake3 n peaks peaks []
                ltac:(destruct peaks; [left; reflexivity|right; discriminate])
                (set_cursors 0 0 v1) (cursors_ok_reset v1))
      as (r & v' & E & Hc & Hf).
    exists r, v'. split; [exact E|]. destruct Hf as (F & _). cbn in F. congruence. }
  destruct W2 as (r2 & v2 & W2 & Hu2).
  destruct (negb (bool_decide (leavesUsed v1 = _)) || _) eqn:C1.
  - (* the first pass leaves input unused: so does the second *)
    unfold ret. rewrite W2. destruct r2 as [hs2|]; [|reflexivity].
    destruct (negb (bool_decide (leavesUsed v2 = _)) || _) eqn:C2; [reflexivity|].
    exfalso. apply orb_false_iff in C2 as [Ca Cb].
    apply negb_false_iff, bool_decide_eq_true in Ca, Cb.
    destruct (walkPass_second n peaks v hs1 v1 hs2 v2 Hv W1 W2) as (Ea & Eb).
    { rewrite Hu2. exact Ca. }
    { rewrite Hu2. exact Cb. }
    rewrite Hu1 in C1.
    apply orb_true_iff in C1 as [C1|C1];
      apply negb_true_iff, bool_decide_eq_false in C1; congruence.
  - cbn [passes]. unfold bind at 1. rewrite onePass_eq, W2.
    destruct r2 as [hs2|]; [|reflexivity].
    rewrite Hu2.
    destruct (negb (bool_decide (leavesUsed v2 = _)) || _); reflexivity.
Qed.

Lemma verifyMwebUtxos_eq_reference mwebHeader mwebLeafset m :
  verifyMwebUtxos blake3 mwebHeader mwebLeafset m =
  twoPassReference blake3 mwebHeader mwebLeafset m.
Proof.
  unfold verifyMwebUtxos, twoPassReference.
  destruct (emptyMMR _ _); [reflexivity|].
  destruct (_ || _); [reflexivity|].
  destruct (leafWalk _ _ _ _ _) as [[last|]|]; try reflexivity.
  apply passes_eq_reference; [split; cbn; lia|reflexivity].
Qed.

End TwoPassWalk.

(** ** Leaf and node indices: the round trip *)

(** C9, as amended: for every leaf index [i] below 2^63 the node index of
    the leaf maps back to [i] and has height zero. *)
Theorem leafIdx_nodeIdx_roundtrip (i : Z) :
  0 <= i < 2 ^ 63 ->
  NodeIdx.leafIdx (LeafIdx.nodeIdx i) = i /\
  NodeIdx.height (LeafIdx.nodeIdx i) = 0.
Proof.
  intros Hi. split; [apply leafIdx_nodeIdx|apply height_nodeIdx]; exact Hi.
Qed.

Lemma leafIdx_nodeIdx_roundtrip_witness :
  0 <= 6 < 2 ^ 63 /\
  NodeIdx.leafIdx (LeafIdx.nodeIdx 6) = 6 /\
  NodeIdx.height (LeafIdx.nodeIdx 6) = 0.
Proof.
  split; [lia|]. apply (leafIdx_nodeIdx_roundtrip 6). lia.
Defined.

(** C9 as stated fails at the 64-bit leaf index 2^63: its node index
    wraps to 2^64 - 1, which maps back to leaf 0. *)
Lemma leafIdx_nodeIdx_wraps :
  0 <= 2 ^ 63 < 2 ^ 64 /\
  NodeIdx.leafIdx (LeafIdx.nodeIdx (2 ^ 63)) <> 2 ^ 63.
Proof. split; [lia|]. vm_compute. discriminate. Qed.

(** ** The empty-MMR short circuit *)

Section Verifier.

Variable blake3 : list Z -> Hash.

(** C8: with no utxos or an MMR of size zero, [verifyMwebUtxos] returns
    true when all five conditions of the short circuit hold and false in
    every other case. *)
Theorem verifyMwebUtxos_empty (mwebHeader : MwebHeader) (l : leafset)
    (m : MsgMwebUtxos) :
  Utxos m = [] \/ OutputMMRSize mwebHeader = 0 ->
  verifyMwebUtxos blake3 mwebHeader l m =
  Some ((StartIndex m =? 0) &&
        bool_decide (Utxos m = []) &&
        bool_decide (ProofHashes m = []) &&
        bool_decide (OutputRoot mwebHeader = zeroHash) &&
        (OutputMMRSize mwebHeader =? 0)).
Proof.
  intros H. unfold verifyMwebUtxos, emptyMMR.
  assert (E1 : bool_decide (length (Utxos m) = 0%nat) = bool_decide (Utxos m = [])).
  { apply bool_decide_ext. split; [apply length_zero_iff_nil|intros ->; reflexivity]. }
  assert (E2 : bool_decide (length (ProofHashes m) = 0%nat) =
               bool_decide (ProofHashes m = [])).
  { apply bool_decide_ext. split; [apply length_zero_iff_nil|intros ->; reflexivity]. }
  rewrite E1, E2.
  destruct (_ && _ && _ && _ && _) eqn:E; [reflexivity|].
  destruct H as [H|H].
  - rewrite (bool_decide_eq_true_2 _ H). reflexivity.
  - rewrite H. cbn. rewrite orb_true_r. reflexivity.
Qed.

(** C2: a batch that [verifyMwebUtxos] accepts outside the empty-MMR
    short circuit lists set leaves only, starts at [StartIndex], moves
    from each record to the next unspent index, is strictly ascending
    and holds every set index from [StartIndex] to its last record. The
    leafset is shorter than 2^61 bytes, so that its bit indices fit in
    64 bits. *)
Theorem verifyMwebUtxos_batch (mwebHeader : MwebHeader) (l : leafset)
    (m : MsgMwebUtxos) :
  0 <= StartIndex m < 2 ^ 64 ->
  Z.of_nat (length l) < 2 ^ 61 ->
  verifyMwebUtxos blake3 mwebHeader l m = Some true ->
  emptyMMR mwebHeader m = false ->
  let idxs := map LeafIndex (Utxos m) in
  Forall (fun i => Leafset.contains l i = true) idxs /\
  head idxs = Some (StartIndex m) /\
  (forall k a b, idxs !! k = Some a -> idxs !! S k = Some b ->
                 Leafset.nextUnspent l a = Some b /\ a < b) /\
  (exists lastIdx, last idxs = Some lastIdx /\
     forall j, StartIndex m <= j <= lastIdx ->
               (Leafset.contains l j = true <-> In j idxs)).
Proof.
  intros Hs Hlen Hv He idxs. unfold verifyMwebUtxos in Hv. rewrite He in Hv.
  destruct (_ || _); [discriminate|].
  destruct (leafWalk _ _ _ _ _) as [[lastIdx|]|] eqn:Hw; try discriminate.
  apply leafWalk_chain in Hw; [|lia]. rewrite drop_0 in Hw. fold idxs in Hw.
  destruct (unspentChain_covers l (StartIndex m) idxs lastIdx ltac:(lia) ltac:(lia) Hw)
    as (_ & Hasc & Hcov).
  split; [eapply unspentChain_contains; eauto|].
  split; [eapply unspentChain_head; eauto|].
  split.
  - intros k a b Ha Hb. split; [eapply unspentChain_next; eauto|eauto].
  - exists lastIdx. split; [eapply unspentChain_last; eauto|exact Hcov].
Qed.

(** C10, as amended: [verifyMwebUtxos] returns a boolean on every
    input; no slice is read past its end. *)
Theorem verifyMwebUtxos_returns (mwebHeader : MwebHeader) (l : leafset)
    (m : MsgMwebUtxos) :
  0 <= StartIndex m < 2 ^ 64 ->
  exists b, verifyMwebUtxos blake3 mwebHeader l m = Some b.
Proof. apply verifyMwebUtxos_total. Qed.

(** C4: the implementation returns what the two-pass reference returns,
    on every input. *)
Theorem verifyMwebUtxos_matches_twoPass (mwebHeader : MwebHeader)
    (l : leafset) (m : MsgMwebUtxos) :
  verifyMwebUtxos blake3 mwebHeader l m =
  twoPassReference blake3 mwebHeader l m.
Proof. apply verifyMwebUtxos_eq_reference. Qed.

End Verifier.

(** C10 as stated says that [OutputMMRSize > 0] makes [calcPeaks] return
    a peak; at [OutputMMRSize = 2^63 + 1] the node index wraps to 0 and
    there is none. *)
Lemma calcPeaks_empty_for_positive_size :
  0 < 2 ^ 63 + 1 < 2 ^ 64 /\
  calcPeaks (LeafIdx.nodeIdx (2 ^ 63 + 1)) = [].
Proof. split; [lia|]. vm_compute. reflexivity. Qed.

(** ** The header verifier and its slices *)

Section HeaderPanics.

Variable blake3 : list Z -> Hash.
Variable blockHash : BlockHeader -> Hash.
Variable VerifyMerkleBlock : MsgMerkleBlock -> ExtractResult.
Variable txHash : MsgTx -> Hash.
Variable mwebHeaderHash : MwebHeader -> Hash.

(** C3 fails on the code: when the merkle block checks out against the
    block, the HogEx flag is set and the extraction matched no
    transaction, [extractResult.Match[len-1]] is read out of range and
    [verifyMwebHeader] panics instead of returning false. *)
Theorem verifyMwebHeader_panics_without_match (h : MsgMwebHeader)
    (ls : MsgMwebLeafset) (lastHeight : Z) (lastHash : Hash) :
  blockHash (Header (Merkle h)) = lastHash ->
  Root (VerifyMerkleBlock (Merkle h)) = Some (MerkleRoot (Header (Merkle h))) ->
  IsHogEx (Hogex h) = true ->
  Match (VerifyMerkleBlock (Merkle h)) = [] ->
  verifyMwebHeader blake3 blockHash VerifyMerkleBlock txHash mwebHeaderHash
    (Some h) (Some ls) lastHeight lastHash = None.
Proof.
  intros Hb Hr Hh Hm. unfold verifyMwebHeader.
  rewrite (bool_decide_eq_true_2 _ Hb). cbn [negb].
  rewrite Hr. cbn [IsEqual]. rewrite bool_decide_eq_true_2 by reflexivity.
  cbn [negb]. rewrite Hh. cbn [negb]. rewrite Hm. reflexivity.
Qed.

(** The same happens at [Hogex.TxOut[0]] when the HogEx transaction has
    no output and every earlier check passes. *)
Lemma verifyMwebHeader_panics_without_output (h : MsgMwebHeader)
    (ls : MsgMwebLeafset) (lastHeight : Z) (lastHash : Hash) pos :
  blockHash (Header (Merkle h)) = lastHash ->
  Root (VerifyMerkleBlock (Merkle h)) = Some (MerkleRoot (Header (Merkle h))) ->
  IsHogEx (Hogex h) = true ->
  Match (VerifyMerkleBlock (Merkle h)) = [txHash (Hogex h)] ->
  Index (VerifyMerkleBlock (Merkle h)) = [pos] ->
  pos = (Transactions (Merkle h) - 1) mod 2 ^ 32 ->
  TxOuts (Hogex h) = [] ->
  verifyMwebHeader blake3 blockHash VerifyMerkleBlock txHash mwebHeaderHash
    (Some h) (Some ls) lastHeight lastHash = None.
Proof.
  intros Hb Hr Hh Hm Hi Hp Ho. unfold verifyMwebHeader.
  rewrite (bool_decide_eq_true_2 _ Hb). cbn [negb].
  rewrite Hr. cbn [IsEqual]. rewrite bool_decide_eq_true_2 by reflexivity.
  cbn [negb]. rewrite Hh. cbn [negb]. rewrite Hm.
  change (index [txHash (Hogex h)] (Z.of_nat (length [txHash (Hogex h)]) - 1))
    with (Some (txHash (Hogex h))).
  cbv iota beta.
  rewrite (bool_decide_eq_true_2 (txHash (Hogex h) = txHash (Hogex h)) eq_refl).
  cbn [negb]. rewrite Hi.
  change (index [pos] (Z.of_nat (length [pos]) - 1)) with (Some pos).
  cbv iota beta.
  rewrite <- Hp, Z.eqb_refl. cbn [negb].
  rewrite Ho. reflexivity.
Qed.

End HeaderPanics.


Lemma verifyMwebHeader_panics_without_match_witness :
  verifyMwebHeader (fun _ => zeroHash) (fun _ => zeroHash) noMatchExtract
    (fun _ => zeroHash) (fun _ => zeroHash)
    (Some noMatchHeader) (Some {| Leafset := [] |}) 100 zeroHash = None.
Proof.
  apply (verifyMwebHeader_panics_without_match
           (fun _ => zeroHash) (fun _ => zeroHash) noMatchExtract
           (fun _ => zeroHash) (fun _ => zeroHash) noMatchHeader);
    reflexivity.
Defined.

(** ** The leafset differ *)

Section DifferProps.

Variable MaxMwebUtxosPerQuery : Z.

(** C5, as amended: one step of the bit loop closes and emits the
    pending span exactly when the index is set in the old leafset and a
    span is pending, whether or not the index is set in the new leafset
    too, or when the index is new and the count reaches the cap. *)
Theorem diffBody_emits (oldLeafset newLeafset : leafset) (index : Z)
    (st : diffState) :
  addedLeaves (diffBody MaxMwebUtxosPerQuery oldLeafset newLeafset index st) =
  if Leafset.contains oldLeafset index then
    if 0 <? count (addLeaf st) then addedLeaves st ++ [addLeaf st]
    else addedLeaves st
  else if Leafset.contains newLeafset index &&
          (u16 (count (addLeaf st) + 1) =? MaxMwebUtxosPerQuery) &&
          (0 <? u16 (count (addLeaf st) + 1))
  then addedLeaves st ++
       [{| start := if count (addLeaf st) =? 0 then index else start (addLeaf st);
           count := u16 (count (addLeaf st) + 1) |}]
  else addedLeaves st.
Proof.
  unfold diffBody, addLeafSpan.
  destruct (Leafset.contains oldLeafset index).
  - destruct (0 <? count (addLeaf st));
      destruct (Leafset.contains newLeafset index); reflexivity.
  - destruct (Leafset.contains newLeafset index); [|reflexivity].
    cbn [addLeaf count addedLeaves andb].
    destruct (_ =? MaxMwebUtxosPerQuery); [|reflexivity].
    cbn [andb]. destruct (0 <? _); reflexivity.
Qed.

(** A leaf is recorded as removed exactly when it is set in the old
    leafset and not in the new one. *)
Lemma diffBody_removes (oldLeafset newLeafset : leafset) (index : Z)
    (st : diffState) :
  removedLeaves (diffBody MaxMwebUtxosPerQuery oldLeafset newLeafset index st) =
  if Leafset.contains oldLeafset index && negb (Leafset.contains newLeafset index)
  then removedLeaves st ++ [index]
  else removedLeaves st.
Proof.
  unfold diffBody, addLeafSpan.
  destruct (Leafset.contains oldLeafset index).
  - destruct (0 <? count (addLeaf st));
      destruct (Leafset.contains newLeafset index); reflexivity.
  - destruct (Leafset.contains newLeafset index); [|reflexivity].
    cbn [addLeaf count addedLeaves andb].
    destruct (_ =? MaxMwebUtxosPerQuery); [|reflexivity].
    destruct (0 <? _); reflexivity.
Qed.

End DifferProps.

(** C5 as stated fails: index 1 is set in the old leafset [0x40] and in
    the new leafset [0xE0], it is no removal, and yet it closes the span
    that index 0 opened; the differ plans two spans, not one. *)
Lemma diffBody_closes_on_kept_leaf :
  Leafset.contains [64] 1 = true /\ Leafset.contains [224] 1 = true /\
  addedLeaves (diffBody 4096 [64] [224] 1
                 {| addLeaf := {| start := 0; count := 1 |};
                    addedLeaves := []; removedLeaves := [] |})
  = [{| start := 0; count := 1 |}] /\
  leafsetDiff 4096 [64] 3 [224] 3 =
  ([{| start := 0; count := 1 |}; {| start := 2; count := 1 |}], []).
Proof. vm_compute. repeat split; reflexivity. Qed.

(** ** The response handler *)

Section HandlerProps.

Variable blake3 : list Z -> Hash.


Lemma handlerPost_no_answer m req resp peerAddr sendWins :
  ~ answersRequest req resp ->
  handlerPost blake3 m req resp peerAddr sendWins noProgress [].
Proof.
  intros Hno. unfold handlerPost. split_and!.
  - intros (r & _ & Ha & _). contradiction.
  - intros (a & rs & []).
  - intros _. split; reflexivity.
  - intros (r & _ & Ha & _). contradiction.
Qed.

(** C6: the handler bans the peer, with reason [InvalidMwebUtxos],
    exactly when the response answers the request and fails
    [verifyMwebUtxos]; a wrong kind or a field mismatch makes no
    progress and bans nobody; a verified response that is delivered
    reports finished and progressed. The message fields are within
    their wire types: a 64-bit [StartIndex], fewer than 2^16 utxos. *)
Theorem handleResponse_bans (m : mwebUtxosQuery) (req resp : Message)
    (peerAddr : Z) (sendWins : bool) :
  (forall r, resp = MwebUtxosMsg r ->
     0 <= StartIndex r < 2 ^ 64 /\ Z.of_nat (length (Utxos r)) < 2 ^ 16) ->
  exists p effects,
    handleResponse blake3 m req resp peerAddr sendWins = Some (p, effects) /\
    handlerPost blake3 m req resp peerAddr sendWins p effects.
Proof.
  intros Hty. unfold handleResponse.
  destruct resp as [r|q'|c].
  2,3: (exists noProgress, []; split; [reflexivity|];
        apply handlerPost_no_answer;
        intros (q0 & r0 & _ & E & _); discriminate).
  destruct req as [r'|q|c].
  1,3: (exists noProgress, []; split; [reflexivity|];
        apply handlerPost_no_answer;
        intros (q0 & r0 & E & _); discriminate).
  destruct (Hty r eq_refl) as (Hs & Hn).
  assert (Hu : u16 (Z.of_nat (length (Utxos r))) = Z.of_nat (length (Utxos r))).
  { unfold u16. apply Z.mod_small. lia. }
  rewrite Hu.
  destruct (negb (bool_decide (qBlockHash q = BlockHash r))
            || negb (qStartIndex q =? StartIndex r)
            || negb (qOutputFormat q =? OutputFormat r)
            || negb (qNumRequested q =? Z.of_nat (length (Utxos r)))) eqn:Hmis.
  - exists noProgress, []. split; [reflexivity|].
    apply handlerPost_no_answer.
    intros (q0 & r0 & Eq & Er & H1 & H2 & H3 & H4).
    injection Eq as <-. injection Er as <-.
    rewrite (bool_decide_eq_true_2 _ H1), H2, H3, H4, !Z.eqb_refl in Hmis.
    discriminate.
  - assert (Hyes : answersRequest (GetMwebUtxosMsg q) (MwebUtxosMsg r)).
    { apply orb_false_iff in Hmis as [Hmis H4].
      apply orb_false_iff in Hmis as [Hmis H3].
      apply orb_false_iff in Hmis as [H1 H2].
      apply negb_false_iff in H1, H2, H3, H4.
      apply bool_decide_eq_true in H1.
      apply Z.eqb_eq in H2, H3, H4.
      exists q, r. split_and!; auto. }
    destruct (verifyMwebUtxos_total blake3 (qMwebHeader m) (qLeafset m) r Hs)
      as [b Hb].
    rewrite Hb. destruct b.
    + destruct sendWins.
      * eexists _, _. split; [reflexivity|].
        unfold handlerPost. split_and!.
        -- intros (r0 & E & _ & Hv). injection E as <-. congruence.
        -- intros (a & rs & [E|[]]). discriminate.
        -- intros Hno. contradiction.
        -- intros _ _. split; [reflexivity|]. exists r. auto.
      * exists noProgress, []. split; [reflexivity|].
        unfold handlerPost. split_and!.
        -- intros (r0 & E & _ & Hv). injection E as <-. congruence.
        -- intros (a & rs & []).
        -- intros _. split; reflexivity.
        -- intros _ E. discriminate.
    + eexists _, _. split; [reflexivity|].
      unfold handlerPost. split_and!.
      * intros _. split; reflexivity.
      * intros _. exists r. auto.
      * intros Hno. contradiction.
      * intros (r0 & E & _ & Hv). injection E as <-. congruence.
Qed.

End HandlerProps.

(** ** The reassembly loop *)

Section Reassembly.

Variable plan : list span.
Variable callbacks : nat.

















End Reassembly.

(** ** Arithmetic of the node layout *)

Lemma pow2_pos h : 0 < pow2 h.
Proof. unfold pow2. apply Z.pow_pos_nonneg; lia. Qed.

Lemma pow2_S h : pow2 (S h) = 2 * pow2 h.
Proof. unfold pow2. rewrite Nat2Z.inj_succ, Z.pow_succ_r by lia. reflexivity. Qed.

Lemma pow2_0 : pow2 0 = 1.
Proof. reflexivity. Qed.

Lemma pow2_le_mono a b : (a <= b)%nat -> pow2 a <= pow2 b.
Proof. intros H. unfold pow2. apply Z.pow_le_mono_r; lia. Qed.

Lemma pow2_lt_mono a b : (a < b)%nat -> pow2 a < pow2 b.
Proof. intros H. unfold pow2. apply Z.pow_lt_mono_r; lia. Qed.

Lemma OnesCount64_mul_pow2 (k : nat) q :
  0 <= q -> OnesCount64 (pow2 k * q) = OnesCount64 q.
Proof.
  intros Hq. induction k as [|k IH].
  - rewrite pow2_0, Z.mul_1_l. reflexivity.
  - rewrite pow2_S, <- Z.mul_assoc.
    pose proof (pow2_pos k).
    rewrite OnesCount64_double by nia. exact IH.
Qed.

(** Adding below the lowest set bit adds the bit counts. *)
Lemma OnesCount64_add_low (k : nat) : forall q d,
  0 <= q -> 0 <= d < pow2 k ->
  OnesCount64 (pow2 k * q + d) = OnesCount64 q + OnesCount64 d.
Proof.
  induction k as [|k IH]; intros q d Hq Hd.
  - rewrite pow2_0 in *. assert (d = 0) by lia. subst.
    rewrite Z.mul_1_l, Z.add_0_r. cbn. lia.
  - rewrite pow2_S in *. pose proof (pow2_pos k).
    destruct (Z.even d) eqn:He.
    + apply Z.even_spec in He. destruct He as [d' ->].
      replace (2 * pow2 k * q + 2 * d') with (2 * (pow2 k * q + d')) by lia.
      rewrite !OnesCount64_double by nia. apply IH; lia.
    + assert (Ho : Z.odd d = true) by (rewrite <- Z.negb_even, He; reflexivity).
      apply Z.odd_spec in Ho. destruct Ho as [d' ->].
      replace (2 * pow2 k * q + (2 * d' + 1))
        with (2 * (pow2 k * q + d') + 1) by lia.
      rewrite !OnesCount64_succ_double by nia. rewrite IH by lia. lia.
Qed.

Lemma popcount_succ_le p : popcount (Pos.succ p) <= popcount p + 1.
Proof. induction p; simpl; lia. Qed.

Lemma OnesCount64_succ_le q : 0 <= q -> OnesCount64 (q + 1) <= OnesCount64 q + 1.
Proof.
  intros Hq. destruct q as [|p|p]; [change (1 <= 1); lia| |lia].
  replace (Z.pos p + 1) with (Z.pos (Pos.succ p)) by lia.
  cbn. apply popcount_succ_le.
Qed.

Lemma mmrSize_succ q : 0 <= q -> mmrSize q < mmrSize (q + 1).
Proof.
  intros Hq. unfold mmrSize. pose proof (OnesCount64_succ_le q Hq). lia.
Qed.

Lemma mmrSize_lt_mono a b : 0 <= a < b -> mmrSize a < mmrSize b.
Proof.
  intros [Ha Hab].
  assert (H : forall n : nat, mmrSize a < mmrSize (a + 1 + Z.of_nat n)).
  { induction n as [|n IH].
    - rewrite Z.add_0_r. apply mmrSize_succ. lia.
    - pose proof (mmrSize_succ (a + 1 + Z.of_nat n) ltac:(lia)).
      replace (a + 1 + Z.of_nat (S n)) with (a + 1 + Z.of_nat n + 1) by lia. lia. }
  specialize (H (Z.to_nat (b - a - 1))).
  replace (a + 1 + Z.of_nat (Z.to_nat (b - a - 1))) with b in H by lia. exact H.
Qed.

Lemma mmrSize_le_mono a b : 0 <= a <= b -> mmrSize a <= mmrSize b.
Proof.
  intros [Ha Hab]. destruct (Z.eq_dec a b) as [->|]; [lia|].
  pose proof (mmrSize_lt_mono a b ltac:(lia)). lia.
Qed.

Lemma mmrSize_0 : mmrSize 0 = 0.
Proof. reflexivity. Qed.

(** A multiple of [2^k] plus an offset below [2^k]: the node counts
    add. *)
Lemma mmrSize_add_low (k : nat) first d :
  0 <= first -> first mod pow2 k = 0 -> 0 <= d < pow2 k ->
  mmrSize (first + d) = mmrSize first + mmrSize d.
Proof.
  intros Hf Hm Hd. pose proof (pow2_pos k).
  assert (E : first = pow2 k * (first / pow2 k)).
  { pose proof (Z.div_mod first (pow2 k) ltac:(lia)). lia. }
  assert (0 <= first / pow2 k) by (apply Z.div_pos; lia).
  unfold mmrSize.
  assert (OnesCount64 (first + d) = OnesCount64 first + OnesCount64 d).
  { rewrite E. rewrite OnesCount64_add_low by lia.
    rewrite OnesCount64_mul_pow2 by lia. reflexivity. }
  lia.
Qed.

Lemma mmrSize_pow2 (k : nat) : mmrSize (pow2 k) = 2 * pow2 k - 1.
Proof.
  unfold mmrSize.
  assert (OnesCount64 (pow2 k) = 1).
  { replace (pow2 k) with (pow2 k * 1) by lia.
    rewrite OnesCount64_mul_pow2 by lia. reflexivity. }
  lia.
Qed.

(** The leaf after a subtree starts after its root. *)
Lemma mmrSize_after_subtree (h : nat) first :
  0 <= first -> first mod pow2 h = 0 ->
  subtreeRoot first h < mmrSize (first + pow2 h).
Proof.
  intros Hf Hm. pose proof (pow2_pos h).
  assert (E : first = pow2 h * (first / pow2 h)).
  { pose proof (Z.div_mod first (pow2 h) ltac:(lia)). lia. }
  assert (Hq : 0 <= first / pow2 h) by (apply Z.div_pos; lia).
  unfold subtreeRoot, mmrSize.
  assert (OnesCount64 (first + pow2 h) <= OnesCount64 first + 1).
  { rewrite E.
    replace (pow2 h * (first / pow2 h) + pow2 h)
      with (pow2 h * (first / pow2 h + 1)) by lia.
    rewrite !OnesCount64_mul_pow2 by lia. apply OnesCount64_succ_le. lia. }
  lia.
Qed.

(** A leaf lies in or before a subtree exactly when its node index is
    at most the root of the subtree. *)
Lemma leaf_before_root (h : nat) first x :
  0 <= first -> first mod pow2 h = 0 -> 0 <= x ->
  (mmrSize x <= subtreeRoot first h <-> x < first + pow2 h).
Proof.
  intros Hf Hm Hx. pose proof (pow2_pos h). split.
  - intros Hle. destruct (Z_lt_dec x (first + pow2 h)) as [|Hge]; [assumption|].
    exfalso.
    pose proof (mmrSize_after_subtree h first Hf Hm).
    pose proof (mmrSize_le_mono (first + pow2 h) x ltac:(lia)). lia.
  - intros Hlt. unfold subtreeRoot.
    destruct (Z_lt_dec x first) as [Hxf|Hxf].
    + pose proof (mmrSize_lt_mono x first ltac:(lia)). lia.
    + replace x with (first + (x - first)) by lia.
      rewrite (mmrSize_add_low h) by lia.
      pose proof (mmrSize_bounds (x - first) ltac:(lia)). lia.
Qed.

Lemma subtreeRoot_leaf first : subtreeRoot first 0 = mmrSize first.
Proof. unfold subtreeRoot. rewrite pow2_0. lia. Qed.

Lemma mod_pow2_S (h : nat) first :
  first mod pow2 (S h) = 0 -> first mod pow2 h = 0.
Proof.
  intros Hm. pose proof (pow2_pos h). rewrite pow2_S in Hm.
  apply Z.mod_divide in Hm; [|lia]. apply Z.mod_divide; [lia|].
  destruct Hm as [c ->]. exists (c * 2). lia.
Qed.

(** The children of a subtree. *)
Lemma subtreeRoot_left (h : nat) first :
  subtreeRoot first (S h) - pow2 (S h) = subtreeRoot first h.
Proof. unfold subtreeRoot. rewrite pow2_S. lia. Qed.

Lemma subtreeRoot_right (h : nat) first :
  0 <= first -> first mod pow2 (S h) = 0 ->
  subtreeRoot first (S h) - 1 = subtreeRoot (first + pow2 h) h.
Proof.
  intros Hf Hm. unfold subtreeRoot. pose proof (pow2_pos h).
  rewrite (mmrSize_add_low (S h)) by (try assumption; rewrite ?pow2_S; lia).
  rewrite mmrSize_pow2, pow2_S. lia.
Qed.

Lemma validSubtree_left N (h : nat) first :
  validSubtree N first (S h) -> validSubtree N first h.
Proof.
  intros (H0 & Hm & Hn). pose proof (pow2_pos h). rewrite pow2_S in Hn.
  split; [exact H0|]. split; [apply mod_pow2_S, Hm|lia].
Qed.

Lemma validSubtree_right N (h : nat) first :
  validSubtree N first (S h) -> validSubtree N (first + pow2 h) h.
Proof.
  intros (H0 & Hm & Hn). pose proof (pow2_pos h). rewrite pow2_S in Hn.
  split; [lia|]. split; [|lia].
  apply mod_pow2_S in Hm.
  rewrite <- Zplus_mod_idemp_l, Hm, Z.add_0_l. apply Z_mod_same_full.
Qed.

(** In an MMR of fewer than 2^63 leaves every node index fits in 64
    bits. *)
Lemma subtreeRoot_range N (h : nat) first :
  N < 2 ^ 63 -> validSubtree N first h ->
  0 <= mmrSize first /\ mmrSize first <= subtreeRoot first h /\
  subtreeRoot first h < mmrSize N /\ mmrSize N < 2 ^ 64.
Proof.
  intros HN (H0 & Hm & Hn). pose proof (pow2_pos h).
  pose proof (mmrSize_bounds first H0).
  pose proof (mmrSize_after_subtree h first H0 Hm).
  pose proof (mmrSize_le_mono (first + pow2 h) N ltac:(lia)).
  pose proof (mmrSize_bounds N ltac:(lia)).
  unfold subtreeRoot in *. lia.
Qed.

Lemma validSubtree_height N (h : nat) first :
  N < 2 ^ 63 -> validSubtree N first h -> (h < 63)%nat /\ pow2 h < 2 ^ 63.
Proof.
  intros HN (H0 & Hm & Hn).
  assert (pow2 h < 2 ^ 63) by lia. split; [|assumption].
  destruct (le_lt_dec 63 h) as [Hge|]; [|assumption].
  pose proof (pow2_le_mono 63 h Hge). unfold pow2 in *. simpl Z.of_nat in *. lia.
Qed.

Lemma NodeIdx_left_subtree N (h : nat) first :
  N < 2 ^ 63 -> validSubtree N first (S h) ->
  NodeIdx.left (subtreeRoot first (S h)) (Z.of_nat (S h)) = subtreeRoot first h.
Proof.
  intros HN Hv. unfold NodeIdx.left.
  pose proof (validSubtree_height N _ _ HN Hv) as (Hh & Hp).
  pose proof (subtreeRoot_range N _ _ HN (validSubtree_left _ _ _ Hv)).
  rewrite Z.shiftl_1_l. fold (pow2 (S h)).
  rewrite (u64_small (pow2 (S h))) by (pose proof (pow2_pos (S h)); lia).
  rewrite subtreeRoot_left. apply u64_small. lia.
Qed.

Lemma NodeIdx_right_subtree N (h : nat) first :
  N < 2 ^ 63 -> validSubtree N first (S h) ->
  NodeIdx.right (subtreeRoot first (S h)) = subtreeRoot (first + pow2 h) h.
Proof.
  intros HN Hv. unfold NodeIdx.right.
  pose proof (subtreeRoot_range N _ _ HN (validSubtree_right _ _ _ Hv)).
  destruct Hv as (H0 & Hm & Hn).
  rewrite subtreeRoot_right by assumption. apply u64_small. lia.
Qed.

(** ** Subtrees, leaves and peaks *)

(** Two subtrees with the same root are the same subtree. *)
Lemma subtreeRoot_inj (h h' : nat) first first' :
  0 <= first -> first mod pow2 h = 0 ->
  0 <= first' -> first' mod pow2 h' = 0 ->
  subtreeRoot first h = subtreeRoot first' h' ->
  first = first' /\ h = h'.
Proof.
  assert (Hend : forall (a b : nat) x y,
            0 <= x -> x mod pow2 a = 0 -> 0 <= y -> y mod pow2 b = 0 ->
            subtreeRoot x a = subtreeRoot y b -> x + pow2 a <= y + pow2 b).
  { intros a b x y Hx Hxm Hy Hym E. pose proof (pow2_pos a).
    assert (Hle : mmrSize (x + pow2 a - 1) <= subtreeRoot x a)
      by (apply leaf_before_root; lia).
    rewrite E in Hle.
    apply (leaf_before_root b y (x + pow2 a - 1) Hy Hym) in Hle; lia. }
  assert (Hlow : forall (a b : nat) x y,
            (a < b)%nat -> 0 <= x -> 0 <= y -> y mod pow2 b = 0 ->
            x + pow2 a = y + pow2 b ->
            OnesCount64 y < OnesCount64 x).
  { intros a b x y Hab Hx Hy Hym E.
    pose proof (pow2_pos a). pose proof (pow2_pos b).
    pose proof (pow2_lt_mono a b Hab).
    assert (Ey : y = pow2 b * (y / pow2 b)).
    { pose proof (Z.div_mod y (pow2 b) ltac:(lia)). lia. }
    assert (0 <= y / pow2 b) by (apply Z.div_pos; lia).
    replace x with (pow2 b * (y / pow2 b) + (pow2 b - pow2 a)) by lia.
    rewrite OnesCount64_add_low by lia.
    rewrite Ey at 1. rewrite OnesCount64_mul_pow2 by lia.
    assert (0 < OnesCount64 (pow2 b - pow2 a)).
    { destruct (pow2 b - pow2 a) as [|p|p] eqn:Ed; try lia.
      cbn. apply popcount_pos. }
    lia. }
  intros Hf Hm Hf' Hm' E.
  pose proof (Hend h h' first first' Hf Hm Hf' Hm' E).
  pose proof (Hend h' h first' first Hf' Hm' Hf Hm (eq_sym E)).
  assert (Ee : first + pow2 h = first' + pow2 h') by lia.
  assert (Ep : OnesCount64 first = OnesCount64 first').
  { unfold subtreeRoot, mmrSize in E. lia. }
  destruct (lt_eq_lt_dec h h') as [[Hlt|Heq]|Hgt].
  - pose proof (Hlow h h' first first' Hlt Hf Hf' Hm' Ee). lia.
  - subst h'. split; [lia|reflexivity].
  - pose proof (Hlow h' h first' first Hgt Hf' Hf Hm (eq_sym Ee)). lia.
Qed.

(** ** Unspent leaves of a subtree *)


Lemma hasLeaf_spec l (h : nat) : forall first,
  hasLeaf l h first = true <->
  exists i, first <= i < first + pow2 h /\ Leafset.contains l i = true.
Proof.
  induction h as [|h IH]; intros first; cbn [hasLeaf].
  - rewrite pow2_0. split.
    + intros H. exists first. split; [lia|exact H].
    + intros (i & Hi & Hc). assert (i = first) by lia. subst. exact Hc.
  - rewrite orb_true_iff, !IH, pow2_S. pose proof (pow2_pos h). split.
    + intros [(i & Hi & Hc)|(i & Hi & Hc)]; exists i; split; auto; lia.
    + intros (i & Hi & Hc).
      destruct (Z_lt_dec i (first + pow2 h)); [left|right];
        exists i; split; auto; lia.
Qed.

Lemma hasLeaf_false l (h : nat) first i :
  hasLeaf l h first = false -> first <= i < first + pow2 h ->
  Leafset.contains l i = false.
Proof.
  intros Hh Hi. destruct (Leafset.contains l i) eqn:Hc; [|reflexivity].
  assert (hasLeaf l h first = true) by (apply hasLeaf_spec; eauto). congruence.
Qed.

Lemma leavesIn_empty l (h : nat) : forall first,
  hasLeaf l h first = false -> leavesIn l h first = [].
Proof.
  induction h as [|h IH]; intros first; cbn [hasLeaf leavesIn].
  - intros ->. reflexivity.
  - intros H. apply orb_false_iff in H as [H1 H2].
    rewrite (IH _ H1), (IH _ H2). reflexivity.
Qed.

Lemma needs_empty l (h : nat) first :
  hasLeaf l h first = false -> needs l h first = 1%nat.
Proof.
  destruct h as [|h]; cbn [hasLeaf needs]; intros H; rewrite ?H; reflexivity.
Qed.

Lemma needs_S l (h : nat) first :
  hasLeaf l (S h) first = true ->
  needs l (S h) first = (needs l h first + needs l h (first + pow2 h))%nat.
Proof. intros H. cbn [needs]. rewrite H. reflexivity. Qed.

Lemma leavesIn_filter l (h : nat) : forall first,
  leavesIn l h first = List.filter (Leafset.contains l) (seqZ first (pow2 h)).
Proof.
  induction h as [|h IH]; intros first; cbn [leavesIn].
  - rewrite pow2_0. reflexivity.
  - rewrite !IH, pow2_S. pose proof (pow2_pos h).
    replace (2 * pow2 h) with (pow2 h + pow2 h) by lia.
    rewrite seqZ_app by lia. rewrite List.filter_app. reflexivity.
Qed.

Lemma leavesIn_bounds l (h : nat) first i :
  In i (leavesIn l h first) ->
  first <= i < first + pow2 h /\ Leafset.contains l i = true.
Proof.
  rewrite leavesIn_filter. intros H. apply List.filter_In in H as [H Hc].
  apply list_elem_of_In, elem_of_seqZ in H. split; [lia|exact Hc].
Qed.

(** ** The peaks *)

Lemma mmrPeaks_small (k : nat) : forall n first,
  0 <= n < 1 -> mmrPeaks k n first = [].
Proof.
  induction k as [|k IH]; intros n first Hn; cbn [mmrPeaks]; [reflexivity|].
  pose proof (pow2_pos k).
  replace (pow2 k <=? n) with false by (symmetry; apply Z.leb_gt; lia).
  apply IH, Hn.
Qed.

Lemma mmrPeaks_more (k : nat) : forall (k' : nat) n first,
  0 <= n < pow2 k -> (k <= k')%nat -> mmrPeaks k' n first = mmrPeaks k n first.
Proof.
  intros k' n first Hn Hk. induction Hk as [|k' Hk IH]; [reflexivity|].
  cbn [mmrPeaks]. pose proof (pow2_le_mono k k' Hk).
  replace (pow2 k' <=? n) with false by (symmetry; apply Z.leb_gt; lia).
  exact IH.
Qed.

Lemma mmrPeaks_chain (k : nat) : forall n first,
  0 <= n < pow2 k -> 0 <= first -> first mod pow2 k = 0 ->
  peaksChain (first + n) first k (mmrPeaks k n first).
Proof.
  induction k as [|k IH]; intros n first Hn Hf Hm; cbn [mmrPeaks].
  - rewrite pow2_0 in Hn. cbn. lia.
  - rewrite pow2_S in Hn. pose proof (pow2_pos k).
    destruct (pow2 k <=? n) eqn:E.
    + apply Z.leb_le in E. cbn [peaksChain fst snd].
      split; [reflexivity|]. split; [lia|]. split; [exact Hf|].
      split; [exact Hm|]. split; [lia|].
      replace (first + n) with (first + pow2 k + (n - pow2 k)) by lia.
      apply IH; [lia|lia|].
      apply mod_pow2_S in Hm.
      rewrite <- Zplus_mod_idemp_l, Hm, Z.add_0_l. apply Z_mod_same_full.
    + apply Z.leb_gt in E.
      assert (Hc : peaksChain (first + n) first k (mmrPeaks k n first)).
      { apply IH; [lia|exact Hf|apply mod_pow2_S, Hm]. }
      clear -Hc. destruct (mmrPeaks k n first) as [|p rest]; [exact Hc|].
      cbn [peaksChain] in *. intuition lia.
Qed.

Lemma mmrPeaks_leaves l (k : nat) : forall n first,
  0 <= n < pow2 k ->
  flat_map (fun p => leavesIn l (snd p) (fst p)) (mmrPeaks k n first) =
  List.filter (Leafset.contains l) (seqZ first n).
Proof.
  induction k as [|k IH]; intros n first Hn; cbn [mmrPeaks].
  - rewrite pow2_0 in Hn. assert (n = 0) by lia. subst. reflexivity.
  - rewrite pow2_S in Hn. pose proof (pow2_pos k).
    destruct (pow2 k <=? n) eqn:E.
    + apply Z.leb_le in E. cbn [flat_map fst snd].
      rewrite IH by lia. rewrite leavesIn_filter, <- List.filter_app.
      rewrite <- seqZ_app by lia. f_equal. f_equal. lia.
    + apply Z.leb_gt in E. apply IH. lia.
Qed.

Lemma unspent_peaks l N :
  0 <= N < 2 ^ 63 ->
  unspent l N = flat_map (fun p => leavesIn l (snd p) (fst p)) (mmrPeaks 63 N 0).
Proof.
  intros HN. rewrite mmrPeaks_leaves; [reflexivity|]. exact HN.
Qed.

(** ** Height and peaks of the layout *)

Lemma peakLoop_pow2_step {A} (body : Z -> A -> A) fuel (k : nat) st :
  peakLoop body (S fuel) (pow2 (S k) - 1) st =
  peakLoop body fuel (pow2 k - 1) (body (pow2 (S k) - 1) st).
Proof. apply peakLoop_step. Qed.

(** The tail of the height loop: below the height of the node the
    residue loses one peak size per round and ends at the height. *)
Lemma height_loop_tail (h : nat) : forall (k : nat) fuel,
  (k <= h)%nat -> (h < 63)%nat -> (k <= fuel)%nat ->
  peakLoop NodeIdx.height_body fuel (pow2 k - 1)
    (2 * pow2 k + Z.of_nat h - Z.of_nat k - 2) = Z.of_nat h.
Proof.
  induction k as [|k IH]; intros fuel Hk Hh Hf.
  - rewrite pow2_0. change (1 - 1) with 0. rewrite peakLoop_zero. lia.
  - destruct fuel as [|fuel]; [lia|].
    rewrite peakLoop_pow2_step. pose proof (pow2_pos k).
    assert (pow2 (S k) < 2 ^ 63).
    { pose proof (pow2_lt_mono (S k) 63 ltac:(lia)). exact H0. }
    rewrite pow2_S in *.
    unfold NodeIdx.height_body at 2.
    replace (2 * pow2 k - 1 <=? 2 * (2 * pow2 k) + Z.of_nat h - Z.of_nat (S k) - 2)
      with true by (symmetry; apply Z.leb_le; lia).
    rewrite u64_small by lia.
    replace (2 * (2 * pow2 k) + Z.of_nat h - Z.of_nat (S k) - 2 - (2 * pow2 k - 1))
      with (2 * pow2 k + Z.of_nat h - Z.of_nat k - 2) by lia.
    apply IH; lia.
Qed.

(** The head of the height loop: above the height of the node the loop
    strips the peaks to the left of the subtree. *)
Lemma height_loop_head (h : nat) : forall (d : nat) fuel j,
  (h < 63)%nat -> (S h + d <= fuel)%nat -> (S h + d <= 64)%nat ->
  0 <= j < pow2 (S h + d) -> j mod pow2 (S h) = 0 -> j < 2 ^ 63 ->
  peakLoop NodeIdx.height_body fuel (pow2 (S h + d) - 1)
    (mmrSize j + 2 * pow2 h - 2) = Z.of_nat h.
Proof.
  induction d as [|d IH]; intros fuel j Hh Hf Hd Hj Hm Hj63.
  - rewrite Nat.add_0_r in *.
    assert (j = 0).
    { pose proof (pow2_pos (S h)).
      pose proof (Z.div_mod j (pow2 (S h)) ltac:(lia)).
      assert (j / pow2 (S h) = 0) by (apply Z.div_small; lia). lia. }
    subst j. rewrite mmrSize_0.
    destruct fuel as [|fuel]; [lia|].
    rewrite peakLoop_pow2_step. pose proof (pow2_pos h). rewrite pow2_S.
    unfold NodeIdx.height_body at 2.
    replace (2 * pow2 h - 1 <=? 0 + 2 * pow2 h - 2)
      with false by (symmetry; apply Z.leb_gt; lia).
    replace (0 + 2 * pow2 h - 2)
      with (2 * pow2 h + Z.of_nat h - Z.of_nat h - 2) by lia.
    apply height_loop_tail; lia.
  - replace (S h + S d)%nat with (S (S h + d)) in * by lia.
    destruct fuel as [|fuel]; [lia|].
    rewrite peakLoop_pow2_step.
    pose proof (pow2_pos (S h + d)). pose proof (pow2_pos h).
    assert (Hhd : pow2 (S h) <= pow2 (S h + d)) by (apply pow2_le_mono; lia).
    rewrite pow2_S in Hj. rewrite (pow2_S (S h + d)).
    destruct (Z_lt_dec j (pow2 (S h + d))) as [Hlt|Hge].
    + (* the peak is not there: [j] is a multiple of [2^(h+1)] below it *)
      assert (j <= pow2 (S h + d) - pow2 (S h)).
      { pose proof (pow2_pos (S h)).
        pose proof (Z.div_mod j (pow2 (S h)) ltac:(lia)).
        assert (Hdiv : pow2 (S h + d) mod pow2 (S h) = 0).
        { unfold pow2. rewrite Nat2Z.inj_add, Z.pow_add_r by lia.
          apply Z_mod_mult' || (rewrite Z.mul_comm; apply Z_mod_mult). }
        pose proof (Z.div_mod (pow2 (S h + d)) (pow2 (S h)) ltac:(lia)).
        assert (j / pow2 (S h) < pow2 (S h + d) / pow2 (S h)) by nia.
        nia. }
      pose proof (mmrSize_bounds j ltac:(lia)). rewrite pow2_S in H1.
      unfold NodeIdx.height_body at 2.
      replace (2 * pow2 (S h + d) - 1 <=? mmrSize j + 2 * pow2 h - 2)
        with false by (symmetry; apply Z.leb_gt; lia).
      apply IH; lia.
    + set (j' := j - pow2 (S h + d)).
      assert (Hj' : 0 <= j' < pow2 (S h + d)) by (unfold j'; lia).
      assert (Em : mmrSize j = 2 * pow2 (S h + d) - 1 + mmrSize j').
      { replace j with (pow2 (S h + d) + j') by (unfold j'; lia).
        unfold pow2 at 1 2. rewrite mmrSize_top by exact Hj'.
        rewrite Z.pow_add_r by lia. unfold pow2. lia. }
      pose proof (mmrSize_bounds j' ltac:(lia)).
      unfold NodeIdx.height_body at 2. rewrite Em.
      replace (2 * pow2 (S h + d) - 1 <=?
               2 * pow2 (S h + d) - 1 + mmrSize j' + 2 * pow2 h - 2)
        with true by (symmetry; apply Z.leb_le; lia).
      replace (2 * pow2 (S h + d) - 1 + mmrSize j' + 2 * pow2 h - 2 -
               (2 * pow2 (S h + d) - 1))
        with (mmrSize j' + 2 * pow2 h - 2) by lia.
      assert (pow2 h < 2 ^ 63).
      { pose proof (pow2_lt_mono h 63 ltac:(lia)). exact H2. }
      pose proof (pow2_S h) as HSh.
      rewrite u64_small by (unfold j' in *; lia).
      apply IH; try lia.
      * unfold j'. rewrite Zminus_mod, Hm.
        assert (Hdiv : pow2 (S h + d) mod pow2 (S h) = 0).
        { unfold pow2. rewrite Nat2Z.inj_add, Z.pow_add_r by lia.
          rewrite Z.mul_comm. apply Z_mod_mult. }
        rewrite Hdiv. reflexivity.
Qed.

(** The root of a peak of height [h] has height [h]. *)
Lemma height_subtreeRoot N (h : nat) first :
  N < 2 ^ 63 -> validSubtree N first h -> first mod pow2 (S h) = 0 ->
  NodeIdx.height (subtreeRoot first h) = Z.of_nat h.
Proof.
  intros HN Hv Hm.
  pose proof (validSubtree_height N _ _ HN Hv) as (Hh & Hp).
  pose proof (subtreeRoot_range N _ _ HN Hv) as (R0 & R1 & R2 & R3).
  destruct Hv as (H0 & _ & Hn). pose proof (pow2_pos h).
  destruct h as [|h].
  - rewrite subtreeRoot_leaf, <- nodeIdx_small by lia.
    apply height_nodeIdx. lia.
  - unfold NodeIdx.height. rewrite firstPeakSize_eq by lia.
    destruct (Len64_nat (subtreeRoot first (S h)) ltac:(lia)) as (k & Ek & Hk).
    rewrite Ek. fold (pow2 k).
    pose proof (Len64_spec (subtreeRoot first (S h)) ltac:(lia)) as Hs.
    rewrite Ek in Hs. fold (pow2 k) in Hs.
    assert (Hkh : (S (S h) <= k)%nat).
    { destruct (le_lt_dec (S (S h)) k) as [|Hlt]; [assumption|exfalso].
      pose proof (pow2_le_mono k (S h) ltac:(lia)).
      unfold subtreeRoot in Hs. rewrite !pow2_S in *.
      pose proof (pow2_pos h). lia. }
    replace k with (S (S h) + (k - S (S h)))%nat by lia.
    unfold subtreeRoot.
    apply height_loop_head; try lia.
    + replace (S (S h) + (k - S (S h)))%nat with k by lia.
      pose proof (mmrSize_bounds first H0). unfold subtreeRoot in Hs.
      pose proof (pow2_pos (S h)). lia.
Qed.

(** The peak loop of [calcPeaks] on a valid MMR size. *)
Lemma calcPeaks_loop (k : nat) : forall fuel n first acc,
  (k <= fuel)%nat -> 0 <= n < pow2 k -> 0 <= first ->
  first mod pow2 k = 0 -> first + n < 2 ^ 63 ->
  peakLoop calcPeaks_body fuel (pow2 k - 1) (acc, mmrSize first, mmrSize n) =
  (acc ++ map rootOf (mmrPeaks k n first), mmrSize (first + n), 0).
Proof.
  induction k as [|k IH]; intros fuel n first acc Hf Hn H0 Hm H63.
  - rewrite pow2_0 in *. assert (n = 0) by lia. subst n.
    change (1 - 1) with 0. rewrite peakLoop_zero. cbn [mmrPeaks map].
    rewrite app_nil_r, Z.add_0_r. reflexivity.
  - destruct fuel as [|fuel]; [lia|].
    rewrite peakLoop_pow2_step. cbn [mmrPeaks].
    pose proof (pow2_pos k). rewrite pow2_S in *.
    pose proof (mmrSize_bounds first H0). pose proof (mmrSize_bounds n ltac:(lia)).
    destruct (pow2 k <=? n) eqn:E.
    + apply Z.leb_le in E.
      assert (Em : mmrSize n = 2 * pow2 k - 1 + mmrSize (n - pow2 k)).
      { replace n with (pow2 k + (n - pow2 k)) at 1 by lia.
        unfold pow2 at 1 2. rewrite mmrSize_top by (fold (pow2 k); lia).
        rewrite Z.pow_add_r by lia. unfold pow2. lia. }
      pose proof (mmrSize_bounds (n - pow2 k) ltac:(lia)).
      unfold calcPeaks_body at 2.
      replace (2 * pow2 k - 1 <=? mmrSize n) with true
        by (symmetry; apply Z.leb_le; lia).
      rewrite !u64_small by lia.
      replace (mmrSize n - (2 * pow2 k - 1)) with (mmrSize (n - pow2 k)) by lia.
      assert (Eq : mmrSize (first + pow2 k) = mmrSize first + (2 * pow2 k - 1)).
      { rewrite (mmrSize_add_low (S k)) by (rewrite ?pow2_S; lia || assumption).
        rewrite mmrSize_pow2. lia. }
      rewrite <- Eq.
      rewrite IH; try lia.
      * cbn [map]. rewrite <- app_assoc. cbn [app].
        unfold rootOf at 2, subtreeRoot. cbn [fst snd].
        replace (mmrSize first + 2 * pow2 k - 2)
          with (mmrSize (first + pow2 k) - 1) by lia.
        replace (first + pow2 k + (n - pow2 k)) with (first + n) by lia.
        reflexivity.
      * rewrite <- pow2_S in Hm. apply mod_pow2_S in Hm.
        rewrite <- Zplus_mod_idemp_l, Hm, Z.add_0_l. apply Z_mod_same_full.
    + apply Z.leb_gt in E.
      unfold calcPeaks_body at 2.
      replace (2 * pow2 k - 1 <=? mmrSize n) with false
        by (symmetry; apply Z.leb_gt; lia).
      apply IH; try lia. apply mod_pow2_S. rewrite pow2_S. exact Hm.
Qed.

(** [calcPeaks] returns the roots of the peaks of the MMR. *)
Lemma calcPeaks_mmrPeaks N :
  0 <= N < 2 ^ 63 ->
  calcPeaks (LeafIdx.nodeIdx N) = map rootOf (mmrPeaks 63 N 0).
Proof.
  intros HN. rewrite nodeIdx_small by lia.
  pose proof (mmrSize_lt_64 N HN) as Hm.
  unfold calcPeaks. rewrite firstPeakSize_eq by exact Hm.
  destruct (Len64_nat _ Hm) as (k & Ek & Hk). rewrite Ek. fold (pow2 k).
  pose proof (Len64_spec (mmrSize N) ltac:(lia)) as Hs.
  rewrite Ek in Hs. fold (pow2 k) in Hs.
  pose proof (mmrSize_bounds N ltac:(lia)).
  rewrite <- mmrSize_0 at 1.
  rewrite calcPeaks_loop; try lia.
  - cbn [fst app].
    destruct (le_lt_dec k 63) as [Hle|Hgt].
    + rewrite (mmrPeaks_more k 63) by lia. reflexivity.
    + rewrite (mmrPeaks_more 63 k); [reflexivity| |lia].
      unfold pow2. simpl Z.of_nat. lia.
  - apply Zmod_0_l.
Qed.

(** ** Counting the unspent leaves *)

Lemma unspent_app l a b :
  0 <= a -> 0 <= b ->
  unspent l (a + b) = unspent l a ++ List.filter (Leafset.contains l) (seqZ a b).
Proof.
  intros Ha Hb. unfold unspent.
  rewrite seqZ_app by lia. rewrite List.filter_app. reflexivity.
Qed.

Lemma before_add l (h : nat) first :
  0 <= first ->
  before l (first + pow2 h) = (before l first + length (leavesIn l h first))%nat.
Proof.
  intros Hf. unfold before. pose proof (pow2_pos h).
  rewrite unspent_app by lia. rewrite length_app, leavesIn_filter. reflexivity.
Qed.

Lemma filter_none {A} (f : A -> bool) (xs : list A) :
  (forall x, In x xs -> f x = false) -> List.filter f xs = [].
Proof.
  induction xs as [|x xs IH]; intros H; [reflexivity|].
  cbn [List.filter]. rewrite (H x) by (left; reflexivity).
  apply IH. intros y Hy. apply H. right. exact Hy.
Qed.

Lemma In_seqZ x a b : In x (seqZ a b) <-> a <= x < a + b.
Proof. rewrite <- list_elem_of_In. apply elem_of_seqZ. Qed.

Lemma unspent_In l N x :
  In x (unspent l N) <-> 0 <= x < N /\ Leafset.contains l x = true.
Proof.
  unfold unspent. rewrite List.filter_In, In_seqZ. intuition lia.
Qed.

Lemma before_same l a b :
  0 <= a <= b ->
  (forall i, a <= i < b -> Leafset.contains l i = false) ->
  before l b = before l a.
Proof.
  intros Hab H. unfold before.
  replace b with (a + (b - a)) by lia.
  rewrite unspent_app by lia.
  rewrite filter_none; [rewrite app_nil_r; reflexivity|].
  intros x Hx. apply In_seqZ in Hx. apply H. lia.
Qed.

Lemma unspent_lookup l N x :
  0 <= x < N -> Leafset.contains l x = true ->
  unspent l N !! before l x = Some x.
Proof.
  intros Hx Hc. unfold before.
  replace N with (x + (N - x)) at 1 by lia.
  rewrite unspent_app by lia.
  rewrite lookup_app_r by lia. rewrite Nat.sub_diag.
  rewrite seqZ_cons by lia. cbn [List.filter]. rewrite Hc. reflexivity.
Qed.

(** ** Single steps, run forward *)

Lemma nextHash_run n v :
  (hashesUsed v < length (ProofHashes (mwebUtxos v)))%nat ->
  exists v',
    nextHash n v =
      Some (Some (nth (hashesUsed v) (ProofHashes (mwebUtxos v)) []), v') /\
    frame v v' /\ leavesUsed v' = leavesUsed v /\
    hashesUsed v' = S (hashesUsed v) /\
    (forall k, is_proof v' k = true <-> k = n \/ is_proof v k = true).
Proof.
  intros Hlt. unfold nextHash.
  destruct (decide _) as [E|E]; [lia|].
  destruct (lookup_lt_is_Some_2 _ _ Hlt) as [x Hx]. rewrite Hx.
  eexists. split.
  { erewrite nth_lookup_Some by exact Hx. reflexivity. }
  split; [repeat split|]. split; [reflexivity|]. split; [reflexivity|].
  intros k. exact (is_proof_mark n (set_cursors _ _ v) k).
Qed.

Lemma nextLeaf_run v u :
  Utxos (mwebUtxos v) !! leavesUsed v = Some u ->
  exists v',
    nextLeaf v = Some ((LeafIndex u, Some (OutputId u)), v') /\
    frame v v' /\ leavesUsed v' = S (leavesUsed v) /\
    hashesUsed v' = hashesUsed v /\ (forall k, is_proof v' k = is_proof v k).
Proof.
  intros Hu. unfold nextLeaf.
  pose proof (lookup_lt_Some _ _ _ Hu).
  destruct (decide _) as [E|E]; [lia|]. rewrite Hu.
  eexists. split; [reflexivity|]. repeat split.
Qed.

(** ** The two passes over a batch of the honest shape *)

Lemma bind_run {A B} (mm : M A) (k : A -> M B) v a v1 :
  mm v = Some (a, v1) -> bind mm k v = k a v1.
Proof. intros H. unfold bind. rewrite H. reflexivity. Qed.

Lemma marksDone_mono l v v' (h : nat) : forall first,
  marks_le v v' -> marksDone l v h first -> marksDone l v' h first.
Proof.
  induction h as [|h IH]; intros first Hm; [auto|].
  cbn [marksDone]. intros [H1 H2]. split.
  - destruct (hasLeaf l h first); auto.
  - destruct (hasLeaf l h (first + pow2 h)); auto.
Qed.

Lemma marks_le_iff v v' n :
  (forall k, is_proof v' k = true <-> k = n \/ is_proof v k = true) ->
  marks_le v v'.
Proof. intros H k Hk. apply H. right. exact Hk. Qed.

Lemma marksSound_mark l N v v' n first (h : nat) :
  (forall k, is_proof v' k = true <-> k = n \/ is_proof v k = true) ->
  marksSound l N v -> validSubtree N first h -> hasLeaf l h first = false ->
  n = subtreeRoot first h -> marksSound l N v'.
Proof.
  intros H Hs Hv Hh -> x Hx. apply H in Hx as [->|Hx]; [|auto].
  right. exists first, h. auto.
Qed.

Lemma marksBelow_mark v v' n b b' :
  (forall k, is_proof v' k = true <-> k = n \/ is_proof v k = true) ->
  marksBelow v b -> b <= b' -> n < b' -> marksBelow v' b'.
Proof.
  intros H Hb Hle Hn x Hx. apply H in Hx as [->|Hx]; [lia|].
  specialize (Hb x Hx). lia.
Qed.

Lemma marksBelow_le v b b' : marksBelow v b -> b <= b' -> marksBelow v b'.
Proof. intros Hb Hle x Hx. specialize (Hb x Hx). lia. Qed.

Lemma calcNodeHash_pulled blake3 n (h : nat) v :
  pulled v n = true -> calcNodeHash blake3 n h v = nextHash n v.
Proof.
  intros Hp. destruct h; [rewrite calcNodeHash_O|rewrite calcNodeHash_S];
    rewrite Hp; reflexivity.
Qed.

Lemma marks_eq_refl v : marks_eq v v.
Proof. intros x. reflexivity. Qed.

Lemma marks_eq_trans v1 v2 v3 : marks_eq v1 v2 -> marks_eq v2 v3 -> marks_eq v1 v3.
Proof. intros H1 H2 x. rewrite H2, H1. reflexivity. Qed.

Lemma marks_eq_le v v' : marks_eq v v' -> marks_le v v'.
Proof. intros H x Hx. rewrite H. exact Hx. Qed.

Lemma marks_eq_marked v v' n :
  (forall k, is_proof v' k = true <-> k = n \/ is_proof v k = true) ->
  is_proof v n = true -> marks_eq v v'.
Proof.
  intros H Hn x. destruct (is_proof v x) eqn:E.
  - apply H. right. exact E.
  - destruct (is_proof v' x) eqn:E'; [|reflexivity].
    apply H in E' as [->|E']; congruence.
Qed.

Lemma marksSound_eq l N v v' : marks_eq v v' -> marksSound l N v -> marksSound l N v'.
Proof. intros H Hs x Hx. rewrite H in Hx. auto. Qed.

Lemma rebuildAt_empty blake3 l m (h : nat) f lu hu :
  hasLeaf l h f = false -> rebuildAt blake3 l m h f lu hu = proofHashAt m hu.
Proof. intros He. destruct h; cbn [rebuildAt hasLeaf] in *; rewrite He; reflexivity. Qed.

Lemma peaksDone_mono l last v v' : forall ps,
  marks_le v v' -> peaksDone l last v ps -> peaksDone l last v' ps.
Proof.
  induction ps as [|p rest IH]; intros Hm; [auto|].
  cbn [peaksDone]. intros [H1 H2]. split.
  - destruct (hasLeaf l (snd p) (fst p)); [eapply marksDone_mono; eauto|auto].
  - destruct (last <? fst p + pow2 (snd p)); auto.
Qed.

Lemma peaksChain_firsts N : forall ps f k,
  peaksChain N f k ps -> forall q, In q ps ->
  f <= fst q /\ fst q mod pow2 (snd q) = 0.
Proof.
  induction ps as [|p rest IH]; intros f k Hc q Hq; [destruct Hq|].
  cbn [peaksChain] in Hc. destruct Hc as (Hf & Hk & H0 & Hm & Hn & Hrest).
  destruct Hq as [<-|Hq].
  - split; [lia|]. rewrite Hf. apply mod_pow2_S. exact Hm.
  - destruct (IH _ _ Hrest q Hq) as [H1 H2]. pose proof (pow2_pos (snd p)).
    split; [lia|exact H2].
Qed.

(** The roots of the peaks ascend. *)
Lemma peaksChain_roots N p rest f k :
  peaksChain N f k (p :: rest) -> forall q, In q rest -> rootOf p < rootOf q.
Proof.
  cbn [peaksChain]. intros (Hf & Hk & H0 & Hm & Hn & Hrest) q Hq.
  destruct (peaksChain_firsts N _ _ _ Hrest q Hq) as [H1 H2].
  unfold rootOf. rewrite Hf.
  pose proof (mmrSize_after_subtree (snd p) f H0 (mod_pow2_S _ _ Hm)).
  pose proof (pow2_pos (snd p)). pose proof (pow2_pos (snd q)).
  pose proof (mmrSize_le_mono (f + pow2 (snd p)) (fst q) ltac:(lia)).
  unfold subtreeRoot at 2. lia.
Qed.

Lemma index_last {A} (xs : list A) (x : A) :
  index (xs ++ [x]) (Z.of_nat (length (xs ++ [x])) - 1) = Some x.
Proof.
  unfold index. rewrite length_app. cbn [length].
  replace (Z.of_nat (length xs + 1) - 1 <? 0) with false
    by (symmetry; apply Z.ltb_ge; lia).
  replace (Z.to_nat (Z.of_nat (length xs + 1) - 1)) with (length xs) by lia.
  rewrite lookup_app_r by lia. rewrite Nat.sub_diag. reflexivity.
Qed.

Lemma bind_get {B} (k : verifyMwebUtxosVars -> M B) v : bind get k v = k v v.
Proof. reflexivity. Qed.

Section Walk.

Variable blake3 : list Z -> Hash.
Variable l : leafset.
Variable N : Z.
Variable m : MsgMwebUtxos.
Variables first last : Z.

Hypothesis HN : 0 < N < 2 ^ 63.
Hypothesis Hfirst : 0 <= first /\ Leafset.contains l first = true.
Hypothesis Hlast : last < N /\ Leafset.contains l last = true.
Hypothesis Hrange : forall i,
  0 <= i -> Leafset.contains l i = true -> first <= i <= last.
Hypothesis Hidx : map LeafIndex (Utxos m) = unspent l N.

Lemma first_le_last : first <= last.
Proof. apply Hrange; apply Hfirst. Qed.

Lemma nodeIdx_first : LeafIdx.nodeIdx first = mmrSize first.
Proof. pose proof first_le_last. apply nodeIdx_small. lia. Qed.

Lemma nodeIdx_last : LeafIdx.nodeIdx last = mmrSize last.
Proof. pose proof first_le_last. apply nodeIdx_small. lia. Qed.

Lemma walkState_frame v v' :
  walkState l m first last v -> frame v v' -> walkState l m first last v'.
Proof.
  unfold walkState, frame. intros (A & B & C & D) (A' & B' & C' & D').
  split_and!; congruence.
Qed.

Lemma empty_subtree f (h : nat) :
  0 <= f -> (f + pow2 h <= first \/ last < f) -> hasLeaf l h f = false.
Proof.
  intros Hf Hout. destruct (hasLeaf l h f) eqn:E; [|reflexivity].
  apply hasLeaf_spec in E as (i & Hi & Hc).
  specialize (Hrange i ltac:(lia) Hc). lia.
Qed.

Lemma before_empty f (h : nat) :
  0 <= f -> hasLeaf l h f = false -> before l (f + pow2 h) = before l f.
Proof.
  intros Hf He. rewrite before_add by lia.
  rewrite leavesIn_empty by exact He. cbn. lia.
Qed.

Lemma hasLeaf_first f (h : nat) :
  f <= first < f + pow2 h -> hasLeaf l h f = true.
Proof. intros H. apply hasLeaf_spec. exists first. split; [lia|apply Hfirst]. Qed.

Lemma hasLeaf_last f (h : nat) :
  f <= last < f + pow2 h -> hasLeaf l h f = true.
Proof. intros H. apply hasLeaf_spec. exists last. split; [lia|apply Hlast]. Qed.

(** The test that opens [calcNodeHash], on a node the marks have not
    reached yet. *)
Lemma pulled_subtree v f (h : nat) :
  walkState l m first last v -> validSubtree N f h ->
  marksBelow v (mmrSize f) ->
  pulled v (subtreeRoot f h) = (f + pow2 h <=? first).
Proof.
  intros (_ & _ & Hf & _) Hv Hb. unfold pulled. rewrite Hf, nodeIdx_first.
  pose proof (subtreeRoot_range N h f ltac:(lia) Hv) as (R0 & R1 & R2 & R3).
  destruct (is_proof v (subtreeRoot f h)) eqn:E.
  { specialize (Hb _ E). lia. }
  rewrite orb_false_r.
  destruct Hv as (H0 & Hm & Hn).
  pose proof (leaf_before_root h f first H0 Hm ltac:(lia)) as Hiff.
  destruct (Z.ltb_spec (subtreeRoot f h) (mmrSize first));
    destruct (Z.leb_spec (f + pow2 h) first); try reflexivity; lia.
Qed.

(** The test that guards the descent into the right child. *)
Lemma cut_test v f (h : nat) :
  walkState l m first last v -> validSubtree N f (S h) ->
  (LeafIdx.nodeIdx (lastLeafIdx v) <=?
     NodeIdx.left (subtreeRoot f (S h)) (Z.of_nat (S h))) =
  (last <? f + pow2 h).
Proof.
  intros (_ & _ & _ & Hl) Hv. rewrite Hl, nodeIdx_last.
  rewrite (NodeIdx_left_subtree N) by (lia || assumption).
  pose proof first_le_last.
  pose proof (validSubtree_left N h f Hv) as (H0 & Hm & Hn).
  pose proof (leaf_before_root h f last H0 Hm ltac:(lia)) as Hiff.
  destruct (Z.leb_spec (mmrSize last) (subtreeRoot f h));
    destruct (Z.ltb_spec last (f + pow2 h)); try reflexivity; lia.
Qed.

Lemma utxo_at x :
  0 <= x -> Leafset.contains l x = true ->
  exists u, Utxos m !! before l x = Some u /\ LeafIndex u = x.
Proof.
  intros Hx Hc.
  assert (Hlt : x < N) by (specialize (Hrange x Hx Hc); lia).
  pose proof (unspent_lookup l N x ltac:(lia) Hc) as Hu.
  rewrite <- Hidx, list_lookup_fmap in Hu.
  destruct (Utxos m !! before l x) as [u|]; [|discriminate].
  exists u. split; [reflexivity|]. cbn in Hu. congruence.
Qed.

Lemma leafIdx_subtreeRoot f :
  validSubtree N f 0 -> NodeIdx.leafIdx (subtreeRoot f 0) = f.
Proof.
  intros (H0 & _ & Hn). rewrite pow2_0 in Hn.
  rewrite subtreeRoot_leaf, <- nodeIdx_small by lia.
  apply leafIdx_nodeIdx. lia.
Qed.


(** A node before the first leaf of the batch is answered by a proof
    hash. *)
Lemma calc_before v f (h : nat) :
  walkState l m first last v -> validSubtree N f h ->
  marksSound l N v -> marksBelow v (mmrSize f) ->
  f + pow2 h <= first ->
  (hashesUsed v < length (ProofHashes m))%nat ->
  exists r v',
    calcNodeHash blake3 (subtreeRoot f h) h v = Some (Some r, v') /\
    frame v v' /\ marks_le v v' /\ marksSound l N v' /\
    marksBelow v' (subtreeRoot f h + 1) /\
    leavesUsed v' = leavesUsed v /\ hashesUsed v' = S (hashesUsed v) /\
    is_proof v' (subtreeRoot f h) = true.
Proof.
  intros Hw Hv Hs Hb Hlt Hbud.
  pose proof (subtreeRoot_range N h f ltac:(lia) Hv) as (R0 & R1 & R2 & R3).
  rewrite calcNodeHash_pulled
    by (rewrite (pulled_subtree v f h Hw Hv Hb); apply Z.leb_le; lia).
  destruct Hw as (Hm & _).
  destruct (nextHash_run (subtreeRoot f h) v ltac:(rewrite Hm; exact Hbud))
    as (v' & Hrun & Hf & Hlu & Hhu & Hmk).
  eexists _, v'. split; [exact Hrun|].
  split; [exact Hf|]. split; [eapply marks_le_iff; exact Hmk|].
  split.
  { eapply marksSound_mark; eauto.
    apply empty_subtree; [apply Hv|lia]. }
  split; [eapply marksBelow_mark; eauto; lia|].
  split; [exact Hlu|]. split; [exact Hhu|].
  apply Hmk. left. reflexivity.
Qed.

(** The first pass over a subtree: it consumes as many proof hashes
    as the subtree needs and marks the roots of its maximal subtrees
    without unspent leaf. *)
Lemma calc_first (h : nat) : forall f v,
  validSubtree N f h -> f <= last -> walkState l m first last v ->
  marksSound l N v -> marksBelow v (mmrSize f) ->
  leavesUsed v = before l f ->
  (hashesUsed v + needs l h f <= length (ProofHashes m))%nat ->
  exists r v',
    calcNodeHash blake3 (subtreeRoot f h) h v = Some (r, v') /\
    frame v v' /\ marks_le v v' /\ marksSound l N v' /\
    marksBelow v' (subtreeRoot f h + 1) /\
    leavesUsed v' = before l (f + pow2 h) /\
    (if hasLeaf l h f
     then r <> None /\ hashesUsed v' = (hashesUsed v + needs l h f)%nat /\
          marksDone l v' h f
     else if f + pow2 h <=? first
     then r <> None /\ hashesUsed v' = S (hashesUsed v) /\
          is_proof v' (subtreeRoot f h) = true
     else r = None /\ v' = v).
Proof.
  induction h as [|h IH]; intros f v Hv Hfl Hw Hs Hb Hlu Hbud.
  all: pose proof Hv as (Hf0 & Hfm & HfN).
  all: match goal with
       | |- context [calcNodeHash _ (subtreeRoot _ ?hh) _ _] =>
           pose proof (subtreeRoot_range N hh f ltac:(lia) Hv) as (R0 & R1 & R2 & R3);
           destruct (Z.leb_spec (f + pow2 hh) first) as [Hbef|Haft];
           [assert (He : hasLeaf l hh f = false)
              by (apply empty_subtree; [exact Hf0|left; exact Hbef]);
            rewrite needs_empty in Hbud by exact He;
            destruct (calc_before v f hh Hw Hv Hs Hb Hbef ltac:(lia))
              as (r & v' & Hrun & Hfr & Hml & Hs' & Hb' & Hlu' & Hhu' & Hmk);
            exists (Some r), v'; rewrite He;
            (split; [exact Hrun|]); (split; [exact Hfr|]); (split; [exact Hml|]);
            (split; [exact Hs'|]); (split; [exact Hb'|]);
            (split; [rewrite Hlu', Hlu; symmetry; apply before_empty; assumption|]);
            replace (f + pow2 hh <=? first) with true
              by (symmetry; apply Z.leb_le; exact Hbef);
            split_and!; [congruence|exact Hhu'|exact Hmk]
           |]
       end.
  - (* a leaf at or after the first one *)
    rewrite calcNodeHash_O, (pulled_subtree v f 0 Hw Hv Hb).
    replace (f + pow2 0 <=? first) with false by (symmetry; apply Z.leb_gt; lia).
    unfold calcLeafHash. unfold bind at 1, get.
    rewrite (leafIdx_subtreeRoot f Hv).
    destruct Hw as (Hm & Hls & Hw3 & Hw4). rewrite Hls.
    cbn [hasLeaf needs] in *.
    destruct (Leafset.contains l f) eqn:Hc; cbn [negb].
    + destruct (utxo_at f Hf0 Hc) as (u & Hu & Hux).
      destruct (nextLeaf_run v u ltac:(rewrite Hm, Hlu; exact Hu))
        as (v' & Hrun & Hfr & Hlu' & Hhu' & Hmk).
      rewrite (bind_run _ _ _ _ _ Hrun). cbn [fst snd]. rewrite Hux, Z.eqb_refl.
      cbn [negb]. eexists _, v'. split; [reflexivity|].
      split; [exact Hfr|].
      split; [intros k Hk; rewrite Hmk; exact Hk|].
      split; [intros k Hk; rewrite Hmk in Hk; auto|].
      split; [intros k Hk; rewrite Hmk in Hk; specialize (Hb k Hk); lia|].
      split.
      { rewrite Hlu', Hlu, (before_add l 0 f Hf0). cbn [leavesIn].
        rewrite Hc. cbn. lia. }
      split_and!; [congruence|lia|exact I].
    + exists None, v. split; [reflexivity|].
      split; [apply frame_refl|]. split; [apply marks_le_refl|].
      split; [exact Hs|]. split; [eapply marksBelow_le; eauto; lia|].
      split.
      { rewrite Hlu. symmetry. apply before_empty; [exact Hf0|exact Hc]. }
      auto.
  - (* an inner node that reaches the first leaf *)
    rewrite calcNodeHash_S, (pulled_subtree v f (S h) Hw Hv Hb).
    replace (f + pow2 (S h) <=? first) with false by (symmetry; apply Z.leb_gt; lia).
    pose proof (validSubtree_left N h f Hv) as HvL.
    pose proof (validSubtree_right N h f Hv) as HvR.
    pose proof (pow2_pos h) as Hp. pose proof (pow2_S h) as HpS.
    pose proof (subtreeRoot_range N h f ltac:(lia) HvL) as (L0 & L1 & L2 & L3).
    pose proof (subtreeRoot_range N h _ ltac:(lia) HvR) as (Q0 & Q1 & Q2 & Q3).
    pose proof (mmrSize_after_subtree h f Hf0 (proj1 (proj2 HvL))) as Hafter.
    pose proof (subtreeRoot_left h f) as EL.
    pose proof (subtreeRoot_right h f Hf0 Hfm) as ER.
    rewrite (NodeIdx_left_subtree N) by (lia || assumption).
    rewrite (NodeIdx_right_subtree N) by (lia || assumption).
    assert (HbudL : (hashesUsed v + needs l h f <= length (ProofHashes m))%nat).
    { cbn [needs] in Hbud. destruct (hasLeaf l (S h) f) eqn:E; [lia|].
      cbn [hasLeaf] in E. apply orb_false_iff in E as [E _].
      rewrite needs_empty by exact E. lia. }
    destruct (IH f v HvL Hfl Hw Hs Hb Hlu HbudL)
      as (rl & v1 & HrunL & HfrL & HmlL & HsL & HbL & HluL & HcaseL).
    rewrite (bind_run _ _ _ _ _ HrunL).
    pose proof (walkState_frame _ _ Hw HfrL) as Hw1.
    unfold rightChild.
    rewrite (cut_test v f h Hw Hv).
    rewrite (NodeIdx_right_subtree N) by (lia || assumption).
    cbn [hasLeaf needs] in *.
    destruct (Z.ltb_spec last (f + pow2 h)) as [Hcut|Hnocut].
    + (* the last leaf is on the left: the right child is a proof hash *)
      assert (EhL : hasLeaf l h f = true) by (apply hasLeaf_last; lia).
      assert (EhR : hasLeaf l h (f + pow2 h) = false)
        by (apply empty_subtree; [lia|right; lia]).
      rewrite EhL, EhR in *. cbn [orb] in *.
      rewrite (needs_empty l h (f + pow2 h) EhR) in *.
      destruct HcaseL as (HrL & HhuL & HdL).
      destruct rl as [lh|]; [|congruence].
      destruct Hw1 as (Hm1 & Hw1').
      destruct (nextHash_run (subtreeRoot (f + pow2 h) h) v1
                  ltac:(rewrite Hm1; lia))
        as (v2 & HrunR & HfrR & HluR & HhuR & HmkR).
      rewrite (bind_run _ _ _ _ _ HrunR). cbn [joinChildren].
      eexists _, v2. split; [reflexivity|].
      split; [eauto using frame_trans|].
      split; [eapply marks_le_trans; [exact HmlL|eapply marks_le_iff; exact HmkR]|].
      split; [exact (marksSound_mark l N _ _ _ (f + pow2 h) h HmkR HsL HvR EhR eq_refl)|].
      split; [eapply marksBelow_mark; eauto; lia|].
      split.
      { rewrite HluR, HluL.
        replace (f + pow2 (S h)) with (f + pow2 h + pow2 h) by lia.
        symmetry. apply before_empty; [lia|exact EhR]. }
      split_and!; [congruence|lia|].
      cbn [marksDone]. rewrite EhL, EhR. split.
      * eapply marksDone_mono; [eapply marks_le_iff; exact HmkR|exact HdL].
      * apply HmkR. left. reflexivity.
    + (* the walk descends into the right child *)
      assert (HbR : marksBelow v1 (mmrSize (f + pow2 h)))
        by (eapply marksBelow_le; eauto; lia).
      assert (HbudR : (hashesUsed v1 + needs l h (f + pow2 h)
                       <= length (ProofHashes m))%nat).
      { destruct (hasLeaf l h f) eqn:EhL.
        - destruct HcaseL as (_ & -> & _). cbn [orb] in Hbud. lia.
        - destruct (f + pow2 h <=? first) eqn:EbL.
          + destruct HcaseL as (_ & -> & _).
            rewrite (needs_empty l h f EhL) in *. cbn [orb] in Hbud.
            destruct (hasLeaf l h (f + pow2 h)) eqn:EhR; [lia|].
            exfalso. apply Z.leb_le in EbL.
            rewrite (hasLeaf_first (f + pow2 h) h) in EhR by lia. discriminate.
          + destruct HcaseL as (_ & ->). cbn [orb] in Hbud.
            destruct (hasLeaf l h (f + pow2 h)) eqn:EhR; [lia|].
            rewrite (needs_empty l h _ EhR). lia. }
      destruct (IH (f + pow2 h) v1 HvR ltac:(lia) Hw1 HsL HbR HluL HbudR)
        as (rr & v2 & HrunR & HfrR & HmlR & HsR & HbR' & HluR & HcaseR).
      rewrite (bind_run _ _ _ _ _ HrunR).
      pose proof (walkState_frame _ _ Hw1 HfrR) as Hw2.
      replace (f + pow2 h + pow2 h) with (f + pow2 (S h)) in * by lia.
      replace (f + pow2 (S h) <=? first) with false in HcaseR
        by (symmetry; apply Z.leb_gt; lia).
      destruct (hasLeaf l h (f + pow2 h)) eqn:EhR.
      * (* the right child has an unspent leaf *)
        destruct HcaseR as (HrR & HhuR & HdR).
        destruct rr as [rh|]; [|congruence].
        rewrite orb_true_r in *.
        destruct (hasLeaf l h f) eqn:EhL.
        -- destruct HcaseL as (HrL & HhuL & HdL).
           destruct rl as [lh|]; [|congruence]. cbn [joinChildren].
           eexists _, v2. split; [reflexivity|].
           split; [eauto using frame_trans|].
           split; [eauto using marks_le_trans|].
           split; [exact HsR|].
           split; [eapply marksBelow_le; eauto; lia|].
           split; [exact HluR|].
           split_and!; [congruence|lia|].
           cbn [marksDone]. rewrite EhL, EhR. split; [|exact HdR].
           eapply marksDone_mono; eauto.
        -- rewrite (needs_empty l h f EhL) in *.
           destruct (f + pow2 h <=? first) eqn:EbL.
           ++ destruct HcaseL as (HrL & HhuL & HmL).
              destruct rl as [lh|]; [|congruence]. cbn [joinChildren].
              eexists _, v2. split; [reflexivity|].
              split; [eauto using frame_trans|].
              split; [eauto using marks_le_trans|].
              split; [exact HsR|].
              split; [eapply marksBelow_le; eauto; lia|].
              split; [exact HluR|].
              split_and!; [congruence|lia|].
              cbn [marksDone]. rewrite EhL, EhR. split; [|exact HdR].
              apply HmlR. exact HmL.
           ++ destruct HcaseL as (-> & ->). cbn [joinChildren].
              destruct Hw2 as (Hm2 & Hw2').
              destruct (nextHash_run (subtreeRoot f h) v2
                          ltac:(rewrite Hm2; lia))
                as (v3 & HrunJ & HfrJ & HluJ & HhuJ & HmkJ).
              rewrite (bind_run _ _ _ _ _ HrunJ).
              eexists _, v3. split; [reflexivity|].
              split; [eauto using frame_trans|].
              split; [eapply marks_le_trans; [exact HmlR|eapply marks_le_iff; exact HmkJ]|].
              split; [exact (marksSound_mark l N _ _ _ f h HmkJ HsR HvL EhL eq_refl)|].
              split; [eapply marksBelow_mark; eauto; lia|].
              split; [rewrite HluJ; exact HluR|].
              split_and!; [congruence|lia|].
              cbn [marksDone]. rewrite EhL, EhR. split.
              ** apply HmkJ. left. reflexivity.
              ** eapply marksDone_mono; [eapply marks_le_iff; exact HmkJ|exact HdR].
      * (* the right child has none *)
        destruct HcaseR as (-> & ->).
        rewrite orb_false_r in *.
        rewrite (needs_empty l h _ EhR) in *.
        destruct (hasLeaf l h f) eqn:EhL.
        -- destruct HcaseL as (HrL & HhuL & HdL).
           destruct rl as [lh|]; [|congruence]. cbn [joinChildren].
           destruct Hw1 as (Hm1 & Hw1').
           destruct (nextHash_run (subtreeRoot (f + pow2 h) h) v1
                       ltac:(rewrite Hm1; lia))
             as (v3 & HrunJ & HfrJ & HluJ & HhuJ & HmkJ).
           rewrite (bind_run _ _ _ _ _ HrunJ).
           eexists _, v3. split; [reflexivity|].
           split; [eauto using frame_trans|].
           split; [eapply marks_le_trans; [exact HmlL|eapply marks_le_iff; exact HmkJ]|].
           split; [exact (marksSound_mark l N _ _ _ (f + pow2 h) h HmkJ HsL HvR EhR eq_refl)|].
           split; [eapply marksBelow_mark; eauto; lia|].
           split; [rewrite HluJ; exact HluR|].
           split_and!; [congruence|lia|].
           cbn [marksDone]. rewrite EhL, EhR. split.
           ** eapply marksDone_mono; [eapply marks_le_iff; exact HmkJ|exact HdL].
           ** apply HmkJ. left. reflexivity.
        -- destruct (f + pow2 h <=? first) eqn:EbL.
           ++ exfalso. apply Z.leb_le in EbL.
              rewrite (hasLeaf_first (f + pow2 h) h) in EhR by lia. discriminate.
           ++ destruct HcaseL as (-> & ->). cbn [joinChildren].
              exists None, v. split; [reflexivity|].
              split; [apply frame_refl|]. split; [apply marks_le_refl|].
              split; [exact Hs|]. split; [eapply marksBelow_le; eauto; lia|].
              split; [exact HluR|]. auto.
Qed.

(** A node with an unspent leaf below it is never answered by a proof
    hash. *)
Lemma pulled_inner v f (h : nat) :
  walkState l m first last v -> validSubtree N f h -> marksSound l N v ->
  hasLeaf l h f = true -> pulled v (subtreeRoot f h) = false.
Proof.
  intros (_ & _ & Hf & _) Hv Hs Hh. unfold pulled. rewrite Hf, nodeIdx_first.
  pose proof (subtreeRoot_range N h f ltac:(lia) Hv) as (R0 & R1 & R2 & R3).
  pose proof Hv as (H0 & Hm & Hn).
  apply orb_false_iff. split.
  - apply hasLeaf_spec in Hh as (i & Hi & Hc).
    specialize (Hrange i ltac:(lia) Hc).
    apply Z.ltb_ge. apply (leaf_before_root h f first H0 Hm); [apply Hfirst|lia].
  - destruct (is_proof v (subtreeRoot f h)) eqn:E; [exfalso|reflexivity].
    destruct (Hs _ E) as [E'|(f' & h' & (H0' & Hm' & Hn') & He & E')]; [lia|].
    destruct (subtreeRoot_inj h h' f f' H0 Hm H0' Hm' E') as [-> ->].
    congruence.
Qed.

(** The second pass over a subtree recomputes its hash from the utxos
    and the proof hashes, both in order. *)
Lemma calc_second (h : nat) : forall f v,
  validSubtree N f h -> walkState l m first last v -> marksSound l N v ->
  leavesUsed v = before l f ->
  (hashesUsed v + needs l h f <= length (ProofHashes m))%nat ->
  (if hasLeaf l h f then marksDone l v h f
   else is_proof v (subtreeRoot f h) = true) ->
  exists v',
    calcNodeHash blake3 (subtreeRoot f h) h v =
      Some (Some (rebuildAt blake3 l m h f (leavesUsed v) (hashesUsed v)), v') /\
    frame v v' /\ marks_eq v v' /\
    leavesUsed v' = before l (f + pow2 h) /\
    hashesUsed v' = (hashesUsed v + needs l h f)%nat.
Proof.
  induction h as [|h IH]; intros f v Hv Hw Hs Hlu Hbud Hd.
  all: pose proof Hv as (Hf0 & Hfm & HfN).
  all: match goal with
       | |- context [calcNodeHash _ (subtreeRoot _ ?hh) _ _] =>
           destruct (hasLeaf l hh f) eqn:Eh;
           [|rewrite calcNodeHash_pulled by (unfold pulled; rewrite Hd; apply orb_true_r);
             rewrite needs_empty in * by exact Eh;
             rewrite rebuildAt_empty by exact Eh;
             destruct Hw as (Hm & _);
             destruct (nextHash_run (subtreeRoot f hh) v ltac:(rewrite Hm; lia))
               as (v' & Hrun & Hfr & Hlu' & Hhu' & Hmk);
             exists v'; rewrite Hm in Hrun;
             (split; [exact Hrun|]); (split; [exact Hfr|]);
             (split; [eapply marks_eq_marked; eauto|]);
             (split; [rewrite Hlu', Hlu; symmetry; apply before_empty; assumption|]);
             lia]
       end.
  - (* an unspent leaf *)
    rewrite calcNodeHash_O, (pulled_inner v f 0 Hw Hv Hs Eh).
    unfold calcLeafHash. unfold bind at 1, get.
    rewrite (leafIdx_subtreeRoot f Hv).
    destruct Hw as (Hm & Hls & Hw3 & Hw4). rewrite Hls.
    cbn [hasLeaf needs rebuildAt] in *. rewrite Eh. cbn [negb].
    destruct (utxo_at f Hf0 Eh) as (u & Hu & Hux).
    destruct (nextLeaf_run v u ltac:(rewrite Hm, Hlu; exact Hu))
      as (v' & Hrun & Hfr & Hlu' & Hhu' & Hmk).
    rewrite (bind_run _ _ _ _ _ Hrun). cbn [fst snd]. rewrite Hux, Z.eqb_refl.
    cbn [negb]. exists v'. split.
    { unfold ret, outputIdAt. rewrite Hlu.
      erewrite (nth_lookup_Some (map OutputId (Utxos m)))
        by (rewrite list_lookup_fmap, Hu; reflexivity).
      reflexivity. }
    split; [exact Hfr|]. split; [exact Hmk|].
    split; [|lia].
    rewrite Hlu', Hlu, (before_add l 0 f Hf0). cbn [leavesIn].
    rewrite Eh. cbn. lia.
  - (* an inner node above an unspent leaf *)
    rewrite calcNodeHash_S, (pulled_inner v f (S h) Hw Hv Hs Eh).
    pose proof (validSubtree_left N h f Hv) as HvL.
    pose proof (validSubtree_right N h f Hv) as HvR.
    pose proof (pow2_pos h) as Hp. pose proof (pow2_S h) as HpS.
    rewrite (NodeIdx_left_subtree N) by (lia || assumption).
    rewrite (NodeIdx_right_subtree N) by (lia || assumption).
    rewrite (needs_S l h f Eh) in *.
    cbn [marksDone] in Hd. destruct Hd as (HdL & HdR).
    destruct (IH f v HvL Hw Hs Hlu ltac:(lia) HdL)
      as (v1 & HrunL & HfrL & HmeL & HluL & HhuL).
    rewrite (bind_run _ _ _ _ _ HrunL).
    pose proof (walkState_frame _ _ Hw HfrL) as Hw1.
    assert (HdR1 : if hasLeaf l h (f + pow2 h)
                   then marksDone l v1 h (f + pow2 h)
                   else is_proof v1 (subtreeRoot (f + pow2 h) h) = true).
    { destruct (hasLeaf l h (f + pow2 h)).
      - eapply marksDone_mono; [apply marks_eq_le; exact HmeL|exact HdR].
      - rewrite HmeL. exact HdR. }
    destruct (IH (f + pow2 h) v1 HvR Hw1 (marksSound_eq _ _ _ _ HmeL Hs)
                HluL ltac:(lia) HdR1)
      as (v2 & HrunR & HfrR & HmeR & HluR & HhuR).
    assert (HrunR' : rightChild blake3 (subtreeRoot f (S h)) h v v1 =
              Some (Some (rebuildAt blake3 l m h (f + pow2 h)
                            (leavesUsed v1) (hashesUsed v1)), v2)).
    { unfold rightChild. rewrite (cut_test v f h Hw Hv).
      rewrite (NodeIdx_right_subtree N) by (lia || assumption).
      destruct (Z.ltb_spec last (f + pow2 h)) as [Hcut|Hnocut]; [|exact HrunR].
      assert (EhR : hasLeaf l h (f + pow2 h) = false)
        by (apply empty_subtree; [lia|right; lia]).
      rewrite EhR in HdR1.
      rewrite <- (calcNodeHash_pulled blake3 _ h)
        by (unfold pulled; rewrite HdR1; apply orb_true_r).
      exact HrunR. }
    rewrite (bind_run _ _ _ _ _ HrunR'). cbn [joinChildren].
    exists v2. split.
    { unfold ret. cbn [rebuildAt]. fold (hasLeaf l (S h) f). rewrite Eh.
      rewrite HluL, HhuL, (before_add l h f Hf0), Hlu. reflexivity. }
    split; [eauto using frame_trans|].
    split; [eauto using marks_eq_trans|].
    split; [|lia].
    rewrite HluR. f_equal. lia.
Qed.

(** *** The walk over the peaks *)

Lemma peak_valid p rest f k :
  peaksChain N f k (p :: rest) ->
  fst p = f /\ validSubtree N f (snd p) /\ f mod pow2 (S (snd p)) = 0 /\
  peaksChain N (f + pow2 (snd p)) (snd p) rest.
Proof.
  cbn [peaksChain]. intros (Hf & Hk & H0 & Hm & Hn & Hrest).
  split; [exact Hf|]. split; [|auto].
  split; [exact H0|]. split; [apply mod_pow2_S; exact Hm|exact Hn].
Qed.

Lemma peak_height f (h : nat) :
  validSubtree N f h -> f mod pow2 (S h) = 0 ->
  Z.to_nat (NodeIdx.height (subtreeRoot f h)) = h.
Proof.
  intros Hv Hm. rewrite (height_subtreeRoot N) by (lia || assumption).
  apply Nat2Z.id.
Qed.

(** The test that ends the walk at the peak of the last leaf. *)
Lemma break_test v f (h : nat) :
  walkState l m first last v -> validSubtree N f h ->
  (LeafIdx.nodeIdx (lastLeafIdx v) <=? subtreeRoot f h) = (last <? f + pow2 h).
Proof.
  intros (_ & _ & _ & Hl) (H0 & Hm & Hn). rewrite Hl, nodeIdx_last.
  pose proof first_le_last.
  pose proof (leaf_before_root h f last H0 Hm ltac:(lia)) as Hiff.
  destruct (Z.leb_spec (mmrSize last) (subtreeRoot f h));
    destruct (Z.ltb_spec last (f + pow2 h)); try reflexivity; lia.
Qed.

Lemma before_end x :
  last < x <= N -> before l x = before l N.
Proof.
  intros Hx. pose proof first_le_last. symmetry.
  apply before_same; [lia|].
  intros i Hi. destruct (Leafset.contains l i) eqn:E; [|reflexivity].
  specialize (Hrange i ltac:(lia) E). lia.
Qed.

(** The first pass over one peak. *)
Lemma peak_first f (h : nat) v :
  validSubtree N f h -> f mod pow2 (S h) = 0 -> f <= last ->
  walkState l m first last v -> marksSound l N v ->
  marksBelow v (mmrSize f) -> leavesUsed v = before l f ->
  (hashesUsed v + needs l h f <= length (ProofHashes m))%nat ->
  exists ph v',
    peakHashOf blake3 (subtreeRoot f h) v = Some (Some ph, v') /\
    frame v v' /\ marks_le v v' /\ marksSound l N v' /\
    marksBelow v' (subtreeRoot f h + 1) /\
    leavesUsed v' = before l (f + pow2 h) /\
    hashesUsed v' = (hashesUsed v + needs l h f)%nat /\
    (if hasLeaf l h f then marksDone l v' h f
     else is_proof v' (subtreeRoot f h) = true).
Proof.
  intros Hv Hal Hfl Hw Hs Hb Hlu Hbud.
  unfold peakHashOf. rewrite (peak_height f h Hv Hal).
  destruct (calc_first h f v Hv Hfl Hw Hs Hb Hlu Hbud)
    as (r & v1 & Hrun & Hfr & Hml & Hs1 & Hb1 & Hlu1 & Hcase).
  rewrite (bind_run _ _ _ _ _ Hrun).
  destruct (hasLeaf l h f) eqn:Eh.
  - destruct Hcase as (Hr & Hhu & Hd). destruct r as [ph|]; [|congruence].
    exists ph, v1. split; [reflexivity|]. auto 10.
  - rewrite (needs_empty l h f Eh) in *.
    destruct (f + pow2 h <=? first).
    + destruct Hcase as (Hr & Hhu & Hd). destruct r as [ph|]; [|congruence].
      exists ph, v1. split; [reflexivity|]. split_and!; auto. lia.
    + destruct Hcase as (-> & ->).
      pose proof (subtreeRoot_range N h f ltac:(lia) Hv) as (R0 & R1 & R2 & R3).
      destruct Hw as (Hm & _).
      destruct (nextHash_run (subtreeRoot f h) v ltac:(rewrite Hm; lia))
        as (v' & Hrun' & Hfr' & Hlu' & Hhu' & Hmk).
      eexists _, v'. split; [exact Hrun'|].
      split; [exact Hfr'|]. split; [eapply marks_le_iff; exact Hmk|].
      split; [exact (marksSound_mark l N _ _ _ f h Hmk Hs Hv Eh eq_refl)|].
      split; [eapply marksBelow_mark; eauto; lia|].
      split; [rewrite Hlu'; exact Hlu1|].
      split; [lia|]. apply Hmk. left. reflexivity.
Qed.

(** The second pass over one peak. *)
Lemma peak_second f (h : nat) v :
  validSubtree N f h -> f mod pow2 (S h) = 0 ->
  walkState l m first last v -> marksSound l N v ->
  leavesUsed v = before l f ->
  (hashesUsed v + needs l h f <= length (ProofHashes m))%nat ->
  (if hasLeaf l h f then marksDone l v h f
   else is_proof v (subtreeRoot f h) = true) ->
  exists v',
    peakHashOf blake3 (subtreeRoot f h) v =
      Some (Some (rebuildAt blake3 l m h f (leavesUsed v) (hashesUsed v)), v') /\
    frame v v' /\ marks_eq v v' /\
    leavesUsed v' = before l (f + pow2 h) /\
    hashesUsed v' = (hashesUsed v + needs l h f)%nat.
Proof.
  intros Hv Hal Hw Hs Hlu Hbud Hd.
  unfold peakHashOf. rewrite (peak_height f h Hv Hal).
  destruct (calc_second h f v Hv Hw Hs Hlu Hbud Hd)
    as (v1 & Hrun & Hrest).
  rewrite (bind_run _ _ _ _ _ Hrun). exists v1. split; [reflexivity|exact Hrest].
Qed.

(** What follows the peak of the last leaf. *)
Lemma bagRest_run pre p rest f k acc v :
  peaksChain N f k (p :: rest) ->
  (hashesUsed v + match rest with [] => 0 | _ => 1 end
     <= length (ProofHashes m))%nat ->
  mwebUtxos v = m ->
  exists v',
    bagRest (mmrSize N) (pre ++ map rootOf (p :: rest)) (rootOf p) acc v =
      Some (Some (acc ++ match rest with
                         | [] => []
                         | _ => [proofHashAt m (hashesUsed v)]
                         end), v') /\
    frame v v' /\ leavesUsed v' = leavesUsed v /\
    hashesUsed v' = (hashesUsed v + match rest with [] => 0 | _ => 1 end)%nat /\
    (forall x, is_proof v' x = true -> x = mmrSize N \/ is_proof v x = true) /\
    marks_le v v'.
Proof.
  intros Hc Hbud Hm. unfold bagRest.
  destruct (exists_last (l := p :: rest) ltac:(discriminate)) as (ini & q & Eq).
  rewrite Eq, map_app, app_assoc. cbn [map]. rewrite index_last.
  destruct rest as [|p' rest'].
  - assert (q = p).
    { destruct ini as [|a [|b ini]]; cbn in Eq; congruence. }
    subst q. rewrite Z.eqb_refl. cbn [negb]. exists v.
    split; [unfold ret; rewrite app_nil_r; reflexivity|].
    split; [apply frame_refl|]. split_and!; auto using marks_le_refl; lia.
  - assert (Hq : In q (p' :: rest')).
    { destruct ini as [|a ini]; [cbn in Eq; discriminate|].
      cbn in Eq. injection Eq as -> Eq. rewrite Eq.
      apply in_or_app. right. left. reflexivity. }
    pose proof (peaksChain_roots N p _ f k Hc q Hq) as Hlt.
    replace (rootOf p =? rootOf q) with false by (symmetry; apply Z.eqb_neq; lia).
    cbn [negb].
    destruct (nextHash_run (mmrSize N) v ltac:(rewrite Hm; lia))
      as (v' & Hrun & Hfr & Hlu & Hhu & Hmk).
    rewrite (bind_run _ _ _ _ _ Hrun). exists v'.
    split; [unfold ret, proofHashAt; rewrite Hm; reflexivity|].
    split; [exact Hfr|]. split; [exact Hlu|]. split; [lia|].
    split; [intros x Hx; apply Hmk; exact Hx|eapply marks_le_iff; exact Hmk].
Qed.

(** The first pass over the peaks: every proof hash is consumed and
    the roots of the maximal subtrees without unspent leaf are
    marked. *)
Lemma walk_first : forall ps pre f k acc v,
  peaksChain N f k ps -> f <= last ->
  walkState l m first last v -> marksSound l N v ->
  marksBelow v (mmrSize f) -> leavesUsed v = before l f ->
  (hashesUsed v + peaksNeeds l last ps <= length (ProofHashes m))%nat ->
  exists hs v',
    peakWalk blake3 (mmrSize N) (pre ++ map rootOf ps) (map rootOf ps) acc v =
      Some (Some hs, v') /\
    frame v v' /\ marks_le v v' /\ marksSound l N v' /\
    leavesUsed v' = before l N /\
    hashesUsed v' = (hashesUsed v + peaksNeeds l last ps)%nat /\
    peaksDone l last v' ps.
Proof.
  induction ps as [|p rest IH]; intros pre f k acc v Hc Hfl Hw Hs Hb Hlu Hbud.
  { cbn [peaksChain] in Hc. destruct Hlast. lia. }
  destruct (peak_valid p rest f k Hc) as (Hf & Hv & Hal & Hrest).
  destruct p as [f' h]. cbn [fst snd] in *. subst f'.
  cbn [peaksNeeds fst snd] in Hbud.
  destruct (peak_first f h v Hv Hal Hfl Hw Hs Hb Hlu ltac:(lia))
    as (ph & v1 & Hrun & Hfr & Hml & Hs1 & Hb1 & Hlu1 & Hhu1 & Hd1).
  pose proof (walkState_frame _ _ Hw Hfr) as Hw1.
  cbn [map peakWalk]. change (rootOf (f, h)) with (subtreeRoot f h).
  rewrite (bind_run _ _ _ _ _ Hrun). cbv zeta. rewrite bind_get.
  rewrite (break_test v1 f h Hw1 Hv).
  cbn [peaksNeeds peaksDone fst snd].
  pose proof Hv as (Hf0 & Hfm & HfN).
  destruct (Z.ltb_spec last (f + pow2 h)) as [Hbr|Hgo].
  - destruct (bagRest_run pre (f, h) rest f k (acc ++ [ph]) v1 Hc
                ltac:(lia) (proj1 Hw1))
      as (v2 & Hrun2 & Hfr2 & Hlu2 & Hhu2 & Hmk2 & Hml2).
    cbn [map] in Hrun2. change (rootOf (f, h)) with (subtreeRoot f h) in Hrun2.
    rewrite Hrun2. eexists _, v2. split; [reflexivity|].
    split; [eauto using frame_trans|]. split; [eauto using marks_le_trans|].
    split.
    { intros x Hx. destruct (Hmk2 x Hx) as [->|Hx1]; [left; reflexivity|auto]. }
    split; [rewrite Hlu2, Hlu1; apply before_end; lia|].
    split; [lia|]. split; [|exact I].
    destruct (hasLeaf l h f); [eapply marksDone_mono; eauto|auto].
  - assert (Hb1' : marksBelow v1 (mmrSize (f + pow2 h))).
    { pose proof (mmrSize_after_subtree h f Hf0 Hfm).
      eapply marksBelow_le; eauto. lia. }
    destruct (IH (pre ++ [subtreeRoot f h]) (f + pow2 h) h (acc ++ [ph]) v1
                Hrest Hgo Hw1 Hs1 Hb1' Hlu1 ltac:(lia))
      as (hs & v2 & Hrun2 & Hfr2 & Hml2 & Hs2 & Hlu2 & Hhu2 & Hd2).
    rewrite <- app_assoc in Hrun2. cbn [app] in Hrun2.
    rewrite Hrun2. exists hs, v2. split; [reflexivity|].
    split; [eauto using frame_trans|]. split; [eauto using marks_le_trans|].
    split; [exact Hs2|]. split; [exact Hlu2|]. split; [lia|].
    split; [|exact Hd2].
    destruct (hasLeaf l h f); [eapply marksDone_mono; eauto|auto].
Qed.

(** The second pass over the peaks recomputes the peak hashes. *)
Lemma walk_second : forall ps pre f k acc v,
  peaksChain N f k ps -> f <= last ->
  walkState l m first last v -> marksSound l N v ->
  leavesUsed v = before l f ->
  (hashesUsed v + peaksNeeds l last ps <= length (ProofHashes m))%nat ->
  peaksDone l last v ps ->
  exists v',
    peakWalk blake3 (mmrSize N) (pre ++ map rootOf ps) (map rootOf ps) acc v =
      Some (Some (acc ++ rebuildPeaks blake3 l m last ps
                           (leavesUsed v) (hashesUsed v)), v') /\
    frame v v' /\
    leavesUsed v' = before l N /\
    hashesUsed v' = (hashesUsed v + peaksNeeds l last ps)%nat.
Proof.
  induction ps as [|p rest IH]; intros pre f k acc v Hc Hfl Hw Hs Hlu Hbud Hd.
  { cbn [peaksChain] in Hc. destruct Hlast. lia. }
  destruct (peak_valid p rest f k Hc) as (Hf & Hv & Hal & Hrest).
  destruct p as [f' h]. cbn [fst snd] in *. subst f'.
  cbn [peaksNeeds peaksDone fst snd] in Hbud, Hd. destruct Hd as (Hd & Hdrest).
  destruct (peak_second f h v Hv Hal Hw Hs Hlu ltac:(lia) Hd)
    as (v1 & Hrun & Hfr & Hme & Hlu1 & Hhu1).
  pose proof (walkState_frame _ _ Hw Hfr) as Hw1.
  cbn [map peakWalk]. change (rootOf (f, h)) with (subtreeRoot f h).
  rewrite (bind_run _ _ _ _ _ Hrun). cbv zeta. rewrite bind_get.
  rewrite (break_test v1 f h Hw1 Hv).
  cbn [peaksNeeds rebuildPeaks fst snd].
  pose proof Hv as (Hf0 & Hfm & HfN).
  destruct (Z.ltb_spec last (f + pow2 h)) as [Hbr|Hgo].
  - destruct (bagRest_run pre (f, h) rest f k
                (acc ++ [rebuildAt blake3 l m h f (leavesUsed v) (hashesUsed v)])
                v1 Hc ltac:(lia) (proj1 Hw1))
      as (v2 & Hrun2 & Hfr2 & Hlu2 & Hhu2 & _).
    cbn [map] in Hrun2. change (rootOf (f, h)) with (subtreeRoot f h) in Hrun2.
    rewrite Hrun2. exists v2. split.
    { rewrite <- app_assoc, Hhu1. cbn [app]. destruct rest; reflexivity. }
    split; [eauto using frame_trans|].
    split; [rewrite Hlu2, Hlu1; apply before_end; lia|lia].
  - destruct (IH (pre ++ [subtreeRoot f h]) (f + pow2 h) h
                (acc ++ [rebuildAt blake3 l m h f (leavesUsed v) (hashesUsed v)])
                v1 Hrest Hgo Hw1 (marksSound_eq _ _ _ _ Hme Hs) Hlu1 ltac:(lia)
                (peaksDone_mono _ _ _ _ _ (marks_eq_le _ _ Hme) Hdrest))
      as (v2 & Hrun2 & Hfr2 & Hlu2 & Hhu2).
    rewrite <- app_assoc in Hrun2. cbn [app] in Hrun2.
    rewrite Hrun2. exists v2. split.
    { rewrite <- app_assoc, Hlu1, Hhu1, (before_add l h f Hf0), Hlu.
      reflexivity. }
    split; [eauto using frame_trans|]. split; [exact Hlu2|lia].
Qed.

End Walk.

(** ** The verifier on a batch of the honest shape *)

(** The head of the set indices of a range is the least of them. *)
Lemma filter_seqZ_head (f : Z -> bool) (k : nat) : forall a n tl,
  List.filter f (seqZ a (Z.of_nat k)) = n :: tl ->
  a <= n < a + Z.of_nat k /\ f n = true /\
  (forall x, a <= x < n -> f x = false) /\
  List.filter f (seqZ n (a + Z.of_nat k - n)) = n :: tl.
Proof.
  induction k as [|k IH]; intros a n tl H; [discriminate|].
  rewrite Nat2Z.inj_succ in *. rewrite seqZ_cons in H by lia.
  cbn [List.filter] in H.
  replace (Z.pred (Z.succ (Z.of_nat k))) with (Z.of_nat k) in H by lia.
  destruct (f a) eqn:E.
  - injection H as <- <-. split; [lia|]. split; [exact E|]. split; [intros; lia|].
    replace (a + Z.succ (Z.of_nat k) - a) with (Z.succ (Z.of_nat k)) by lia.
    rewrite seqZ_cons by lia. cbn [List.filter]. rewrite E.
    replace (Z.pred (Z.succ (Z.of_nat k))) with (Z.of_nat k) by lia. reflexivity.
  - destruct (IH _ _ _ H) as (H1 & H2 & H3 & H4).
    split; [lia|]. split; [exact H2|]. split.
    + intros x Hx. destruct (Z.eq_dec x a) as [->|]; [exact E|]. apply H3. lia.
    + rewrite <- H4. f_equal. f_equal. lia.
Qed.

Lemma bagPeaks_bagHashes blake3 n (hs : list Hash) :
  hs <> [] -> bagPeaks blake3 n hs = Some (bagHashes (parentHash blake3 n) hs).
Proof.
  intros Hne. destruct (exists_last Hne) as (ini & x & ->).
  unfold bagPeaks. rewrite index_last.
  rewrite length_app. cbn [length].
  replace (length ini + 1 - 1)%nat with (length ini) by lia.
  rewrite take_app_length. f_equal. clear Hne.
  induction ini as [|a ini IH]; [reflexivity|].
  cbn [fold_right app]. rewrite IH.
  destruct (ini ++ [x]) eqn:E; [destruct ini; discriminate E|reflexivity].
Qed.

Lemma rebuildPeaks_nonempty blake3 l m last ps lu hu :
  ps <> [] -> rebuildPeaks blake3 l m last ps lu hu <> [].
Proof. destruct ps; [congruence|discriminate]. Qed.

Section Verify.

Variable blake3 : list Z -> Hash.
Variable l : leafset.
Variable N : Z.
Variable m : MsgMwebUtxos.
Variables first last : Z.

Hypothesis HN : 0 < N < 2 ^ 63.
Hypothesis Hfirst : 0 <= first /\ Leafset.contains l first = true.
Hypothesis Hlast : last < N /\ Leafset.contains l last = true.
Hypothesis Hrange : forall i,
  0 <= i -> Leafset.contains l i = true -> first <= i <= last.
Hypothesis Hidx : map LeafIndex (Utxos m) = unspent l N.
Hypothesis Hbits : Z.of_nat (length l) < 2 ^ 61.
Hypothesis Hstart : StartIndex m = first.
Hypothesis Hlen :
  length (ProofHashes m) = peaksNeeds l last (mmrPeaks 63 N 0).

(** The leaf-range walk accepts the unspent leaves and ends at the
    last one. *)
Lemma leafWalk_run : forall fuel i a,
  (fuel + i = length (Utxos m))%nat -> (0 < fuel)%nat ->
  0 <= a < N -> Leafset.contains l a = true ->
  map LeafIndex (drop i (Utxos m)) =
    List.filter (Leafset.contains l) (seqZ a (N - a)) ->
  leafWalk l (Utxos m) fuel i a = Some (Some last).
Proof.
  induction fuel as [|fuel IH]; intros i a Hf Hpos Ha Hc Hd; [lia|].
  cbn [leafWalk]. rewrite Hc. cbn [negb].
  destruct (lookup_lt_is_Some_2 (Utxos m) i ltac:(lia)) as [u Hu]. rewrite Hu.
  rewrite (drop_S _ _ _ Hu) in Hd. cbn [map] in Hd.
  rewrite seqZ_cons in Hd by lia. cbn [List.filter] in Hd. rewrite Hc in Hd.
  injection Hd as Hua Hd. rewrite Hua, Z.eqb_refl. cbn [negb].
  replace (Z.succ a) with (a + 1) in Hd by lia.
  replace (Z.pred (N - a)) with (N - a - 1) in Hd by lia.
  destruct (decide (Z.of_nat i = Z.of_nat (length (Utxos m)) - 1)) as [Hi|Hi].
  - rewrite drop_ge in Hd by lia. cbn [map] in Hd.
    do 2 f_equal.
    pose proof (Hrange a ltac:(lia) Hc).
    destruct (Z.eq_dec a last) as [|Hne]; [assumption|exfalso].
    assert (Hin : In last (List.filter (Leafset.contains l) (seqZ (a + 1) (N - a - 1)))).
    { apply List.filter_In. split; [apply In_seqZ; lia|apply Hlast]. }
    rewrite <- Hd in Hin. destruct Hin.
  - destruct (nextUnspent_total l a ltac:(lia) Hc) as (j & Hj & Hjr).
    rewrite Hj.
    pose proof (contains_lt l a ltac:(lia) Hc) as Hlt.
    destruct (nextUnspent_loop_spec l _ a j ltac:(lia) ltac:(lia) Hlt Hj)
      as (Haj & Hs & Hgap).
    destruct (lookup_lt_is_Some_2 (Utxos m) (S i) ltac:(lia)) as [u' Hu'].
    rewrite (drop_S _ _ _ Hu') in Hd. cbn [map] in Hd. symmetry in Hd.
    replace (N - a - 1) with (Z.of_nat (Z.to_nat (N - a - 1))) in Hd by lia.
    destruct (filter_seqZ_head _ _ _ _ _ Hd) as (Hn & Hcn & Hmin & Htl).
    set (n := LeafIndex u') in *.
    assert (Ejn : j = n).
    { destruct (Z_lt_dec n j) as [Hnj|Hnj].
      { rewrite (Hgap n) in Hcn by lia. discriminate. }
      destruct (Z.eq_dec j n) as [|Hne]; [assumption|exfalso].
      unfold stops in Hs. rewrite (Hmin j) in Hs by lia. cbn [orb] in Hs.
      apply Z.leb_le in Hs.
      pose proof (contains_in_range l n ltac:(lia) Hcn).
      pose proof (Z.div_le_mono j n 8 ltac:(lia) ltac:(lia)). lia. }
    subst j. apply IH; [lia|lia|lia|exact Hcn|].
    rewrite (drop_S _ _ _ Hu'). cbn [map]. fold n. rewrite <- Htl.
    f_equal. f_equal. lia.
Qed.

Lemma utxos_nonempty : (0 < length (Utxos m))%nat.
Proof.
  rewrite <- (length_map LeafIndex), Hidx.
  pose proof (proj1 (unspent_In l N first)) as H.
  destruct (unspent l N) as [|x xs] eqn:E; [|cbn; lia].
  exfalso. pose proof (Hrange first (proj1 Hfirst) (proj2 Hfirst)).
  assert (Hin : In first (unspent l N)).
  { apply unspent_In. split; [lia|apply Hfirst]. }
  rewrite E in Hin. destruct Hin.
Qed.

Lemma leafWalk_honest :
  leafWalk l (Utxos m) (length (Utxos m)) 0 first = Some (Some last).
Proof.
  pose proof (Hrange first (proj1 Hfirst) (proj2 Hfirst)).
  apply leafWalk_run; [lia|apply utxos_nonempty|lia|apply Hfirst|].
  rewrite drop_0, Hidx. unfold unspent.
  replace N with (first + (N - first)) at 1 by lia.
  rewrite seqZ_app by lia. rewrite List.filter_app, Z.add_0_l.
  rewrite filter_none; [reflexivity|].
  intros x Hx. apply In_seqZ in Hx.
  destruct (Leafset.contains l x) eqn:E; [|reflexivity].
  specialize (Hrange x ltac:(lia) E). lia.
Qed.

(** The two passes over the peaks of a batch of the honest shape. *)
Lemma passes_rebuild (ps : list (Z * nat)) (k : nat) v0 :
  peaksChain N 0 k ps ->
  length (ProofHashes m) = peaksNeeds l last ps ->
  walkState l m first last v0 -> marksSound l N v0 ->
  marksBelow v0 (mmrSize 0) ->
  exists v2,
    passes blake3 2 (mmrSize N) (map rootOf ps) [] v0 =
    Some (Some (rebuildPeaks blake3 l m last ps 0 0), v2).
Proof.
  intros Hchain Hlenp Hw0 Hs0 Hm0.
  assert (Hb0 : before l 0 = 0%nat) by reflexivity.
  pose proof (Hrange first (proj1 Hfirst) (proj2 Hfirst)) as Hfl.
  assert (Hlenu : before l N = length (Utxos m)).
  { unfold before. rewrite <- Hidx, length_map. reflexivity. }
  set (v0' := set_cursors 0 0 v0).
  assert (Hw0' : walkState l m first last v0').
  { destruct Hw0 as (A & B & C & D). repeat split; assumption. }
  destruct (walk_first blake3 l N m first last HN Hfirst Hlast Hrange Hidx
              ps [] 0 k [] v0' Hchain ltac:(lia) Hw0' Hs0 Hm0 Hb0
              ltac:(cbn [hashesUsed v0' set_cursors]; lia))
    as (hs1 & v1 & Hrun1 & Hfr1 & Hml1 & Hs1 & Hlu1 & Hhu1 & Hd1).
  cbn [app] in Hrun1.
  pose proof (walkState_frame l m first last _ _ Hw0' Hfr1) as Hw1.
  assert (Hone1 : onePass blake3 (mmrSize N) (map rootOf ps) v0 =
                  Some (Some hs1, v1)).
  { unfold onePass. fold v0'. rewrite Hrun1.
    destruct Hw1 as (Hm1 & _). rewrite Hm1.
    rewrite !bool_decide_eq_true_2; [reflexivity| |].
    - rewrite Hhu1. cbn [hashesUsed v0' set_cursors]. lia.
    - rewrite Hlu1. exact Hlenu. }
  set (v1' := set_cursors 0 0 v1).
  assert (Hw1' : walkState l m first last v1').
  { destruct Hw1 as (A & B & C & D). repeat split; assumption. }
  assert (Hd1' : peaksDone l last v1' ps).
  { eapply peaksDone_mono; [|exact Hd1]. intros x Hx. exact Hx. }
  destruct (walk_second blake3 l N m first last HN Hfirst Hlast Hrange Hidx
              ps [] 0 k [] v1' Hchain ltac:(lia) Hw1' Hs1 Hb0
              ltac:(cbn [hashesUsed v1' set_cursors]; lia) Hd1')
    as (v2 & Hrun2 & Hfr2 & Hlu2 & Hhu2).
  cbn [app] in Hrun2. cbn [leavesUsed hashesUsed v1' set_cursors] in Hrun2.
  pose proof (walkState_frame l m first last _ _ Hw1' Hfr2) as Hw2.
  assert (Hone2 : onePass blake3 (mmrSize N) (map rootOf ps) v1 =
                  Some (Some (rebuildPeaks blake3 l m last ps 0 0), v2)).
  { unfold onePass. fold v1'. rewrite Hrun2.
    destruct Hw2 as (Hm2 & _). rewrite Hm2.
    rewrite !bool_decide_eq_true_2; [reflexivity| |].
    - rewrite Hhu2. cbn [hashesUsed v1' set_cursors]. lia.
    - rewrite Hlu2. exact Hlenu. }
  exists v2. cbn [passes].
  rewrite (bind_run _ _ _ _ _ Hone1), (bind_run _ _ _ _ _ Hone2). reflexivity.
Qed.

Lemma peaks_of_N :
  peaksChain N 0 63 (mmrPeaks 63 N 0) /\ mmrPeaks 63 N 0 <> [].
Proof.
  assert (Hchain : peaksChain N 0 63 (mmrPeaks 63 N 0)).
  { pose proof (mmrPeaks_chain 63 N 0) as H. rewrite Z.add_0_l in H.
    apply H; [|lia|apply Zmod_0_l]. split; [lia|].
    apply Z.lt_le_trans with (2 ^ 63); [lia|]. unfold pow2. apply Z.le_refl. }
  split; [exact Hchain|].
  intros E. rewrite E in Hchain. cbn [peaksChain] in Hchain. lia.
Qed.

(** On a batch that lists the unspent leaves and carries as many
    proof hashes as the walk needs, the verifier compares the root
    with the hash it rebuilds from the batch. *)
Lemma verifyMwebUtxos_rebuild mwebHeader :
  OutputMMRSize mwebHeader = N ->
  verifyMwebUtxos blake3 mwebHeader l m =
  Some (bool_decide
          (bagHashes (parentHash blake3 (mmrSize N))
             (rebuildPeaks blake3 l m last (mmrPeaks 63 N 0) 0 0) =
           OutputRoot mwebHeader)).
Proof.
  intros HsizeN. unfold verifyMwebUtxos.
  pose proof utxos_nonempty as Hne.
  assert (E0 : emptyMMR mwebHeader m = false).
  { unfold emptyMMR. rewrite HsizeN.
    replace (N =? 0) with false by (symmetry; apply Z.eqb_neq; lia).
    apply andb_false_r. }
  rewrite E0, HsizeN.
  replace (N =? 0) with false by (symmetry; apply Z.eqb_neq; lia).
  rewrite bool_decide_eq_false_2 by lia. cbn [orb].
  rewrite Hstart, leafWalk_honest.
  cbv zeta. rewrite calcPeaks_mmrPeaks by lia.
  rewrite nodeIdx_small by lia.
  destruct peaks_of_N as (Hchain & Hps).
  destruct (passes_rebuild (mmrPeaks 63 N 0) 63
              {| mwebUtxos := m; vleafset := l; firstLeafIdx := first;
                 lastLeafIdx := last; leavesUsed := 0; hashesUsed := 0;
                 isProofHash := ∅ |} Hchain Hlen)
    as (v2 & Hrun).
  - repeat split.
  - intros x Hx. discriminate Hx.
  - intros x Hx. discriminate Hx.
  - rewrite Hrun.
    rewrite bagPeaks_bagHashes by (apply rebuildPeaks_nonempty; exact Hps).
    reflexivity.
Qed.

End Verify.

(** ** Further properties of the index arithmetic *)

(** The rounds of the height loop above an aligned block only strip the
    peaks to its left. *)
Lemma height_loop_strip (a : nat) : forall (d : nat) fuel j c,
  (d <= fuel)%nat -> (a + d <= 64)%nat ->
  0 <= j < pow2 (a + d) -> j mod pow2 a = 0 -> j < 2 ^ 63 ->
  0 <= c <= 2 * pow2 a - 2 -> pow2 a < 2 ^ 63 ->
  peakLoop NodeIdx.height_body fuel (pow2 (a + d) - 1) (mmrSize j + c) =
  peakLoop NodeIdx.height_body (fuel - d) (pow2 a - 1) c.
Proof.
  induction d as [|d IH]; intros fuel j c Hf Hd Hj Hm Hj63 Hc Ha.
  - rewrite Nat.add_0_r in *. rewrite Nat.sub_0_r.
    assert (j = 0).
    { pose proof (pow2_pos a).
      pose proof (Z.div_mod j (pow2 a) ltac:(lia)).
      assert (j / pow2 a = 0) by (apply Z.div_small; lia). lia. }
    subst j. rewrite mmrSize_0, Z.add_0_l. reflexivity.
  - replace (a + S d)%nat with (S (a + d)) in * by lia.
    destruct fuel as [|fuel]; [lia|].
    rewrite peakLoop_pow2_step. cbn [Nat.sub].
    pose proof (pow2_pos (a + d)). pose proof (pow2_pos a).
    assert (Hhd : pow2 a <= pow2 (a + d)) by (apply pow2_le_mono; lia).
    rewrite pow2_S in Hj. rewrite (pow2_S (a + d)).
    assert (Hdiv : pow2 (a + d) mod pow2 a = 0).
    { unfold pow2. rewrite Nat2Z.inj_add, Z.pow_add_r by lia.
      rewrite Z.mul_comm. apply Z_mod_mult. }
    destruct (Z_lt_dec j (pow2 (a + d))) as [Hlt|Hge].
    + assert (j <= pow2 (a + d) - pow2 a).
      { pose proof (Z.div_mod j (pow2 a) ltac:(lia)).
        pose proof (Z.div_mod (pow2 (a + d)) (pow2 a) ltac:(lia)).
        assert (j / pow2 a < pow2 (a + d) / pow2 a) by nia.
        nia. }
      pose proof (mmrSize_bounds j ltac:(lia)).
      unfold NodeIdx.height_body at 2.
      replace (2 * pow2 (a + d) - 1 <=? mmrSize j + c)
        with false by (symmetry; apply Z.leb_gt; lia).
      apply IH; lia.
    + set (j' := j - pow2 (a + d)).
      assert (Hj' : 0 <= j' < pow2 (a + d)) by (unfold j'; lia).
      assert (Em : mmrSize j = 2 * pow2 (a + d) - 1 + mmrSize j').
      { replace j with (pow2 (a + d) + j') by (unfold j'; lia).
        unfold pow2 at 1 2. rewrite mmrSize_top by exact Hj'.
        rewrite Z.pow_add_r by lia. unfold pow2. lia. }
      pose proof (mmrSize_bounds j' ltac:(lia)).
      unfold NodeIdx.height_body at 2. rewrite Em.
      replace (2 * pow2 (a + d) - 1 <=?
               2 * pow2 (a + d) - 1 + mmrSize j' + c)
        with true by (symmetry; apply Z.leb_le; lia).
      replace (2 * pow2 (a + d) - 1 + mmrSize j' + c - (2 * pow2 (a + d) - 1))
        with (mmrSize j' + c) by lia.
      rewrite u64_small by (unfold j' in *; lia).
      apply IH; try lia.
      unfold j'. rewrite Zminus_mod, Hm, Hdiv. reflexivity.
Qed.

Lemma peakLoop_fuel {A} (body : Z -> A -> A) (a : nat) : forall f1 f2 st,
  (a <= f1)%nat -> (a <= f2)%nat ->
  peakLoop body f1 (pow2 a - 1) st = peakLoop body f2 (pow2 a - 1) st.
Proof.
  induction a as [|a IH]; intros f1 f2 st H1 H2.
  - rewrite pow2_0. change (1 - 1) with 0. rewrite !peakLoop_zero. reflexivity.
  - destruct f1 as [|f1]; [lia|]. destruct f2 as [|f2]; [lia|].
    rewrite !peakLoop_pow2_step. apply IH; lia.
Qed.

(** The height of the node [c] places after the node of an aligned
    leaf is found by the last rounds of the loop alone. *)
Lemma height_after_aligned (a : nat) j c :
  0 <= j -> j mod pow2 a = 0 -> j + pow2 a < 2 ^ 63 ->
  0 <= c <= 2 * pow2 a - 2 ->
  NodeIdx.height (mmrSize j + c) =
  peakLoop NodeIdx.height_body a (pow2 a - 1) c.
Proof.
  intros Hj Hm Hlt Hc. pose proof (pow2_pos a) as Hp.
  pose proof (mmrSize_bounds j Hj) as Hb.
  assert (Hr : 0 <= mmrSize j + c < 2 ^ 64) by lia.
  unfold NodeIdx.height. rewrite firstPeakSize_eq by exact Hr.
  destruct (Len64_nat _ Hr) as (k & Ek & Hk). rewrite Ek. fold (pow2 k).
  pose proof (Len64_spec (mmrSize j + c) ltac:(lia)) as Hs.
  rewrite Ek in Hs. fold (pow2 k) in Hs.
  destruct (le_lt_dec a k) as [Hak|Hka].
  - replace k with (a + (k - a))%nat at 1 by lia.
    rewrite height_loop_strip; try lia.
    + apply peakLoop_fuel; lia.
    + replace (a + (k - a))%nat with k by lia. lia.
  - (* the whole node index is below the block: [j] is zero *)
    assert (j = 0).
    { destruct (Z.eq_dec j 0) as [|Hne]; [assumption|exfalso].
      assert (pow2 a <= j).
      { pose proof (Z.div_mod j (pow2 a) ltac:(lia)).
        pose proof (Z.div_pos j (pow2 a) Hj Hp).
        destruct (Z.eq_dec (j / pow2 a) 0); [lia|nia]. }
      pose proof (pow2_le_mono k a ltac:(lia)). lia. }
    subst j. rewrite mmrSize_0, Z.add_0_l in *.
    clear Hb Hm Hlt Hj Hr Ek.
    assert (Hgen : forall d fuel,
              peakLoop NodeIdx.height_body (fuel + d) (pow2 (k + d) - 1) c =
              peakLoop NodeIdx.height_body fuel (pow2 k - 1) c).
    { induction d as [|d IHd]; intros fuel.
      - rewrite !Nat.add_0_r. reflexivity.
      - replace (fuel + S d)%nat with (S (fuel + d)) by lia.
        replace (k + S d)%nat with (S (k + d)) by lia.
        rewrite peakLoop_pow2_step.
        pose proof (pow2_le_mono k (k + d) ltac:(lia)).
        unfold NodeIdx.height_body at 2. rewrite pow2_S.
        replace (2 * pow2 (k + d) - 1 <=? c)
          with false by (symmetry; apply Z.leb_gt; lia).
        apply IHd. }
    specialize (Hgen (a - k)%nat k).
    replace (k + (a - k))%nat with a in Hgen by lia.
    rewrite Hgen. apply peakLoop_fuel; lia.
Qed.

(** The root of a perfect subtree of height [h] has height [h], on
    either side of its parent. *)
Lemma height_subtreeRoot_any N (h : nat) first :
  N < 2 ^ 63 -> validSubtree N first h ->
  NodeIdx.height (subtreeRoot first h) = Z.of_nat h.
Proof.
  intros HN Hv.
  destruct (Z.eq_dec (first mod pow2 (S h)) 0) as [Hal|Hnal].
  { apply (height_subtreeRoot N); assumption. }
  pose proof (validSubtree_height N _ _ HN Hv) as (Hh & Hp63).
  destruct Hv as (H0 & Hm & Hn). pose proof (pow2_pos h) as Hp.
  (* [first] is an odd multiple of [2^h] *)
  set (g := first - pow2 h).
  assert (Hg : g mod pow2 (S h) = 0 /\ 0 <= g).
  { pose proof (Z.div_mod first (pow2 h) ltac:(lia)) as E1.
    rewrite Hm, Z.add_0_r in E1.
    pose proof (Z.div_pos first (pow2 h) H0 Hp) as Hq.
    destruct (Z.even (first / pow2 h)) eqn:Ev.
    - exfalso. apply Hnal. apply Z.even_spec in Ev as [q Eq].
      rewrite E1, Eq, pow2_S.
      replace (pow2 h * (2 * q)) with (q * (2 * pow2 h)) by ring.
      apply Z_mod_mult.
    - rewrite <- Z.negb_odd in Ev. apply negb_false_iff, Z.odd_spec in Ev as [q Eq].
      unfold g. rewrite E1 at 1 2. rewrite Eq, pow2_S.
      replace (pow2 h * (2 * q + 1) - pow2 h) with (q * (2 * pow2 h)) by ring.
      split; [apply Z_mod_mult|].
      assert (0 <= q) by lia. apply Z.mul_nonneg_nonneg; lia. }
  destruct Hg as (Hgm & Hg0).
  unfold subtreeRoot.
  replace first with (g + pow2 h) by (unfold g; lia).
  rewrite (mmrSize_add_low (S h)) by (try assumption; rewrite ?pow2_S; lia).
  rewrite mmrSize_pow2.
  replace (mmrSize g + (2 * pow2 h - 1) + 2 * pow2 h - 2)
    with (mmrSize g + (4 * pow2 h - 3)) by lia.
  rewrite (height_after_aligned (S h)) by (try assumption; rewrite ?pow2_S; unfold g; lia).
  rewrite peakLoop_pow2_step. unfold NodeIdx.height_body at 2. rewrite pow2_S.
  replace (2 * pow2 h - 1 <=? 4 * pow2 h - 3) with true
    by (symmetry; apply Z.leb_le; lia).
  rewrite u64_small by lia.
  replace (4 * pow2 h - 3 - (2 * pow2 h - 1))
    with (2 * pow2 h + Z.of_nat h - Z.of_nat h - 2) by lia.
  apply height_loop_tail; lia.
Qed.

Lemma mmrPeaks_length (k : nat) : forall n first,
  0 <= n < pow2 k -> Z.of_nat (length (mmrPeaks k n first)) = OnesCount64 n.
Proof.
  induction k as [|k IH]; intros n first Hn.
  - rewrite pow2_0 in Hn. assert (n = 0) by lia. subst. reflexivity.
  - cbn [mmrPeaks]. rewrite pow2_S in Hn. pose proof (pow2_pos k).
    destruct (Z.leb_spec (pow2 k) n) as [Hle|Hlt].
    + cbn [length]. rewrite Nat2Z.inj_succ, IH by lia.
      replace n with (pow2 k + (n - pow2 k)) at 2 by lia.
      unfold pow2 at 2. rewrite OnesCount64_top by (fold (pow2 k); lia). lia.
    + apply IH. lia.
Qed.

Lemma testbit_top (k : nat) n :
  0 <= n < 2 * pow2 k -> Z.testbit n (Z.of_nat k) = (pow2 k <=? n).
Proof.
  intros Hn. pose proof (pow2_pos k) as Hp.
  rewrite Z.testbit_odd, Z.shiftr_div_pow2 by lia. fold (pow2 k).
  destruct (Z.leb_spec (pow2 k) n) as [Hle|Hlt].
  - replace (n / pow2 k) with 1; [reflexivity|].
    apply Z.div_unique with (r := n - pow2 k); lia.
  - rewrite Z.div_small by lia. reflexivity.
Qed.

Lemma testbit_below (k : nat) n i :
  pow2 k <= n < 2 * pow2 k -> (i < k)%nat ->
  Z.testbit (n - pow2 k) (Z.of_nat i) = Z.testbit n (Z.of_nat i).
Proof.
  intros Hn Hi. pose proof (pow2_pos k) as Hp.
  replace (n - pow2 k) with (n mod 2 ^ Z.of_nat k).
  - apply Z.mod_pow2_bits_low. lia.
  - fold (pow2 k). symmetry. apply Z.mod_unique with (q := 1); lia.
Qed.

(** The heights of the peaks are the set bits of the leaf count, from
    the top. *)
Lemma mmrPeaks_heights (k : nat) : forall n first,
  0 <= n < pow2 k ->
  map snd (mmrPeaks k n first) =
  List.filter (fun i => Z.testbit n (Z.of_nat i)) (rev (seq 0 k)).
Proof.
  induction k as [|k IH]; intros n first Hn; [reflexivity|].
  cbn [mmrPeaks]. rewrite seq_S, rev_app_distr. cbn [rev app List.filter].
  rewrite pow2_S in Hn. pose proof (pow2_pos k) as Hp.
  rewrite Nat.add_0_l, (testbit_top k n Hn).
  destruct (Z.leb_spec (pow2 k) n) as [Hle|Hlt].
  - cbn [map snd]. f_equal. rewrite IH by lia.
    apply List.filter_ext_in. intros i Hi.
    apply in_rev, in_seq in Hi. apply testbit_below; lia.
  - apply IH. lia.
Qed.

Lemma peaksChain_heights N : forall ps f k,
  N < 2 ^ 63 -> peaksChain N f k ps ->
  map NodeIdx.height (map rootOf ps) = map (fun p => Z.of_nat (snd p)) ps.
Proof.
  induction ps as [|p rest IH]; intros f k HN Hc; [reflexivity|].
  cbn [peaksChain] in Hc. destruct Hc as (Hf & Hk & H0 & Hm & Hn & Hrest).
  cbn [map]. f_equal; [|eapply IH; eauto].
  unfold rootOf. rewrite Hf. apply (height_subtreeRoot N); [lia| |exact Hm].
  split; [exact H0|]. split; [apply mod_pow2_S; exact Hm|exact Hn].
Qed.

Lemma peaksChain_ends N : forall ps f k p,
  peaksChain N f k ps -> List.last ps p = p -> ps <> [] ->
  rootOf p = mmrSize N - 1.
Proof.
  induction ps as [|q rest IH]; intros f k p Hc Hl Hne; [congruence|].
  cbn [peaksChain] in Hc. destruct Hc as (Hf & Hk & H0 & Hm & Hn & Hrest).
  destruct rest as [|q' rest'].
  - cbn in Hl. subst q. cbn [peaksChain] in Hrest.
    unfold rootOf, subtreeRoot. rewrite Hf, <- Hrest.
    rewrite (mmrSize_add_low (S (snd p)))
      by (try assumption; rewrite ?pow2_S; pose proof (pow2_pos (snd p)); lia).
    rewrite mmrSize_pow2. lia.
  - apply (IH _ _ p Hrest); [exact Hl|discriminate].
Qed.

(** X3: the node that closes the perfect subtree of [2^h] leaves from
    an aligned leaf [f] on -- [2^(h+1) - 2] places after the node of
    [f] -- has height [h]; so the node of a leaf has height 0. *)
Theorem height_of_subtree_root (f : Z) (h : nat) :
  0 <= f -> f mod 2 ^ Z.of_nat h = 0 -> f + 2 ^ Z.of_nat h < 2 ^ 63 ->
  NodeIdx.height (LeafIdx.nodeIdx f + 2 * 2 ^ Z.of_nat h - 2) = Z.of_nat h.
Proof.
  intros H0 Hm Hn. fold (pow2 h) in *. pose proof (pow2_pos h).
  rewrite nodeIdx_small by lia.
  apply (height_subtreeRoot_any (f + pow2 h)); [lia|].
  split; [exact H0|]. split; [exact Hm|lia].
Qed.

Lemma height_of_subtree_root_witness :
  NodeIdx.height (LeafIdx.nodeIdx 12 + 2 * 2 ^ Z.of_nat 2 - 2) = Z.of_nat 2.
Proof. apply (height_of_subtree_root 12 2); [lia|reflexivity|reflexivity]. Defined.

(** X4: the children of the root of a perfect subtree of height [h+1]
    that starts at leaf [f]: [left] is the root of the half that starts
    at [f], [right] the root of the half that starts at [f + 2^h]. *)
Theorem children_of_subtree_root (f : Z) (h : nat) :
  0 <= f -> f mod 2 ^ Z.of_nat (S h) = 0 -> f + 2 ^ Z.of_nat (S h) < 2 ^ 63 ->
  NodeIdx.left (LeafIdx.nodeIdx f + 2 * 2 ^ Z.of_nat (S h) - 2) (Z.of_nat (S h)) =
    LeafIdx.nodeIdx f + 2 * 2 ^ Z.of_nat h - 2 /\
  NodeIdx.right (LeafIdx.nodeIdx f + 2 * 2 ^ Z.of_nat (S h) - 2) =
    LeafIdx.nodeIdx (f + 2 ^ Z.of_nat h) + 2 * 2 ^ Z.of_nat h - 2.
Proof.
  intros H0 Hm Hn. fold (pow2 h) (pow2 (S h)) in *.
  pose proof (pow2_pos h). pose proof (pow2_S h).
  rewrite !nodeIdx_small by lia.
  assert (Hv : validSubtree (f + pow2 (S h)) f (S h)).
  { split; [exact H0|]. split; [exact Hm|lia]. }
  split.
  - apply (NodeIdx_left_subtree (f + pow2 (S h))); [lia|exact Hv].
  - apply (NodeIdx_right_subtree (f + pow2 (S h))); [lia|exact Hv].
Qed.

Lemma children_of_subtree_root_witness :
  NodeIdx.left (LeafIdx.nodeIdx 8 + 2 * 2 ^ Z.of_nat 2 - 2) (Z.of_nat 2) =
    LeafIdx.nodeIdx 8 + 2 * 2 ^ Z.of_nat 1 - 2 /\
  NodeIdx.right (LeafIdx.nodeIdx 8 + 2 * 2 ^ Z.of_nat 2 - 2) =
    LeafIdx.nodeIdx (8 + 2 ^ Z.of_nat 1) + 2 * 2 ^ Z.of_nat 1 - 2.
Proof. apply (children_of_subtree_root 8 1); [lia|reflexivity|reflexivity]. Defined.

(** X5: the node index grows strictly with the leaf index, below
    [2^63] leaves. *)
Theorem nodeIdx_strictly_increasing (i j : Z) :
  0 <= i -> i < j -> j < 2 ^ 63 -> LeafIdx.nodeIdx i < LeafIdx.nodeIdx j.
Proof.
  intros Hi Hij Hj. rewrite !nodeIdx_small by lia. apply mmrSize_lt_mono. lia.
Qed.

Lemma nodeIdx_strictly_increasing_witness :
  LeafIdx.nodeIdx 3 < LeafIdx.nodeIdx 4.
Proof. apply (nodeIdx_strictly_increasing 3 4); lia. Defined.

(** X6: an MMR of [N] leaves has one peak per set bit of [N]. *)
Theorem calcPeaks_count (N : Z) :
  0 <= N < 2 ^ 63 ->
  Z.of_nat (length (calcPeaks (LeafIdx.nodeIdx N))) = OnesCount64 N.
Proof.
  intros HN. rewrite calcPeaks_mmrPeaks by exact HN.
  rewrite length_map. apply mmrPeaks_length. exact HN.
Qed.

Lemma calcPeaks_count_witness :
  Z.of_nat (length (calcPeaks (LeafIdx.nodeIdx 11))) = OnesCount64 11.
Proof. apply (calcPeaks_count 11). lia. Defined.

(** X7: the heights of the peaks are the positions of the set bits of
    the leaf count, the highest first. *)
Theorem calcPeaks_heights (N : Z) :
  0 <= N < 2 ^ 63 ->
  map NodeIdx.height (calcPeaks (LeafIdx.nodeIdx N)) =
  map Z.of_nat (List.filter (fun i => Z.testbit N (Z.of_nat i)) (rev (seq 0 63))).
Proof.
  intros HN. rewrite calcPeaks_mmrPeaks by exact HN.
  pose proof (mmrPeaks_chain 63 N 0) as Hc. rewrite Z.add_0_l in Hc.
  rewrite (peaksChain_heights N _ 0 63%nat) by (lia || (apply Hc; [exact HN|lia|reflexivity])).
  rewrite <- (mmrPeaks_heights 63 N 0) by exact HN.
  rewrite map_map. reflexivity.
Qed.

Lemma calcPeaks_heights_witness :
  map NodeIdx.height (calcPeaks (LeafIdx.nodeIdx 11)) =
  map Z.of_nat (List.filter (fun i => Z.testbit 11 (Z.of_nat i)) (rev (seq 0 63))).
Proof. apply (calcPeaks_heights 11). lia. Defined.

(** X8: the peaks are listed by ascending node index and the last peak
    is the last node of the MMR. *)
Theorem calcPeaks_ascending (N : Z) :
  0 < N < 2 ^ 63 ->
  (forall i j a b, (i < j)%nat ->
     calcPeaks (LeafIdx.nodeIdx N) !! i = Some a ->
     calcPeaks (LeafIdx.nodeIdx N) !! j = Some b -> a < b) /\
  List.last (calcPeaks (LeafIdx.nodeIdx N)) 0 = LeafIdx.nodeIdx N - 1.
Proof.
  intros HN. rewrite calcPeaks_mmrPeaks by lia.
  rewrite (nodeIdx_small N) by lia.
  pose proof (mmrPeaks_chain 63 N 0) as Hc. rewrite Z.add_0_l in Hc.
  assert (HN' : 0 <= N < pow2 63) by (split; [lia|apply HN]).
  specialize (Hc HN' ltac:(lia) ltac:(reflexivity)).
  revert Hc. generalize (mmrPeaks 63 N 0) as ps. intros ps Hc. split.
  - revert Hc. generalize 0 at 1. generalize 63%nat.
    induction ps as [|p rest IH]; intros k f Hc i j a b Hij Ha Hb.
    { destruct i; discriminate. }
    destruct j as [|j]; [lia|]. cbn [map] in Ha, Hb. cbn in Hb.
    destruct i as [|i].
    + cbn in Ha. injection Ha as <-.
      apply list_lookup_fmap_Some in Hb as (q & -> & Hq).
      apply (peaksChain_roots N p rest f k Hc).
      apply list_elem_of_In. eapply list_elem_of_lookup_2. exact Hq.
    + cbn in Ha. cbn [peaksChain] in Hc.
      destruct Hc as (_ & _ & _ & _ & _ & Hrest).
      apply (IH _ _ Hrest i j a b); [lia|exact Ha|exact Hb].
  - assert (Hne : ps <> []).
    { intros ->. cbn [peaksChain] in Hc. lia. }
    destruct (exists_last Hne) as (ini & p & ->).
    rewrite map_app. cbn [map]. rewrite last_last.
    apply (peaksChain_ends N (ini ++ [p]) 0 63%nat p Hc);
      [apply last_last|exact Hne].
Qed.

Lemma calcPeaks_ascending_witness :
  (forall i j a b, (i < j)%nat ->
     calcPeaks (LeafIdx.nodeIdx 11) !! i = Some a ->
     calcPeaks (LeafIdx.nodeIdx 11) !! j = Some b -> a < b) /\
  List.last (calcPeaks (LeafIdx.nodeIdx 11)) 0 = LeafIdx.nodeIdx 11 - 1.
Proof. apply (calcPeaks_ascending 11). lia. Defined.

(** ** Further properties of the leafset *)

Lemma land_bit b (n : Z) :
  0 <= n -> (0 <? Z.land b (2 ^ n)) = Z.testbit b n.
Proof.
  intros Hn.
  assert (E : Z.land b (2 ^ n) = if Z.testbit b n then 2 ^ n else 0).
  { apply Z.bits_inj'. intros k Hk.
    rewrite Z.land_spec, Z.pow2_bits_eqb by lia.
    destruct (Z.eqb_spec n k) as [->|Hne].
    - destruct (Z.testbit b k) eqn:E.
      + rewrite Z.pow2_bits_true by lia. reflexivity.
      + rewrite Z.bits_0. reflexivity.
    - rewrite andb_false_r. destruct (Z.testbit b n).
      + rewrite Z.pow2_bits_false by lia. reflexivity.
      + rewrite Z.bits_0. reflexivity. }
  rewrite E. destruct (Z.testbit b n).
  - apply Z.ltb_lt. apply Z.pow_pos_nonneg; lia.
  - reflexivity.
Qed.

Lemma mask_pow2 i : 0 <= i -> Z.shiftr 128 (i mod 8) = 2 ^ (7 - i mod 8).
Proof.
  intros Hi. pose proof (Z.mod_pos_bound i 8 ltac:(lia)) as Hm.
  rewrite Z.shiftr_div_pow2 by lia.
  change 128 with (2 ^ 7).
  replace 7 with ((7 - i mod 8) + i mod 8) at 1 by lia.
  rewrite Z.pow_add_r by lia.
  apply Z.div_mul. apply Z.pow_nonzero; lia.
Qed.

(** X1: [contains] reads bit [7 - i mod 8] of byte [i / 8], the most
    significant bit first, and answers false past the end of the
    bitmap. *)
Theorem contains_reads_bit (l : leafset) (i : Z) :
  0 <= i ->
  Leafset.contains l i =
  (i / 8 <? Z.of_nat (length l)) &&
  Z.testbit (nth (Z.to_nat (i / 8)) l 0) (7 - i mod 8).
Proof.
  intros Hi. unfold Leafset.contains.
  pose proof (Z.mod_pos_bound i 8 ltac:(lia)) as Hm.
  destruct (Z.leb_spec (Z.of_nat (length l)) (i / 8)) as [Hout|Hin].
  - replace (i / 8 <? Z.of_nat (length l)) with false
      by (symmetry; apply Z.ltb_ge; lia).
    reflexivity.
  - replace (i / 8 <? Z.of_nat (length l)) with true
      by (symmetry; apply Z.ltb_lt; lia).
    cbn [andb]. rewrite mask_pow2 by exact Hi. apply land_bit. lia.
Qed.

Lemma contains_reads_bit_witness :
  Leafset.contains [160] 2 =
  (2 / 8 <? Z.of_nat (length [160])) &&
  Z.testbit (nth (Z.to_nat (2 / 8)) [160] 0) (7 - 2 mod 8).
Proof. apply (contains_reads_bit [160] 2). lia. Defined.

(** X2: from an index of the bitmap, [nextUnspent] returns the first
    later index whose bit is set, or the first index past the bitmap
    when no later bit is set; it skips cleared bits only. *)
Theorem nextUnspent_finds_next (l : leafset) (i : Z) :
  0 <= i < 8 * Z.of_nat (length l) -> 8 * Z.of_nat (length l) < 2 ^ 64 ->
  exists j, Leafset.nextUnspent l i = Some j /\
    i < j <= 8 * Z.of_nat (length l) /\
    (forall k, i < k < j -> Leafset.contains l k = false) /\
    (j < 8 * Z.of_nat (length l) -> Leafset.contains l j = true).
Proof.
  intros Hi Hlen.
  assert (Hex : exists j, Leafset.nextUnspent l i = Some j).
  { unfold Leafset.nextUnspent.
    destruct (nextUnspent_loop_stops l (8 * length l + 2) i
                (8 * Z.of_nat (length l) - i - 1)) as (j & Hj & _); [lia| |eauto].
    replace (i + 1 + (8 * Z.of_nat (length l) - i - 1))
      with (8 * Z.of_nat (length l)) by lia.
    rewrite u64_small by lia. unfold stops.
    replace (8 * Z.of_nat (length l) / 8) with (Z.of_nat (length l))
      by (apply Z.div_unique with (r := 0); lia).
    rewrite Z.leb_refl. apply orb_true_r. }
  destruct Hex as (j & Hj). exists j. split; [exact Hj|].
  destruct (nextUnspent_loop_spec l _ i j ltac:(lia) Hlen ltac:(lia) Hj)
    as (Hij & Hs & Hgap).
  assert (Hdiv : forall x, 0 <= x ->
            (Z.of_nat (length l) <= x / 8 <-> 8 * Z.of_nat (length l) <= x)).
  { intros x Hx. pose proof (Z.div_mod x 8 ltac:(lia)).
    pose proof (Z.mod_pos_bound x 8 ltac:(lia)). lia. }
  split; [|split; [exact Hgap|]].
  - split; [exact Hij|].
    destruct (Z_le_dec j (8 * Z.of_nat (length l))) as [|Hgt]; [assumption|exfalso].
    (* the first index past the bitmap stops the scan *)
    specialize (Hgap (8 * Z.of_nat (length l)) ltac:(lia)).
    assert (Hs' : stops l (8 * Z.of_nat (length l)) = true).
    { unfold stops. apply orb_true_iff. right. apply Z.leb_le, Hdiv; lia. }
    clear -Hj Hs' Hi Hlen Hgt.
    unfold Leafset.nextUnspent in Hj. revert i Hi Hj.
    generalize (8 * length l + 2)%nat as fuel.
    induction fuel as [|fuel IH]; intros i Hi Hj; [discriminate|].
    cbn [Leafset.nextUnspent_loop] in Hj.
    rewrite (u64_small (i + 1)) in Hj by lia.
    fold (stops l (i + 1)) in Hj.
    destruct (stops l (i + 1)) eqn:E.
    + injection Hj as <-. lia.
    + destruct (Z.eq_dec (i + 1) (8 * Z.of_nat (length l))) as [Eq|Hne].
      * rewrite Eq in E. congruence.
      * apply (IH (i + 1)); [lia|exact Hj].
  - intros Hlt. unfold stops in Hs. apply orb_true_iff in Hs as [Hc|Hout]; [exact Hc|].
    apply Z.leb_le, Hdiv in Hout; lia.
Qed.

Lemma nextUnspent_finds_next_witness :
  exists j, Leafset.nextUnspent [160] 0 = Some j /\
    0 < j <= 8 * Z.of_nat (length [160]) /\
    (forall k, 0 < k < j -> Leafset.contains [160] k = false) /\
    (j < 8 * Z.of_nat (length [160]) -> Leafset.contains [160] j = true).
Proof. apply (nextUnspent_finds_next [160] 0); cbn; lia. Defined.

(** ** The first and the last unspent leaf *)

Lemma unspent_split l N x :
  0 <= x < N -> Leafset.contains l x = true ->
  unspent l N = unspent l x ++ x ::
    List.filter (Leafset.contains l) (seqZ (x + 1) (N - x - 1)).
Proof.
  intros Hx Hc.
  replace N with (x + (N - x)) at 1 by lia.
  rewrite unspent_app by lia. f_equal.
  rewrite seqZ_cons by lia. cbn [List.filter]. rewrite Hc.
  replace (Z.succ x) with (x + 1) by lia.
  replace (Z.pred (N - x)) with (N - x - 1) by lia. reflexivity.
Qed.

Lemma unspent_ends l N :
  unspent l N <> [] ->
  (forall i, 0 <= i -> Leafset.contains l i = true -> i < N) ->
  let first := hd 0 (unspent l N) in
  let last := List.last (unspent l N) 0 in
  (0 <= first /\ Leafset.contains l first = true) /\
  (last < N /\ Leafset.contains l last = true) /\
  (forall i, 0 <= i -> Leafset.contains l i = true -> first <= i <= last).
Proof.
  intros Hne Hl first last.
  assert (Hin : forall x, In x (unspent l N) ->
                          0 <= x < N /\ Leafset.contains l x = true).
  { intros x Hx. apply unspent_In in Hx. exact Hx. }
  assert (Hf : In first (unspent l N)).
  { unfold first. destruct (unspent l N); [congruence|left; reflexivity]. }
  assert (Hla : In last (unspent l N)).
  { unfold last. destruct (exists_last Hne) as (ini & x & ->).
    rewrite last_last. apply in_or_app. right. left. reflexivity. }
  split; [split; apply (Hin _ Hf)|]. split; [split; apply (Hin _ Hla)|].
  intros i Hi Hc. pose proof (Hl i Hi Hc) as HiN.
  pose proof (unspent_split l N i ltac:(lia) Hc) as E. split.
  - unfold first. rewrite E.
    destruct (unspent l i) as [|y ys] eqn:Ey; [cbn; lia|]. cbn [app hd].
    assert (In y (unspent l i)) by (rewrite Ey; left; reflexivity).
    apply unspent_In in H. lia.
  - unfold last. rewrite E.
    destruct (List.filter (Leafset.contains l) (seqZ (i + 1) (N - i - 1)))
      as [|y ys] eqn:Ey.
    + change (unspent l i ++ [i]) with (unspent l i ++ [i]).
      rewrite last_last. lia.
    + destruct (exists_last (l := y :: ys) ltac:(discriminate)) as (ini & z & Ez).
      rewrite Ez.
      replace (unspent l i ++ i :: ini ++ [z]) with ((unspent l i ++ i :: ini) ++ [z])
        by (rewrite <- app_assoc; reflexivity).
      rewrite last_last.
      assert (Hz : In z (List.filter (Leafset.contains l) (seqZ (i + 1) (N - i - 1)))).
      { rewrite Ey, Ez. apply in_or_app. right. left. reflexivity. }
      apply List.filter_In in Hz as [Hz _]. apply In_seqZ in Hz. lia.
Qed.

Section Shape.

Variable blake3 : list Z -> Hash.

(** The verifier on a batch of the full shape. *)
Lemma verifyMwebUtxos_full (mwebHeader : MwebHeader) (l : leafset)
    (m : MsgMwebUtxos) :
  0 < OutputMMRSize mwebHeader < 2 ^ 63 -> Z.of_nat (length l) < 2 ^ 61 ->
  fullBatch l (OutputMMRSize mwebHeader) m ->
  verifyMwebUtxos blake3 mwebHeader l m =
  Some (bool_decide
          (bagHashes (parentHash blake3 (mmrSize (OutputMMRSize mwebHeader)))
             (rebuildPeaks blake3 l m
                (List.last (unspent l (OutputMMRSize mwebHeader)) 0)
                (mmrPeaks 63 (OutputMMRSize mwebHeader) 0) 0 0) =
           OutputRoot mwebHeader)).
Proof.
  intros HN Hbits (Hl & Hne & Hidx & Hstart & Hlen).
  destruct (unspent_ends l _ Hne Hl) as (Hfirst & Hlast & Hrange).
  exact (verifyMwebUtxos_rebuild blake3 l _ m _ _ HN Hfirst Hlast Hrange
           Hidx Hbits Hstart Hlen mwebHeader eq_refl).
Qed.

(** X9: on a batch of the full shape -- it lists exactly the unspent
    leaves of the leafset, starts at the first of them and carries one
    proof hash for every maximal subtree without unspent leaf up to
    the peak of the last one, and one for the peaks after it -- the
    verifier answers whether the root rebuilt from the batch, with
    the utxo ids at the unspent leaves and the proof hashes in
    left-to-right order elsewhere, is the output root of the
    header. *)
Theorem verifyMwebUtxos_recomputes_root (mwebHeader : MwebHeader)
    (l : leafset) (m : MsgMwebUtxos) :
  0 < OutputMMRSize mwebHeader < 2 ^ 63 -> Z.of_nat (length l) < 2 ^ 61 ->
  fullBatch l (OutputMMRSize mwebHeader) m ->
  verifyMwebUtxos blake3 mwebHeader l m =
  Some (bool_decide
          (bagHashes (parentHash blake3 (mmrSize (OutputMMRSize mwebHeader)))
             (rebuildPeaks blake3 l m
                (List.last (unspent l (OutputMMRSize mwebHeader)) 0)
                (mmrPeaks 63 (OutputMMRSize mwebHeader) 0) 0 0) =
           OutputRoot mwebHeader)).
Proof. apply verifyMwebUtxos_full. Qed.

End Shape.

(** The leafset [0xA0] of the three-leaf scenario holds leaves 0 and
    2. *)
Lemma leafset160_below i :
  0 <= i -> Leafset.contains [160] i = true -> i < 3.
Proof.
  intros Hi Hc. pose proof (contains_in_range [160] i Hi Hc) as Hr.
  cbn [length] in Hr.
  assert (Hlt : i < 8).
  { pose proof (Z.div_mod i 8 ltac:(lia)).
    pose proof (Z.mod_pos_bound i 8 ltac:(lia)). lia. }
  destruct (Z_lt_dec i 3) as [|Hge]; [assumption|exfalso].
  assert (Hcases : i = 3 \/ i = 4 \/ i = 5 \/ i = 6 \/ i = 7) by lia.
  destruct Hcases as [->|[->|[->|[->| ->]]]]; vm_compute in Hc; discriminate Hc.
Qed.

Lemma threeLeafBatch_full : fullBatch [160] 3 threeLeafBatch.
Proof.
  split; [exact leafset160_below|].
  split; [vm_compute; discriminate|].
  split; [reflexivity|]. split; reflexivity.
Qed.

Lemma verifyMwebUtxos_recomputes_root_witness :
  verifyMwebUtxos plainDigest threeLeafHeader [160] threeLeafBatch =
  Some (bool_decide
          (bagHashes (parentHash plainDigest (mmrSize (OutputMMRSize threeLeafHeader)))
             (rebuildPeaks plainDigest [160] threeLeafBatch
                (List.last (unspent [160] (OutputMMRSize threeLeafHeader)) 0)
                (mmrPeaks 63 (OutputMMRSize threeLeafHeader) 0) 0 0) =
           OutputRoot threeLeafHeader)).
Proof.
  apply (verifyMwebUtxos_recomputes_root plainDigest threeLeafHeader [160]
           threeLeafBatch); [cbn; lia|cbn; lia|exact threeLeafBatch_full].
Defined.

(** ** The proof of the honest prover *)

Lemma nth_drop_head {A} (n : nat) (xs : list A) x t d :
  drop n xs = x :: t -> nth n xs d = x.
Proof.
  intros H. apply nth_lookup_Some.
  pose proof (lookup_drop xs n 0) as E. rewrite Nat.add_0_r in E.
  rewrite <- E, H. reflexivity.
Qed.

Lemma drop_app_more {A} (n : nat) (xs a b : list A) :
  drop n xs = a ++ b -> drop (n + length a) xs = b.
Proof.
  intros H. rewrite <- drop_drop, H.
  rewrite drop_app_length. reflexivity.
Qed.

Lemma bagHashes_cons f (x : Hash) xs :
  xs <> [] -> bagHashes f (x :: xs) = f x (bagHashes f xs).
Proof. destruct xs; [congruence|reflexivity]. Qed.

Section Honest.

Variable blake3 : list Z -> Hash.
Variable ids : Z -> Hash.
Variable l : leafset.

Lemma subProof_length (h : nat) : forall f,
  length (subProof blake3 ids l h f) = needs l h f.
Proof.
  induction h as [|h IH]; intros f; cbn [subProof needs].
  - destruct (Leafset.contains l f); reflexivity.
  - destruct (hasLeaf l (S h) f); [|reflexivity].
    rewrite length_app, !IH. reflexivity.
Qed.

Lemma peaksProof_length N last : forall ps,
  length (peaksProof blake3 ids l N last ps) = peaksNeeds l last ps.
Proof.
  induction ps as [|p rest IH]; [reflexivity|].
  cbn [peaksProof peaksNeeds]. rewrite length_app, subProof_length.
  destruct (last <? fst p + pow2 (snd p)); [|rewrite IH; reflexivity].
  destruct rest; reflexivity.
Qed.

Variable m : MsgMwebUtxos.

(** From the ids and the proof of a subtree the verifier rebuilds the
    hash of the subtree. *)
Lemma rebuildAt_honest (h : nat) : forall f lu hu tlu thu,
  drop lu (map OutputId (Utxos m)) = map ids (leavesIn l h f) ++ tlu ->
  drop hu (ProofHashes m) = subProof blake3 ids l h f ++ thu ->
  rebuildAt blake3 l m h f lu hu = treeHash blake3 ids h f.
Proof.
  induction h as [|h IH]; intros f lu hu tlu thu Hu Hp.
  - cbn [rebuildAt treeHash leavesIn subProof] in *.
    destruct (Leafset.contains l f).
    + unfold outputIdAt. erewrite nth_drop_head by exact Hu. reflexivity.
    + unfold proofHashAt. erewrite nth_drop_head by exact Hp. reflexivity.
  - cbn [rebuildAt treeHash leavesIn subProof] in *.
    fold (hasLeaf l (S h) f) in *.
    destruct (hasLeaf l (S h) f).
    + rewrite map_app, <- app_assoc in Hu. rewrite <- app_assoc in Hp.
      f_equal.
      * eapply IH; eauto.
      * apply drop_app_more in Hu, Hp.
        rewrite length_map in Hu. rewrite subProof_length in Hp.
        eapply IH; eauto.
    + unfold proofHashAt. erewrite nth_drop_head by exact Hp. reflexivity.
Qed.

(** The hashes of the peaks that the verifier rebuilds from the
    honest proof bag to the root of the MMR. *)
Lemma rebuildPeaks_honest N last : forall ps lu hu tlu,
  ps <> [] ->
  drop lu (map OutputId (Utxos m)) =
    map ids (flat_map (fun p => leavesIn l (snd p) (fst p)) ps) ++ tlu ->
  drop hu (ProofHashes m) = peaksProof blake3 ids l N last ps ->
  bagHashes (parentHash blake3 (mmrSize N))
    (rebuildPeaks blake3 l m last ps lu hu) =
  bagHashes (parentHash blake3 (mmrSize N)) (map (peakHash blake3 ids) ps).
Proof.
  induction ps as [|p rest IH]; intros lu hu tlu Hne Hu Hp; [congruence|].
  cbn [rebuildPeaks peaksProof flat_map map] in *.
  rewrite map_app, <- app_assoc in Hu.
  assert (Ep : rebuildAt blake3 l m (snd p) (fst p) lu hu = peakHash blake3 ids p).
  { unfold peakHash. eapply rebuildAt_honest; eauto. }
  rewrite Ep.
  apply drop_app_more in Hu. rewrite length_map in Hu.
  destruct (last <? fst p + pow2 (snd p)).
  - destruct rest as [|q rest']; [reflexivity|].
    apply drop_app_more in Hp. rewrite subProof_length in Hp.
    unfold proofHashAt. erewrite nth_drop_head by exact Hp.
    rewrite (bagHashes_cons _ _ (map _ (q :: rest'))) by discriminate.
    reflexivity.
  - destruct rest as [|q rest'].
    + reflexivity.
    + apply drop_app_more in Hp. rewrite subProof_length in Hp.
      rewrite !bagHashes_cons;
        [|discriminate|apply rebuildPeaks_nonempty; discriminate].
      f_equal. eapply IH; eauto; discriminate.
Qed.

End Honest.

Section Completeness.

Variable blake3 : list Z -> Hash.

(** X10: the verifier accepts the batch of the honest prover: an MMR
    of [N] leaves, below [2^63], over any output ids, hashed as in
    [hash] and [parentHash]; the batch lists every unspent leaf, and
    its proof holds the hash of every maximal subtree without unspent
    leaf up to the peak of the last one, then the bagged hash of the
    peaks after it. *)
Theorem verifyMwebUtxos_accepts_honest (ids : Z -> Hash) (l : leafset)
    (N : Z) (leafsetRoot blockHash : Hash) (format : Z) :
  0 < N < 2 ^ 63 -> Z.of_nat (length l) < 2 ^ 61 ->
  (forall i, 0 <= i -> Leafset.contains l i = true -> i < N) ->
  unspent l N <> [] ->
  verifyMwebUtxos blake3 (honestHeader blake3 ids N leafsetRoot) l
    (honestBatch blake3 ids l N blockHash format) = Some true.
Proof.
  intros HN Hbits Hl Hne.
  set (m := honestBatch blake3 ids l N blockHash format).
  assert (Hidx : map LeafIndex (Utxos m) = unspent l N).
  { unfold m, honestBatch. cbn [Utxos]. rewrite map_map. cbn [LeafIndex mkUtxo].
    apply map_id. }
  rewrite (verifyMwebUtxos_full blake3 _ l m); cbn [OutputMMRSize honestHeader];
    try assumption.
  2: { split; [exact Hl|]. split; [exact Hne|]. split; [exact Hidx|].
       split; [reflexivity|].
       unfold m, honestBatch. cbn [ProofHashes]. apply peaksProof_length. }
  f_equal. apply bool_decide_eq_true_2. cbn [OutputRoot]. unfold mmrRoot.
  assert (Hps : mmrPeaks 63 N 0 <> []).
  { intros E.
    pose proof (mmrPeaks_length 63 N 0 ltac:(split; [lia|apply HN])) as Hlen.
    rewrite E in Hlen. cbn in Hlen.
    destruct N; try lia. cbn in Hlen. pose proof (popcount_pos p). lia. }
  apply (rebuildPeaks_honest blake3 ids l m N _ _ 0%nat 0%nat []); [exact Hps| |].
  - rewrite drop_0, app_nil_r, <- (unspent_peaks l N) by lia.
    unfold m, honestBatch. cbn [Utxos]. rewrite map_map. reflexivity.
  - rewrite drop_0. reflexivity.
Qed.

End Completeness.

Lemma verifyMwebUtxos_accepts_honest_witness :
  verifyMwebUtxos plainDigest (honestHeader plainDigest (fun _ => idA) 3 zeroHash)
    [160] (honestBatch plainDigest (fun _ => idA) [160] 3 zeroHash 0) = Some true.
Proof.
  apply (verifyMwebUtxos_accepts_honest plainDigest (fun _ => idA) [160] 3
           zeroHash zeroHash 0);
    [lia|cbn; lia|exact leafset160_below|vm_compute; discriminate].
Defined.

(** ** One changed input changes the rebuilt root *)

Lemma digest_cases blake3 (x y : list Z) :
  blake3 x = blake3 y -> x = y \/ collision blake3.
Proof.
  intros H. destruct (decide (x = y)) as [E|E]; [left; exact E|].
  right. exists x, y. auto.
Qed.

Lemma parentHash_left blake3 n (a a' b : Hash) :
  parentHash blake3 n a' b = parentHash blake3 n a b ->
  a' = a \/ collision blake3.
Proof.
  intros H. unfold parentHash in H.
  apply digest_cases in H as [H|H]; [left|right; exact H].
  apply app_inv_head in H. apply app_inv_tail in H. exact H.
Qed.

Lemma parentHash_right blake3 n (a b b' : Hash) :
  parentHash blake3 n a b' = parentHash blake3 n a b ->
  b' = b \/ collision blake3.
Proof.
  intros H. unfold parentHash in H.
  apply digest_cases in H as [H|H]; [left|right; exact H].
  apply app_inv_head in H. apply app_inv_head in H. exact H.
Qed.

Lemma node_hash_data blake3 n (a a' : Hash) :
  node_hash blake3 n a' = node_hash blake3 n a ->
  varBytes a' = varBytes a \/ collision blake3.
Proof.
  intros H. unfold node_hash in H.
  apply digest_cases in H as [H|H]; [left|right; exact H].
  apply app_inv_head in H. exact H.
Qed.

Section OneSlot.

Variable blake3 : list Z -> Hash.
Variable l : leafset.
Variables m m' : MsgMwebUtxos.
(** The changed slot: proof hash [j] when [b] is set, the output id
    of utxo [j] otherwise. *)
Variable b : bool.
Variable j : nat.

Hypothesis Hp : forall i,
  (b = true /\ i = j) \/ proofHashAt m' i = proofHashAt m i.
Hypothesis Hu : forall i,
  (b = false /\ i = j) \/ outputIdAt m' i = outputIdAt m i.
Hypothesis Hpd : b = true -> proofHashAt m' j <> proofHashAt m j.
Hypothesis Hud :
  b = false -> varBytes (outputIdAt m' j) <> varBytes (outputIdAt m j).

Lemma rebuildAt_slot (h : nat) : forall f lu hu,
  ((if b then (hu <= j < hu + needs l h f)%nat
    else (lu <= j < lu + length (leavesIn l h f))%nat) ->
   rebuildAt blake3 l m' h f lu hu = rebuildAt blake3 l m h f lu hu ->
   collision blake3) /\
  (~ (if b then (hu <= j < hu + needs l h f)%nat
      else (lu <= j < lu + length (leavesIn l h f))%nat) ->
   rebuildAt blake3 l m' h f lu hu = rebuildAt blake3 l m h f lu hu).
Proof.
  assert (Hproof : forall (hu lu : nat),
    ((if b then (hu <= j < hu + 1)%nat else (lu <= j < lu + 0)%nat) ->
     proofHashAt m' hu = proofHashAt m hu -> collision blake3) /\
    (~ (if b then (hu <= j < hu + 1)%nat else (lu <= j < lu + 0)%nat) ->
     proofHashAt m' hu = proofHashAt m hu)).
  { intros hu lu. split.
    - intros Hin E. exfalso. destruct b; [|lia].
      assert (hu = j) by lia. subst hu. exact (Hpd eq_refl E).
    - intros Hout. destruct (Hp hu) as [(Eb & Ej)|E]; [|exact E].
      exfalso. apply Hout. rewrite Eb. lia. }
  induction h as [|h IH]; intros f lu hu.
  - cbn [rebuildAt needs leavesIn].
    destruct (Leafset.contains l f); [|apply (Hproof hu lu)].
    cbn [length]. split.
    + intros Hin E. destruct b; [lia|].
      assert (lu = j) by lia. subst lu.
      apply node_hash_data in E as [E|E]; [|exact E].
      exfalso. exact (Hud eq_refl E).
    + intros Hout. destruct (Hu lu) as [(Eb & Ej)|E]; [|rewrite E; reflexivity].
      exfalso. apply Hout. rewrite Eb. lia.
  - cbn [rebuildAt needs leavesIn]. fold (hasLeaf l (S h) f).
    destruct (hasLeaf l (S h) f) eqn:Eh.
    2: { pose proof (leavesIn_empty l (S h) f Eh) as El. cbn [leavesIn] in El.
         rewrite El. cbn [length]. apply (Hproof hu lu). }
    rewrite length_app.
    destruct (IH f lu hu) as (HinL & HoutL).
    destruct (IH (f + pow2 h) (lu + length (leavesIn l h f))%nat
                (hu + needs l h f)%nat) as (HinR & HoutR).
    split.
    + intros Hin E.
      assert (Hdec : Decision (if b then (hu <= j < hu + needs l h f)%nat
                                else (lu <= j < lu + length (leavesIn l h f))%nat))
        by (destruct b; apply _).
      destruct Hdec as [HL|HL].
      * rewrite (HoutR ltac:(destruct b; lia)) in E.
        apply parentHash_left in E as [E|E]; [|exact E].
        exact (HinL HL E).
      * rewrite (HoutL HL) in E.
        apply parentHash_right in E as [E|E]; [|exact E].
        apply HinR; [|exact E]. destruct b; lia.
    + intros Hout.
      rewrite HoutL by (destruct b; lia). rewrite HoutR by (destruct b; lia).
      reflexivity.
Qed.

Lemma rebuildPeaks_slot last n : forall ps lu hu,
  ((if b then (hu <= j < hu + peaksNeeds l last ps)%nat
    else (lu <= j < lu + peaksLeaves l last ps)%nat) ->
   bagHashes (parentHash blake3 n) (rebuildPeaks blake3 l m' last ps lu hu) =
   bagHashes (parentHash blake3 n) (rebuildPeaks blake3 l m last ps lu hu) ->
   collision blake3) /\
  (~ (if b then (hu <= j < hu + peaksNeeds l last ps)%nat
      else (lu <= j < lu + peaksLeaves l last ps)%nat) ->
   rebuildPeaks blake3 l m' last ps lu hu =
   rebuildPeaks blake3 l m last ps lu hu).
Proof.
  induction ps as [|p rest IH]; intros lu hu.
  { split; [|reflexivity]. intros Hin. cbn [peaksNeeds peaksLeaves] in Hin.
    destruct b; lia. }
  cbn [rebuildPeaks peaksNeeds peaksLeaves].
  destruct (rebuildAt_slot (snd p) (fst p) lu hu) as (HinA & HoutA).
  assert (Hdec : Decision (if b then (hu <= j < hu + needs l (snd p) (fst p))%nat
                   else (lu <= j < lu + length (leavesIn l (snd p) (fst p)))%nat))
    by (destruct b; apply _).
  destruct (last <? fst p + pow2 (snd p)).
  - destruct rest as [|q r].
    + rewrite !Nat.add_0_r. cbn [bagHashes]. split; [exact HinA|].
      intros Hout. rewrite (HoutA Hout). reflexivity.
    + cbn [bagHashes]. split.
      * intros Hin E. destruct Hdec as [HA|HA].
        -- destruct (Hp (hu + needs l (snd p) (fst p))%nat) as [(Eb & Ej)|EX].
           { exfalso. rewrite Eb in HA. lia. }
           rewrite EX in E. apply parentHash_left in E as [E|E]; [|exact E].
           exact (HinA HA E).
        -- rewrite (HoutA HA) in E.
           apply parentHash_right in E as [E|E]; [|exact E].
           exfalso. destruct b; [|lia].
           assert (Ej : (hu + needs l (snd p) (fst p))%nat = j) by lia.
           rewrite Ej in E. exact (Hpd eq_refl E).
      * intros Hout. rewrite HoutA by (destruct b; lia).
        destruct (Hp (hu + needs l (snd p) (fst p))%nat) as [(Eb & Ej)|EX];
          [|rewrite EX; reflexivity].
        exfalso. apply Hout. rewrite Eb. lia.
  - destruct (IH (lu + length (leavesIn l (snd p) (fst p)))%nat
                (hu + needs l (snd p) (fst p))%nat) as (HinT & HoutT).
    split.
    + intros Hin E. destruct rest as [|q r].
      * cbn [rebuildPeaks bagHashes peaksNeeds peaksLeaves] in *.
        apply HinA; [|exact E]. destruct b; lia.
      * rewrite !bagHashes_cons in E
          by (apply rebuildPeaks_nonempty; discriminate).
        destruct Hdec as [HA|HA].
        -- rewrite (HoutT ltac:(destruct b; lia)) in E.
           apply parentHash_left in E as [E|E]; [|exact E].
           exact (HinA HA E).
        -- rewrite (HoutA HA) in E.
           apply parentHash_right in E as [E|E]; [|exact E].
           apply HinT; [|exact E]. destruct b; lia.
    + intros Hout.
      rewrite HoutA by (destruct b; lia). rewrite HoutT by (destruct b; lia).
      reflexivity.
Qed.

End OneSlot.

(** ** Flipped bits *)

Lemma flipBit_length k bytes : length (flipBit k bytes) = length bytes.
Proof. unfold flipBit. apply length_alter. Qed.

Lemma lxor_mask_neq x k : Z.lxor x (Z.shiftr 128 (k mod 8)) <> x.
Proof.
  intros E.
  assert (Hm : Z.shiftr 128 (k mod 8) = 0).
  { transitivity (Z.lxor x (Z.lxor x (Z.shiftr 128 (k mod 8)))).
    - rewrite <- Z.lxor_assoc, Z.lxor_nilpotent, Z.lxor_0_l. reflexivity.
    - rewrite E. apply Z.lxor_nilpotent. }
  pose proof (Z.mod_pos_bound k 8 ltac:(lia)) as Hk.
  rewrite Z.shiftr_div_pow2 in Hm by lia.
  assert (2 ^ (k mod 8) <= 128).
  { change 128 with (2 ^ 7). apply Z.pow_le_mono_r; lia. }
  pose proof (Z.pow_pos_nonneg 2 (k mod 8) ltac:(lia) ltac:(lia)).
  pose proof (Z.div_str_pos 128 (2 ^ (k mod 8)) ltac:(lia)). lia.
Qed.

Lemma flipBit_neq k bytes :
  0 <= k < 8 * Z.of_nat (length bytes) -> flipBit k bytes <> bytes.
Proof.
  intros Hk E. unfold flipBit in E.
  assert (Hlt : (Z.to_nat (k / 8) < length bytes)%nat).
  { pose proof (Z.div_lt_upper_bound k 8 (Z.of_nat (length bytes)) ltac:(lia) ltac:(lia)).
    pose proof (Z.div_pos k 8 ltac:(lia) ltac:(lia)). lia. }
  destruct (lookup_lt_is_Some_2 _ _ Hlt) as [x Hx].
  pose proof (list_lookup_alter_eq (fun x => Z.lxor x (Z.shiftr 128 (k mod 8)))
                bytes (Z.to_nat (k / 8))) as Ha.
  rewrite E, Hx in Ha. cbn in Ha. injection Ha as Ha.
  symmetry in Ha. exact (lxor_mask_neq x k Ha).
Qed.

Lemma nth_alter_ne {A} (f : A -> A) (xs : list A) (i j : nat) d :
  i <> j -> nth i (alter f j xs) d = nth i xs d.
Proof.
  intros Hne. rewrite !nth_lookup, list_lookup_alter_ne by congruence.
  reflexivity.
Qed.

Lemma nth_alter_eq {A} (f : A -> A) (xs : list A) (j : nat) d :
  (j < length xs)%nat -> nth j (alter f j xs) d = f (nth j xs d).
Proof.
  intros Hlt. destruct (lookup_lt_is_Some_2 _ _ Hlt) as [x Hx].
  rewrite !nth_lookup, list_lookup_alter_eq, Hx. reflexivity.
Qed.

Lemma flat_map_nil {A B} (g : A -> list B) (xs : list A) :
  (forall x, In x xs -> g x = []) -> flat_map g xs = [].
Proof.
  induction xs as [|x xs IH]; intros H; [reflexivity|].
  cbn [flat_map]. rewrite (H x) by (left; reflexivity).
  apply IH. intros y Hy. apply H. right. exact Hy.
Qed.

(** The walk to the peak of the last unspent leaf meets every unspent
    leaf. *)
Lemma peaksLeaves_all l N last :
  (forall i, 0 <= i -> Leafset.contains l i = true -> i <= last) ->
  forall ps f k, peaksChain N f k ps ->
  peaksLeaves l last ps =
  length (flat_map (fun p => leavesIn l (snd p) (fst p)) ps).
Proof.
  intros Hmax. induction ps as [|p rest IH]; intros f k Hc; [reflexivity|].
  cbn [peaksLeaves flat_map]. rewrite length_app. f_equal.
  cbn [peaksChain] in Hc. destruct Hc as (Hf & Hk & H0 & Hm & Hn & Hrest).
  destruct (Z.ltb_spec last (fst p + pow2 (snd p))) as [Hbr|Hgo].
  - rewrite flat_map_nil; [reflexivity|].
    intros q Hq. destruct (peaksChain_firsts N _ _ _ Hrest q Hq) as [Hq1 _].
    destruct (leavesIn l (snd q) (fst q)) as [|x xs] eqn:E; [reflexivity|exfalso].
    assert (Hx : In x (leavesIn l (snd q) (fst q))) by (rewrite E; left; reflexivity).
    apply leavesIn_bounds in Hx as [Hx1 Hx2].
    pose proof (pow2_pos (snd p)).
    specialize (Hmax x ltac:(lia) Hx2). lia.
  - eapply IH. exact Hrest.
Qed.

Lemma decide_against (x x' r : Hash) (P : Prop) :
  (x' = x -> P) ->
  Some (bool_decide (x = r)) = Some true ->
  Some (bool_decide (x' = r)) = Some false \/ P.
Proof.
  intros HP Hacc.
  destruct (decide (x = r)) as [Ex|Ex].
  - destruct (decide (x' = r)) as [Ex'|Ex'].
    + right. apply HP. congruence.
    + left. rewrite bool_decide_eq_false_2 by exact Ex'. reflexivity.
  - rewrite bool_decide_eq_false_2 in Hacc by exact Ex. discriminate Hacc.
Qed.

Lemma peaks_chain_of N :
  0 < N < 2 ^ 63 -> peaksChain N 0 63 (mmrPeaks 63 N 0).
Proof.
  intros HN. pose proof (mmrPeaks_chain 63 N 0) as H. rewrite Z.add_0_l in H.
  apply H; [split; [lia|apply HN]|lia|reflexivity].
Qed.

Section Flips.

Variable blake3 : list Z -> Hash.

(** A batch of the full shape in which one proof hash or one output
    id is replaced by a different value of the same length is rejected
    when the original is accepted, unless the digest collides. *)
Lemma verifyMwebUtxos_one_slot (mwebHeader : MwebHeader) (l : leafset)
    (m m' : MsgMwebUtxos) (b : bool) (j : nat) :
  0 < OutputMMRSize mwebHeader < 2 ^ 63 -> Z.of_nat (length l) < 2 ^ 61 ->
  fullBatch l (OutputMMRSize mwebHeader) m ->
  fullBatch l (OutputMMRSize mwebHeader) m' ->
  (forall i, (b = true /\ i = j) \/ proofHashAt m' i = proofHashAt m i) ->
  (forall i, (b = false /\ i = j) \/ outputIdAt m' i = outputIdAt m i) ->
  (b = true -> proofHashAt m' j <> proofHashAt m j) ->
  (b = false -> varBytes (outputIdAt m' j) <> varBytes (outputIdAt m j)) ->
  (if b then (j < length (ProofHashes m))%nat else (j < length (Utxos m))%nat) ->
  verifyMwebUtxos blake3 mwebHeader l m = Some true ->
  verifyMwebUtxos blake3 mwebHeader l m' = Some false \/ collision blake3.
Proof.
  intros HN Hbits Hfull Hfull' Hp Hu Hpd Hud Hj Hacc.
  rewrite (verifyMwebUtxos_full blake3 _ l m HN Hbits Hfull) in Hacc.
  rewrite (verifyMwebUtxos_full blake3 _ l m' HN Hbits Hfull').
  eapply decide_against; [|exact Hacc].
  intros E.
  destruct Hfull as (Hl & Hne & Hidx & Hstart & Hlen).
  destruct (unspent_ends l _ Hne Hl) as (Hfirst & Hlast & Hrange).
  destruct (rebuildPeaks_slot blake3 l m m' b j Hp Hu Hpd Hud
              (List.last (unspent l (OutputMMRSize mwebHeader)) 0)
              (mmrSize (OutputMMRSize mwebHeader))
              (mmrPeaks 63 (OutputMMRSize mwebHeader) 0) 0%nat 0%nat) as (Hin & _).
  apply Hin; [|exact E].
  destruct b.
  - rewrite <- Hlen. lia.
  - rewrite (peaksLeaves_all l (OutputMMRSize mwebHeader) _
               (fun i Hi Hc' => proj2 (Hrange i Hi Hc')) _ 0 63%nat
               (peaks_chain_of _ HN)).
    rewrite <- (unspent_peaks l _) by lia.
    rewrite <- Hidx, length_map. lia.
Qed.

End Flips.

Section FlipTheorems.

Variable blake3 : list Z -> Hash.

(** X11: a flipped bit in a proof hash is noticed. When a batch of
    the full shape is accepted, the same batch with one bit of one
    proof hash flipped is rejected, unless two different inputs of
    the digest collide. *)
Theorem verifyMwebUtxos_rejects_flipped_proof (mwebHeader : MwebHeader)
    (l : leafset) (m : MsgMwebUtxos) (j : nat) (k : Z) :
  0 < OutputMMRSize mwebHeader < 2 ^ 63 -> Z.of_nat (length l) < 2 ^ 61 ->
  fullBatch l (OutputMMRSize mwebHeader) m ->
  verifyMwebUtxos blake3 mwebHeader l m = Some true ->
  (j < length (ProofHashes m))%nat ->
  0 <= k < 8 * Z.of_nat (length (proofHashAt m j)) ->
  verifyMwebUtxos blake3 mwebHeader l (flipProofHash j k m) = Some false \/
  collision blake3.
Proof.
  intros HN Hbits Hfull Hacc Hj Hk.
  apply (verifyMwebUtxos_one_slot blake3 mwebHeader l m (flipProofHash j k m)
           true j HN Hbits Hfull); try assumption.
  - destruct Hfull as (Hl & Hne & Hidx & Hstart & Hlen).
    split; [exact Hl|]. split; [exact Hne|]. split; [exact Hidx|].
    split; [exact Hstart|].
    unfold flipProofHash, withProofHashes. cbn [ProofHashes].
    rewrite length_alter. exact Hlen.
  - intros i. destruct (decide (i = j)) as [->|Hne]; [left; auto|right].
    unfold proofHashAt, flipProofHash, withProofHashes. cbn [ProofHashes].
    apply nth_alter_ne. exact Hne.
  - intros i. right. reflexivity.
  - intros _. unfold proofHashAt at 1, flipProofHash, withProofHashes.
    cbn [ProofHashes]. rewrite nth_alter_eq by exact Hj.
    apply flipBit_neq. exact Hk.
  - intros Hb. discriminate Hb.
Qed.

(** X12: a flipped bit in an output id is noticed. When a batch of
    the full shape is accepted, the same batch with one bit of the
    output id of one utxo flipped is rejected, unless two different
    inputs of the digest collide. *)
Theorem verifyMwebUtxos_rejects_flipped_id (mwebHeader : MwebHeader)
    (l : leafset) (m : MsgMwebUtxos) (j : nat) (k : Z) :
  0 < OutputMMRSize mwebHeader < 2 ^ 63 -> Z.of_nat (length l) < 2 ^ 61 ->
  fullBatch l (OutputMMRSize mwebHeader) m ->
  verifyMwebUtxos blake3 mwebHeader l m = Some true ->
  (j < length (Utxos m))%nat ->
  0 <= k < 8 * Z.of_nat (length (outputIdAt m j)) ->
  verifyMwebUtxos blake3 mwebHeader l (flipOutputId j k m) = Some false \/
  collision blake3.
Proof.
  intros HN Hbits Hfull Hacc Hj Hk.
  assert (Eids : map OutputId (Utxos (flipOutputId j k m)) =
                 alter (flipBit k) j (map OutputId (Utxos m))).
  { unfold flipOutputId, withUtxos. cbn [Utxos].
    apply (list_fmap_alter OutputId). apply Forall_forall. intros u _. reflexivity. }
  apply (verifyMwebUtxos_one_slot blake3 mwebHeader l m (flipOutputId j k m)
           false j HN Hbits Hfull); try assumption.
  - destruct Hfull as (Hl & Hne & Hidx & Hstart & Hlen).
    split; [exact Hl|]. split; [exact Hne|]. split; [|split; [exact Hstart|exact Hlen]].
    rewrite <- Hidx. unfold flipOutputId, withUtxos. cbn [Utxos].
    transitivity (alter (fun x : Z => x) j (map LeafIndex (Utxos m))).
    + apply (list_fmap_alter LeafIndex). apply Forall_forall. intros u _. reflexivity.
    + apply list_eq. intros i. rewrite list_lookup_alter.
      destruct (decide (j = i)) as [->|]; [|reflexivity].
      destruct (map LeafIndex (Utxos m) !! i); reflexivity.
  - intros i. right. reflexivity.
  - intros i. destruct (decide (i = j)) as [->|Hne]; [left; auto|right].
    unfold outputIdAt. rewrite Eids. apply nth_alter_ne. exact Hne.
  - intros Hb. discriminate Hb.
  - intros _. unfold outputIdAt at 1. rewrite Eids.
    rewrite nth_alter_eq by (rewrite length_map; exact Hj).
    fold (outputIdAt m j). unfold varBytes. rewrite flipBit_length.
    intros E. apply app_inv_head in E. revert E. apply flipBit_neq. exact Hk.
Qed.

(** X13: the accepted batch pins the leafset inside its range. When
    a batch is accepted with leafset [l], every leafset that differs
    from [l] at an index between [StartIndex] and the last
    [LeafIndex] of the batch rejects it. *)
Theorem verifyMwebUtxos_binds_leafset (mwebHeader : MwebHeader)
    (l l' : leafset) (m : MsgMwebUtxos) (k lastIdx : Z) :
  0 <= StartIndex m < 2 ^ 64 ->
  Z.of_nat (length l) < 2 ^ 61 -> Z.of_nat (length l') < 2 ^ 61 ->
  verifyMwebUtxos blake3 mwebHeader l m = Some true ->
  emptyMMR mwebHeader m = false ->
  last (map LeafIndex (Utxos m)) = Some lastIdx ->
  StartIndex m <= k <= lastIdx ->
  Leafset.contains l' k <> Leafset.contains l k ->
  verifyMwebUtxos blake3 mwebHeader l' m = Some false.
Proof.
  intros Hs Hlen Hlen' Hv He Hlast Hk Hdiff.
  unfold verifyMwebUtxos in *. rewrite He in *.
  destruct (_ || _) eqn:Hz; [discriminate|].
  assert (Hpos : (0 < length (Utxos m))%nat).
  { apply orb_false_iff in Hz as [Hz _].
    apply bool_decide_eq_false_1 in Hz. lia. }
  destruct (leafWalk l _ _ _ _) as [[lastL|]|] eqn:Hw; try discriminate.
  apply leafWalk_chain in Hw; [|lia]. rewrite drop_0 in Hw.
  assert (Hl8 : 8 * Z.of_nat (length l) < 2 ^ 64) by lia.
  assert (Hl8' : 8 * Z.of_nat (length l') < 2 ^ 64) by lia.
  assert (Hs0 : 0 <= StartIndex m) by lia.
  destruct (unspentChain_covers l _ _ _ Hl8 Hs0 Hw) as (_ & _ & Hcov).
  pose proof (unspentChain_last _ _ _ _ Hw) as HlastL.
  destruct (leafWalk_total l' (Utxos m) (length (Utxos m)) 0 (StartIndex m)
              (Nat.add_0_r _) Hpos Hs) as (r & Hr).
  rewrite Hr. destruct r as [lastL'|]; [exfalso|reflexivity].
  apply leafWalk_chain in Hr; [|lia]. rewrite drop_0 in Hr.
  destruct (unspentChain_covers l' _ _ _ Hl8' Hs0 Hr) as (_ & _ & Hcov').
  pose proof (unspentChain_last _ _ _ _ Hr) as HlastL'.
  assert (lastL = lastIdx) by congruence.
  assert (lastL' = lastIdx) by congruence. subst lastL lastL'.
  apply Hdiff.
  specialize (Hcov k Hk). specialize (Hcov' k Hk).
  destruct (Leafset.contains l' k), (Leafset.contains l k); try reflexivity.
  - symmetry. apply Hcov, Hcov'. reflexivity.
  - apply Hcov', Hcov. reflexivity.
Qed.

End FlipTheorems.

Lemma verifyMwebUtxos_rejects_flipped_proof_witness :
  verifyMwebUtxos plainDigest threeLeafHeader [160]
    (flipProofHash 0 0 threeLeafBatch) = Some false \/
  collision plainDigest.
Proof.
  apply (verifyMwebUtxos_rejects_flipped_proof plainDigest threeLeafHeader [160]
           threeLeafBatch 0 0);
    [cbn; lia|cbn; lia|exact threeLeafBatch_full|vm_compute; reflexivity
    |cbn; lia|split; [lia|vm_compute; reflexivity]].
Defined.

Lemma verifyMwebUtxos_rejects_flipped_id_witness :
  verifyMwebUtxos plainDigest threeLeafHeader [160]
    (flipOutputId 1 7 threeLeafBatch) = Some false \/
  collision plainDigest.
Proof.
  apply (verifyMwebUtxos_rejects_flipped_id plainDigest threeLeafHeader [160]
           threeLeafBatch 1 7);
    [cbn; lia|cbn; lia|exact threeLeafBatch_full|vm_compute; reflexivity
    |cbn; lia|split; [lia|vm_compute; reflexivity]].
Defined.

Lemma verifyMwebUtxos_binds_leafset_witness :
  verifyMwebUtxos plainDigest threeLeafHeader [224] threeLeafBatch = Some false.
Proof.
  apply (verifyMwebUtxos_binds_leafset plainDigest threeLeafHeader [160] [224]
           threeLeafBatch 1 2);
    [cbn; lia|cbn; lia|cbn; lia|vm_compute; reflexivity|reflexivity
    |reflexivity|cbn; lia|vm_compute; discriminate].
Defined.

(** ** What the header verifier accepts, and where it panics *)

Lemma index_final {A} (xs : list A) :
  index xs (Z.of_nat (length xs) - 1) = last xs.
Proof.
  destruct xs as [|x xs] using rev_ind; [reflexivity|].
  rewrite index_last, last_snoc. reflexivity.
Qed.

Lemma index_first {A} (xs : list A) : index xs 0 = head xs.
Proof. destruct xs; reflexivity. Qed.

Section HeaderOutcomes.

Variable blake3 : list Z -> Hash.
Variable blockHash : BlockHeader -> Hash.
Variable VerifyMerkleBlock : MsgMerkleBlock -> ExtractResult.
Variable txHash : MsgTx -> Hash.
Variable mwebHeaderHash : MwebHeader -> Hash.

(** X14: [verifyMwebHeader] returns true exactly when both messages
    are present, the merkle block header hashes to the expected block
    hash, the partial merkle tree folds to the header's merkle root,
    the transaction is flagged HogEx, it is the last matched
    transaction and sits at position [Transactions - 1], its first
    output script is [OP_8 0x20] followed by the hash of the MWEB
    header, and the leafset hashes to the header's leafset root. *)
Theorem verifyMwebHeader_accepts_iff (mwebHeader : option MsgMwebHeader)
    (mwebLeafset : option MsgMwebLeafset) (lastHeight : Z) (lastHash : Hash) :
  verifyMwebHeader blake3 blockHash VerifyMerkleBlock txHash mwebHeaderHash
    mwebHeader mwebLeafset lastHeight lastHash = Some true <->
  exists h ls out,
    mwebHeader = Some h /\ mwebLeafset = Some ls /\
    blockHash (Header (Merkle h)) = lastHash /\
    Root (VerifyMerkleBlock (Merkle h)) = Some (MerkleRoot (Header (Merkle h))) /\
    IsHogEx (Hogex h) = true /\
    last (Match (VerifyMerkleBlock (Merkle h))) = Some (txHash (Hogex h)) /\
    last (Index (VerifyMerkleBlock (Merkle h))) =
      Some ((Transactions (Merkle h) - 1) mod 2 ^ 32) /\
    head (TxOuts (Hogex h)) = Some out /\
    PkScript out = [OP_8; 32] ++ mwebHeaderHash (MwebHeaderOf h) /\
    blake3 (Leafset ls) = LeafsetRoot (MwebHeaderOf h).
Proof.
  unfold verifyMwebHeader. split.
  - destruct mwebHeader as [h|], mwebLeafset as [ls|]; try discriminate.
    rewrite !index_final, !index_first.
    destruct (bool_decide (blockHash _ = _)) eqn:E1; [|discriminate].
    apply bool_decide_eq_true_1 in E1. cbn [negb].
    destruct (Root _) as [r|] eqn:E2; cbn [IsEqual negb]; [|discriminate].
    destruct (bool_decide (r = _)) eqn:E2'; [|discriminate].
    apply bool_decide_eq_true_1 in E2'. subst r. cbn [negb].
    destruct (IsHogEx _) eqn:E3; [|discriminate]. cbn [negb].
    destruct (last (Match _)) as [tx|] eqn:E4; [|discriminate].
    destruct (bool_decide (txHash _ = tx)) eqn:E4'; [|discriminate].
    apply bool_decide_eq_true_1 in E4'. subst tx. cbn [negb].
    destruct (last (Index _)) as [pos|] eqn:E5; [|discriminate].
    destruct (pos =? _) eqn:E5'; [|discriminate].
    apply Z.eqb_eq in E5'. subst pos. cbn [negb].
    destruct (head (TxOuts _)) as [out|] eqn:E6; [|discriminate].
    destruct (bool_decide (PkScript out = _)) eqn:E7; [|discriminate].
    apply bool_decide_eq_true_1 in E7. cbn [negb].
    destruct (bool_decide (blake3 _ = _)) eqn:E8; [|discriminate].
    apply bool_decide_eq_true_1 in E8. intros _.
    exists h, ls, out. auto 12.
  - intros (h & ls & out & -> & -> & E1 & E2 & E3 & E4 & E5 & E6 & E7 & E8).
    rewrite !index_final, !index_first.
    rewrite (bool_decide_eq_true_2 _ E1). cbn [negb].
    rewrite E2. cbn [IsEqual]. rewrite bool_decide_eq_true_2 by reflexivity.
    cbn [negb]. rewrite E3. cbn [negb]. rewrite E4.
    rewrite bool_decide_eq_true_2 by reflexivity. cbn [negb].
    rewrite E5, Z.eqb_refl. cbn [negb]. rewrite E6.
    rewrite (bool_decide_eq_true_2 _ E7). cbn [negb].
    rewrite (bool_decide_eq_true_2 _ E8). reflexivity.
Qed.

(** X15: [verifyMwebHeader] panics exactly when the block hash, the
    merkle root and the HogEx flag check out and then a slice is
    empty: no matched transaction; or, the last match being the HogEx
    transaction, no matched position; or, the last position being
    [Transactions - 1], no output in the HogEx transaction. *)
Theorem verifyMwebHeader_panics_iff (mwebHeader : option MsgMwebHeader)
    (mwebLeafset : option MsgMwebLeafset) (lastHeight : Z) (lastHash : Hash) :
  verifyMwebHeader blake3 blockHash VerifyMerkleBlock txHash mwebHeaderHash
    mwebHeader mwebLeafset lastHeight lastHash = None <->
  exists h ls,
    mwebHeader = Some h /\ mwebLeafset = Some ls /\
    blockHash (Header (Merkle h)) = lastHash /\
    Root (VerifyMerkleBlock (Merkle h)) = Some (MerkleRoot (Header (Merkle h))) /\
    IsHogEx (Hogex h) = true /\
    (Match (VerifyMerkleBlock (Merkle h)) = [] \/
     (last (Match (VerifyMerkleBlock (Merkle h))) = Some (txHash (Hogex h)) /\
      (Index (VerifyMerkleBlock (Merkle h)) = [] \/
       (last (Index (VerifyMerkleBlock (Merkle h))) =
          Some ((Transactions (Merkle h) - 1) mod 2 ^ 32) /\
        TxOuts (Hogex h) = [])))).
Proof.
  unfold verifyMwebHeader. split.
  - destruct mwebHeader as [h|], mwebLeafset as [ls|]; try discriminate.
    rewrite !index_final, !index_first.
    destruct (bool_decide (blockHash _ = _)) eqn:E1; [|discriminate].
    apply bool_decide_eq_true_1 in E1. cbn [negb].
    destruct (Root _) as [r|] eqn:E2; cbn [IsEqual negb]; [|discriminate].
    destruct (bool_decide (r = _)) eqn:E2'; [|discriminate].
    apply bool_decide_eq_true_1 in E2'. subst r. cbn [negb].
    destruct (IsHogEx _) eqn:E3; [|discriminate]. cbn [negb].
    intros H. exists h, ls. do 5 (split; [auto|]).
    destruct (last (Match _)) as [tx|] eqn:E4.
    2: { left. apply last_None. exact E4. }
    right.
    destruct (bool_decide (txHash _ = tx)) eqn:E4'; [|discriminate].
    apply bool_decide_eq_true_1 in E4'. subst tx. cbn [negb] in H.
    split; [reflexivity|].
    destruct (last (Index _)) as [pos|] eqn:E5.
    2: { left. apply last_None. exact E5. }
    right.
    destruct (pos =? _) eqn:E5'; [|discriminate].
    apply Z.eqb_eq in E5'. subst pos. cbn [negb] in H.
    split; [reflexivity|].
    destruct (TxOuts (Hogex h)) as [|out outs] eqn:E6; [reflexivity|].
    cbn [head] in H. destruct (bool_decide _); cbn [negb] in H; [|discriminate].
    destruct (bool_decide _); discriminate.
  - intros (h & ls & -> & -> & E1 & E2 & E3 & Hcase).
    rewrite !index_final, !index_first.
    rewrite (bool_decide_eq_true_2 _ E1). cbn [negb].
    rewrite E2. cbn [IsEqual]. rewrite bool_decide_eq_true_2 by reflexivity.
    cbn [negb]. rewrite E3. cbn [negb].
    destruct Hcase as [E4|(E4 & Hcase)]; [rewrite E4; reflexivity|].
    rewrite E4. rewrite bool_decide_eq_true_2 by reflexivity. cbn [negb].
    destruct Hcase as [E5|(E5 & E6)]; [rewrite E5; reflexivity|].
    rewrite E5, Z.eqb_refl. cbn [negb]. rewrite E6. reflexivity.
Qed.

End HeaderOutcomes.

(** ** The common prefix *)

Lemma commonPrefix_bounds : forall old new,
  0 <= commonPrefix old new <= Z.of_nat (length old) /\
  commonPrefix old new <= Z.of_nat (length new).
Proof.
  induction old as [|a old IH]; intros new; [cbn; lia|].
  destruct new as [|b new]; [cbn; lia|].
  cbn [commonPrefix length]. destruct (a =? b); [|lia].
  specialize (IH new). lia.
Qed.

Lemma commonPrefix_nth : forall old new k,
  (Z.of_nat k < commonPrefix old new) -> nth k old 0 = nth k new 0.
Proof.
  induction old as [|a old IH]; intros new k Hk; [cbn in Hk; lia|].
  destruct new as [|b new]; [cbn in Hk; lia|].
  cbn [commonPrefix] in Hk. destruct (Z.eqb_spec a b) as [->|]; [|lia].
  destruct k as [|k]; [reflexivity|]. cbn [nth]. apply IH. lia.
Qed.

Lemma commonPrefix_stops : forall old new,
  commonPrefix old new < Z.of_nat (length old) ->
  commonPrefix old new < Z.of_nat (length new) ->
  nth (Z.to_nat (commonPrefix old new)) old 0 <>
  nth (Z.to_nat (commonPrefix old new)) new 0.
Proof.
  induction old as [|a old IH]; intros new Ho Hn; [cbn in Ho; lia|].
  destruct new as [|b new]; [cbn in Hn; lia|].
  cbn [commonPrefix length] in *.
  destruct (Z.eqb_spec a b) as [->|Hne]; [|exact Hne].
  pose proof (commonPrefix_bounds old new).
  replace (Z.to_nat (1 + commonPrefix old new))
    with (S (Z.to_nat (commonPrefix old new))) by lia.
  cbn [nth]. apply IH; lia.
Qed.

(** Below the common prefix the two leafsets hold the same leaves. *)
Lemma commonPrefix_contains old new i :
  0 <= i < 8 * commonPrefix old new ->
  Leafset.contains old i = Leafset.contains new i.
Proof.
  intros Hi. pose proof (commonPrefix_bounds old new) as (Hb1 & Hb2).
  assert (Hq : 0 <= i / 8 < commonPrefix old new).
  { split; [apply Z.div_pos; lia|apply Z.div_lt_upper_bound; lia]. }
  unfold Leafset.contains.
  replace (Z.of_nat (length old) <=? i / 8) with false
    by (symmetry; apply Z.leb_gt; lia).
  replace (Z.of_nat (length new) <=? i / 8) with false
    by (symmetry; apply Z.leb_gt; lia).
  rewrite (commonPrefix_nth old new (Z.to_nat (i / 8))) by lia. reflexivity.
Qed.

(** X16: the byte scan that opens [getMwebUtxos] and
    [notifyAddedMwebUtxos] stops within both bitmaps, at the first byte
    where they differ; below eight times its result the two leafsets
    hold the same leaves. *)
Theorem commonPrefix_spec (old new : leafset) :
  0 <= commonPrefix old new <= Z.of_nat (length old) /\
  commonPrefix old new <= Z.of_nat (length new) /\
  (forall k, (Z.of_nat k < commonPrefix old new) -> nth k old 0 = nth k new 0) /\
  (commonPrefix old new < Z.of_nat (length old) ->
   commonPrefix old new < Z.of_nat (length new) ->
   nth (Z.to_nat (commonPrefix old new)) old 0 <>
   nth (Z.to_nat (commonPrefix old new)) new 0) /\
  (forall i, 0 <= i < 8 * commonPrefix old new ->
             Leafset.contains old i = Leafset.contains new i).
Proof.
  pose proof (commonPrefix_bounds old new) as (H1 & H2).
  split; [exact H1|]. split; [exact H2|].
  split; [apply commonPrefix_nth|].
  split; [apply commonPrefix_stops|apply commonPrefix_contains].
Qed.

(** ** The scan of [notifyAddedMwebUtxos] *)

Lemma seqZ_snoc a (n : nat) :
  seqZ a (Z.of_nat (S n)) = seqZ a (Z.of_nat n) ++ [a + Z.of_nat n].
Proof.
  rewrite Nat2Z.inj_succ. unfold Z.succ. rewrite seqZ_app by lia.
  f_equal.
Qed.

Lemma addedLoop_filter old new n : forall fuel index acc,
  index + Z.of_nat fuel = Z.max index n ->
  addedLoop fuel old new n index acc =
  acc ++ List.filter (isAdded old new) (seqZ index (Z.of_nat fuel)).
Proof.
  induction fuel as [|fuel IH]; intros index acc Hf.
  - cbn. rewrite app_nil_r. reflexivity.
  - cbn [addedLoop].
    replace (index <? n) with true by (symmetry; apply Z.ltb_lt; lia).
    rewrite IH by lia.
    rewrite Nat2Z.inj_succ, (seqZ_cons index) by lia. cbn [List.filter].
    replace (Z.pred (Z.succ (Z.of_nat fuel))) with (Z.of_nat fuel) by lia.
    replace (Z.succ index) with (index + 1) by lia.
    unfold isAdded at 2.
    destruct (negb (Leafset.contains old index) && Leafset.contains new index).
    + rewrite <- app_assoc. reflexivity.
    + reflexivity.
Qed.

Lemma filter_skip_prefix (f : Z -> bool) a n :
  0 <= a <= n -> (forall i, 0 <= i < a -> f i = false) ->
  List.filter f (seqZ 0 n) = List.filter f (seqZ a (n - a)).
Proof.
  intros Ha Hf. replace n with (a + (n - a)) at 1 by lia.
  rewrite seqZ_app by lia. rewrite List.filter_app, Z.add_0_l.
  rewrite filter_none; [reflexivity|].
  intros x Hx. apply In_seqZ in Hx. apply Hf. lia.
Qed.

(** X17: [notifyAddedMwebUtxos] reports exactly the leaves below the
    new leaf count that are set in the database leafset and not in the
    caller's, in ascending order; skipping the common byte prefix loses
    none of them. *)
Theorem notifyAddedLeaves_exact (oldLeafset newLeafset : leafset)
    (newNumLeaves : Z) :
  0 <= newNumLeaves -> Z.of_nat (length oldLeafset) < 2 ^ 61 ->
  notifyAddedLeaves oldLeafset newLeafset newNumLeaves =
  List.filter (isAdded oldLeafset newLeafset) (seqZ 0 newNumLeaves).
Proof.
  intros Hn Hlen. unfold notifyAddedLeaves.
  pose proof (commonPrefix_bounds oldLeafset newLeafset) as (Hb1 & Hb2).
  rewrite u64_small by lia.
  set (p := commonPrefix oldLeafset newLeafset * 8).
  destruct (Z_le_dec p newNumLeaves) as [Hle|Hgt].
  - rewrite addedLoop_filter by lia. cbn [app].
    rewrite Z2Nat.id by lia.
    symmetry. apply filter_skip_prefix; [lia|].
    intros i Hi. unfold isAdded.
    rewrite (commonPrefix_contains oldLeafset newLeafset i) by (unfold p in Hi; lia).
    destruct (Leafset.contains newLeafset i); reflexivity.
  - replace (Z.to_nat (newNumLeaves - p)) with 0%nat by lia. cbn [addedLoop].
    symmetry. apply filter_none. intros i Hi. apply In_seqZ in Hi.
    unfold isAdded.
    rewrite (commonPrefix_contains oldLeafset newLeafset i) by (unfold p in Hgt; lia).
    destruct (Leafset.contains newLeafset i); reflexivity.
Qed.

Lemma notifyAddedLeaves_exact_witness :
  notifyAddedLeaves [160] [176] 4 =
  List.filter (isAdded [160] [176]) (seqZ 0 4).
Proof. apply (notifyAddedLeaves_exact [160] [176] 4); [lia|cbn; lia]. Defined.

(** ** The plan of the differ *)

Lemma chunks_snoc_new : forall spans A x,
  chunks A spans -> chunks (A ++ [x]) (spans ++ [{| start := x; count := 1 |}]).
Proof.
  induction spans as [|sp rest IH]; intros A x H.
  - cbn [chunks] in H. subst A. cbn. repeat split; lia.
  - cbn [chunks app] in *. destruct H as (Hc & Hh & Hl & Hr).
    split; [exact Hc|]. split.
    { destruct A; [discriminate|exact Hh]. }
    split; [rewrite length_app; cbn; lia|].
    rewrite drop_app_le by lia. apply IH. exact Hr.
Qed.

Lemma chunks_snoc_extend : forall spans A x s c,
  0 < c ->
  chunks A (spans ++ [{| start := s; count := c |}]) ->
  chunks (A ++ [x]) (spans ++ [{| start := s; count := c + 1 |}]).
Proof.
  induction spans as [|sp rest IH]; intros A x s c Hc H.
  - cbn [chunks app start count] in *. destruct H as (_ & Hh & Hl & Hr).
    apply (f_equal (@length Z)) in Hr. rewrite length_drop in Hr. cbn in Hr.
    split; [lia|]. split.
    { destruct A; [discriminate|exact Hh]. }
    split; [rewrite length_app; cbn; lia|].
    apply drop_ge. rewrite length_app. cbn. lia.
  - cbn [chunks app] in *. destruct H as (Hcs & Hh & Hl & Hr).
    split; [exact Hcs|]. split.
    { destruct A; [discriminate|exact Hh]. }
    split; [rewrite length_app; cbn; lia|].
    rewrite drop_app_le by lia. apply IH; assumption.
Qed.

Lemma filter_snoc (f : Z -> bool) xs x :
  List.filter f (xs ++ [x]) = List.filter f xs ++ (if f x then [x] else []).
Proof. rewrite List.filter_app. reflexivity. Qed.

Lemma plannedSpans_removed st r :
  plannedSpans {| addLeaf := addLeaf st; addedLeaves := addedLeaves st;
                  removedLeaves := r |} = plannedSpans st.
Proof. reflexivity. Qed.


Lemma chunks_start_in : forall spans A j b,
  chunks A spans -> spans !! j = Some b ->
  exists k, A !! k = Some (start b).
Proof.
  induction spans as [|sp rest IH]; intros A j b H Hb; [destruct j; discriminate|].
  cbn [chunks] in H. destruct H as (Hc & Hh & Hl & Hr).
  destruct j as [|j].
  - cbn in Hb. injection Hb as <-. exists 0%nat.
    destruct A; [discriminate|exact Hh].
  - cbn in Hb. destruct (IH _ _ _ Hr Hb) as (k & Hk).
    rewrite lookup_drop in Hk. eauto.
Qed.

Lemma filter_seqZ_ascending (f : Z -> bool) a (n : nat) :
  forall i j x y,
    List.filter f (seqZ a (Z.of_nat n)) !! i = Some x ->
    List.filter f (seqZ a (Z.of_nat n)) !! j = Some y ->
    (i < j)%nat -> x < y.
Proof.
  induction n as [|n IH]; intros i j x y Hx Hy Hij.
  { destruct i; discriminate. }
  rewrite seqZ_snoc, filter_snoc in Hx, Hy.
  assert (Hbound : forall k z,
            List.filter f (seqZ a (Z.of_nat n)) !! k = Some z -> z < a + Z.of_nat n).
  { intros k z Hz. apply list_elem_of_lookup_2, list_elem_of_In in Hz.
    apply List.filter_In in Hz as [Hz _]. apply In_seqZ in Hz. lia. }
  apply lookup_app_Some in Hy as [Hy1|[Hlen Hy2]].
  - rewrite lookup_app_l in Hx by (apply lookup_lt_Some in Hy1; lia).
    eapply IH; eauto.
  - destruct (f (a + Z.of_nat n)); [|destruct (j - _)%nat; discriminate].
    destruct (j - _)%nat as [|k] eqn:Ej; [|destruct k; discriminate].
    rewrite lookup_app_l in Hx by lia.
    cbn in Hy2. injection Hy2 as <-. eapply Hbound. exact Hx.
Qed.

Lemma chunks_ascending : forall spans A,
  (forall i j x y, A !! i = Some x -> A !! j = Some y -> (i < j)%nat -> x < y) ->
  chunks A spans -> ascending spans.
Proof.
  induction spans as [|sp rest IH]; intros A Hasc H i j a b Ha Hb Hij.
  { destruct i; discriminate. }
  cbn [chunks] in H. destruct H as (Hc & Hh & Hl & Hr).
  destruct j as [|j]; [lia|]. cbn in Hb.
  destruct i as [|i].
  - cbn in Ha. injection Ha as <-.
    destruct (chunks_start_in _ _ _ _ Hr Hb) as (k & Hk).
    rewrite lookup_drop in Hk.
    apply (Hasc 0%nat (Z.to_nat (count sp) + k)%nat); [|exact Hk|lia].
    destruct A; [discriminate|exact Hh].
  - cbn in Ha. apply (IH (drop (Z.to_nat (count sp)) A)) with (i := i) (j := j);
      [|exact Hr|exact Ha|exact Hb|lia].
    intros i' j' x y Hx Hy Hij'. rewrite lookup_drop in Hx, Hy.
    eapply Hasc; eauto. lia.
Qed.

Section Plan.

Variable MaxMwebUtxosPerQuery : Z.
Hypothesis Hmax : 0 < MaxMwebUtxosPerQuery < 2 ^ 16.
Variables old new : leafset.

(** What holds after the bit loop has gone over the indices [R]. *)
Lemma diffBody_inv (R : list Z) (i : Z) (st : diffState) :
  removedLeaves st = List.filter (isRemoved old new) R ->
  chunks (List.filter (isAdded old new) R) (plannedSpans st) ->
  Forall (fun sp => count sp <= MaxMwebUtxosPerQuery) (addedLeaves st) ->
  0 <= count (addLeaf st) < MaxMwebUtxosPerQuery ->
  let st' := diffBody MaxMwebUtxosPerQuery old new i st in
  removedLeaves st' = List.filter (isRemoved old new) (R ++ [i]) /\
  chunks (List.filter (isAdded old new) (R ++ [i])) (plannedSpans st') /\
  Forall (fun sp => count sp <= MaxMwebUtxosPerQuery) (addedLeaves st') /\
  0 <= count (addLeaf st') < MaxMwebUtxosPerQuery.
Proof.
  intros Hr Hc Hf Hn. cbv zeta. rewrite !filter_snoc.
  unfold diffBody, isAdded, isRemoved.
  assert (Hclose : plannedSpans (addLeafSpan st) = plannedSpans st /\
            Forall (fun sp => count sp <= MaxMwebUtxosPerQuery)
              (addedLeaves (addLeafSpan st)) /\
            count (addLeaf (addLeafSpan st)) = 0 /\
            removedLeaves (addLeafSpan st) = removedLeaves st).
  { unfold addLeafSpan, plannedSpans.
    destruct (0 <? count (addLeaf st)) eqn:E.
    - cbn [addLeaf addedLeaves count removedLeaves]. cbn [Z.ltb Z.compare].
      rewrite app_nil_r.
      split; [reflexivity|]. split; [|auto].
      apply Forall_app. split; [exact Hf|]. constructor; [cbn beta; lia|constructor].
    - rewrite ?E. split_and!; try done. apply Z.ltb_ge in E. lia. }
  destruct Hclose as (Hp1 & Hf1 & Hn1 & Hr1).
  destruct (Leafset.contains old i); cbn [negb andb].
  - (* the leaf was there before: the pending span is closed *)
    rewrite app_nil_r.
    destruct (Leafset.contains new i); cbn [negb].
    + rewrite app_nil_r. rewrite Hr1, Hp1, Hn1. split_and!; auto; lia.
    + rewrite plannedSpans_removed, Hp1.
      cbn [removedLeaves addedLeaves addLeaf].
      rewrite Hr1, Hr, Hn1. split; [reflexivity|].
      split; [exact Hc|]. split; [exact Hf1|lia].
  - destruct (Leafset.contains new i).
    + (* a new leaf: it joins the pending span *)
      rewrite app_nil_r. cbn [addLeaf count addedLeaves removedLeaves start].
      assert (Hu : u16 (count (addLeaf st) + 1) = count (addLeaf st) + 1).
      { unfold u16. apply Z.mod_small. lia. }
      rewrite Hu.
      set (s0 := if count (addLeaf st) =? 0 then i else start (addLeaf st)).
      assert (Hc' : chunks (List.filter
                       (fun i0 => negb (Leafset.contains old i0) &&
                                  Leafset.contains new i0) R ++ [i])
                      (addedLeaves st ++
                       [{| start := s0; count := count (addLeaf st) + 1 |}])).
      { unfold plannedSpans in Hc. unfold s0.
        destruct (Z.eqb_spec (count (addLeaf st)) 0) as [E0|E0].
        - rewrite E0 in *. cbn in Hc. rewrite app_nil_r in Hc.
          apply chunks_snoc_new. exact Hc.
        - replace (0 <? count (addLeaf st)) with true in Hc
            by (symmetry; apply Z.ltb_lt; lia).
          apply chunks_snoc_extend; [lia|].
          destruct (addLeaf st) as [s c]. exact Hc. }
      destruct (Z.eqb_spec (count (addLeaf st) + 1) MaxMwebUtxosPerQuery) as [E|E].
      * unfold addLeafSpan, plannedSpans.
        cbn [addLeaf count addedLeaves removedLeaves].
        replace (0 <? count (addLeaf st) + 1) with true
          by (symmetry; apply Z.ltb_lt; lia).
        cbn [addLeaf count addedLeaves removedLeaves]. cbn [Z.ltb Z.compare].
        rewrite app_nil_r.
        split; [exact Hr|]. split; [exact Hc'|].
        split; [|lia].
        apply Forall_app. split; [exact Hf|]. constructor; [cbn; lia|constructor].
      * unfold plannedSpans. cbn [addLeaf count addedLeaves removedLeaves].
        replace (0 <? count (addLeaf st) + 1) with true
          by (symmetry; apply Z.ltb_lt; lia).
        split; [exact Hr|]. split; [exact Hc'|]. split; [exact Hf|lia].
    + rewrite !app_nil_r. auto.
Qed.

Lemma diffLoop_inv oldN newN : forall fuel index0 n st,
  index0 + Z.of_nat n + Z.of_nat fuel = Z.max (index0 + Z.of_nat n) (Z.max oldN newN) ->
  removedLeaves st = List.filter (isRemoved old new) (seqZ index0 (Z.of_nat n)) ->
  chunks (List.filter (isAdded old new) (seqZ index0 (Z.of_nat n))) (plannedSpans st) ->
  Forall (fun sp => count sp <= MaxMwebUtxosPerQuery) (addedLeaves st) ->
  0 <= count (addLeaf st) < MaxMwebUtxosPerQuery ->
  let st' := diffLoop MaxMwebUtxosPerQuery fuel old new oldN newN
               (index0 + Z.of_nat n) st in
  removedLeaves st' =
    List.filter (isRemoved old new) (seqZ index0 (Z.of_nat (n + fuel))) /\
  chunks (List.filter (isAdded old new) (seqZ index0 (Z.of_nat (n + fuel))))
    (plannedSpans st') /\
  Forall (fun sp => count sp <= MaxMwebUtxosPerQuery) (addedLeaves st') /\
  0 <= count (addLeaf st') < MaxMwebUtxosPerQuery.
Proof.
  induction fuel as [|fuel IH]; intros index0 n st Hfu Hr Hc Hf Hn.
  - cbn [diffLoop]. rewrite Nat.add_0_r. auto.
  - cbn [diffLoop].
    replace ((index0 + Z.of_nat n <? oldN) || (index0 + Z.of_nat n <? newN))
      with true.
    2: { symmetry. apply orb_true_iff.
         destruct (Z.max_spec oldN newN) as [[? E]|[? E]]; rewrite E in Hfu;
           [right|left]; apply Z.ltb_lt; lia. }
    destruct (diffBody_inv (seqZ index0 (Z.of_nat n)) (index0 + Z.of_nat n) st
                Hr Hc Hf Hn) as (Hr' & Hc' & Hf' & Hn').
    rewrite <- seqZ_snoc in Hr', Hc'.
    replace (index0 + Z.of_nat n + 1) with (index0 + Z.of_nat (S n)) by lia.
    replace (n + S fuel)%nat with (S n + fuel)%nat by lia.
    apply IH; try assumption. lia.
Qed.


Lemma addLeafSpan_final st :
  0 <= count (addLeaf st) < MaxMwebUtxosPerQuery ->
  Forall (fun sp => count sp <= MaxMwebUtxosPerQuery) (addedLeaves st) ->
  addedLeaves (addLeafSpan st) = plannedSpans st /\
  removedLeaves (addLeafSpan st) = removedLeaves st /\
  Forall (fun sp => count sp <= MaxMwebUtxosPerQuery) (plannedSpans st).
Proof.
  intros Hn Hf. unfold addLeafSpan, plannedSpans.
  destruct (0 <? count (addLeaf st)) eqn:E.
  - split; [reflexivity|]. split; [reflexivity|].
    apply Forall_app. split; [exact Hf|]. constructor; [cbn beta; lia|constructor].
  - rewrite app_nil_r. auto.
Qed.

(** What the planning part of [getMwebUtxos] computes. *)
Lemma leafsetDiff_inv oldN newN :
  0 <= oldN -> 0 <= newN -> Z.of_nat (length old) < 2 ^ 61 ->
  snd (leafsetDiff MaxMwebUtxosPerQuery old oldN new newN) =
    List.filter (isRemoved old new) (seqZ 0 (Z.max oldN newN)) /\
  chunks (List.filter (isAdded old new) (seqZ 0 (Z.max oldN newN)))
    (fst (leafsetDiff MaxMwebUtxosPerQuery old oldN new newN)) /\
  Forall (fun sp => count sp <= MaxMwebUtxosPerQuery)
    (fst (leafsetDiff MaxMwebUtxosPerQuery old oldN new newN)).
Proof.
  intros Ho Hn Hlen. unfold leafsetDiff. cbv zeta. cbn [fst snd].
  pose proof (commonPrefix_bounds old new) as (Hb1 & Hb2).
  rewrite u64_small by lia.
  set (p := commonPrefix old new * 8).
  set (st0 := {| addLeaf := {| start := 0; count := 0 |};
                 addedLeaves := []; removedLeaves := [] |}).
  assert (Hadd : forall i, 0 <= i < p -> isAdded old new i = false).
  { intros i Hi. unfold isAdded.
    rewrite (commonPrefix_contains old new i) by (unfold p in Hi; lia).
    destruct (Leafset.contains new i); reflexivity. }
  assert (Hrem : forall i, 0 <= i < p -> isRemoved old new i = false).
  { intros i Hi. unfold isRemoved.
    rewrite (commonPrefix_contains old new i) by (unfold p in Hi; lia).
    destruct (Leafset.contains new i); reflexivity. }
  destruct (Z_le_dec p (Z.max oldN newN)) as [Hle|Hgt].
  - pose proof (diffLoop_inv oldN newN (Z.to_nat (Z.max oldN newN - p)) p 0 st0)
      as Hinv.
    rewrite Z.add_0_r, Nat.add_0_l in Hinv. cbv zeta in Hinv.
    destruct Hinv as (Hr & Hc & Hf & Hcnt);
      [lia|reflexivity|reflexivity|constructor|cbn; lia|].
    rewrite Z2Nat.id in Hr, Hc by lia.
    destruct (addLeafSpan_final _ Hcnt Hf) as (Ea & Er & Hf').
    rewrite Ea, Er.
    rewrite (filter_skip_prefix (isRemoved old new) p) by (unfold p in *; lia || assumption).
    rewrite (filter_skip_prefix (isAdded old new) p) by (unfold p in *; lia || assumption).
    auto.
  - replace (Z.to_nat (Z.max oldN newN - p)) with 0%nat by lia.
    cbn [diffLoop]. cbn.
    rewrite !filter_none.
    + split; [reflexivity|]. split; [reflexivity|constructor].
    + intros x Hx. apply In_seqZ in Hx. apply Hadd. lia.
    + intros x Hx. apply In_seqZ in Hx. apply Hrem. lia.
Qed.

(** X18: the removed leaves that [getMwebUtxos] hands to the purge
    are exactly the leaves below the larger leaf count that are set
    in the stored leafset and not in the new one, in ascending
    order. *)
Theorem leafsetDiff_removed (oldN newN : Z) :
  0 <= oldN -> 0 <= newN -> Z.of_nat (length old) < 2 ^ 61 ->
  snd (leafsetDiff MaxMwebUtxosPerQuery old oldN new newN) =
  List.filter (isRemoved old new) (seqZ 0 (Z.max oldN newN)).
Proof. intros Ho Hn Hlen. apply leafsetDiff_inv; assumption. Qed.


(** X20: the spans that [getMwebUtxos] requests start at strictly
    ascending leaf indices, which is what the reassembly of the
    responses relies on. *)
Theorem leafsetDiff_ascending (oldN newN : Z) :
  0 <= oldN -> 0 <= newN -> Z.of_nat (length old) < 2 ^ 61 ->
  ascending (fst (leafsetDiff MaxMwebUtxosPerQuery old oldN new newN)).
Proof.
  intros Ho Hn Hlen.
  destruct (leafsetDiff_inv oldN newN Ho Hn Hlen) as (_ & Hc & _).
  eapply chunks_ascending; [|exact Hc].
  replace (Z.max oldN newN) with (Z.of_nat (Z.to_nat (Z.max oldN newN))) by lia.
  apply filter_seqZ_ascending.
Qed.

End Plan.

Lemma leafsetDiff_removed_witness :
  snd (leafsetDiff 4096 [192] 2 [48] 4) =
  List.filter (isRemoved [192] [48]) (seqZ 0 (Z.max 2 4)).
Proof. apply (leafsetDiff_removed 4096); [lia|lia|lia|cbn; lia]. Defined.


Lemma leafsetDiff_ascending_witness :
  ascending (fst (leafsetDiff 2 [64] 2 [254] 7)).
Proof. apply (leafsetDiff_ascending 2); [lia|lia|lia|cbn; lia]. Defined.

(** ** Ban reasons *)

Section ReasonText.

Import Stdlib.Strings.String.

(** X21: [Reason.String] tells the seven declared reasons apart and
  maps every other value to "unknown reason"; the reason the MWEB
  utxo handler bans with is one of the declared ones. *)
Theorem Reason_String_distinct (r1 r2 : Z) :
(Reason.String r1 = "unknown reason"%string <-> ~ In r1 Reason.known) /\
(In r1 Reason.known -> Reason.String r1 = Reason.String r2 -> r1 = r2) /\
In InvalidMwebUtxos Reason.known.
Proof.
assert (Hk : forall r, In r Reason.known <->
          r = 1 \/ r = 2 \/ r = 3 \/ r = 4 \/ r = 5 \/ r = 20 \/ r = 21).
{ intros r. unfold Reason.known, Reason.ExceededBanThreshold,
    Reason.NoCompactFilters, Reason.InvalidFilterHeader,
    Reason.InvalidFilterHeaderCheckpoint, Reason.InvalidBlock,
    Reason.InvalidMwebHeader, Reason.InvalidMwebUtxos. cbn [In]. lia. }
assert (Hcases : forall r,
          (r = 1 \/ r = 2 \/ r = 3 \/ r = 4 \/ r = 5 \/ r = 20 \/ r = 21) \/
          Reason.String r = "unknown reason"%string /\
          ~ (r = 1 \/ r = 2 \/ r = 3 \/ r = 4 \/ r = 5 \/ r = 20 \/ r = 21)).
{ intros r. unfold Reason.String, Reason.ExceededBanThreshold,
    Reason.NoCompactFilters, Reason.InvalidFilterHeader,
    Reason.InvalidFilterHeaderCheckpoint, Reason.InvalidBlock,
    Reason.InvalidMwebHeader, Reason.InvalidMwebUtxos.
  repeat match goal with
         | |- context [?a =? ?b] =>
             destruct (Z.eqb_spec a b); [left; tauto|]
         end.
  right. split; [reflexivity|lia]. }
split; [|split].
- rewrite Hk. split.
  + intros E [->|[->|[->|[->|[->|[->| ->]]]]]]; discriminate E.
  + intros Hn. destruct (Hcases r1) as [H|[H _]]; [contradiction|exact H].
- rewrite Hk. intros H1 E.
  destruct (Hcases r2) as [H2|[H2 _]].
  + destruct H1 as [->|[->|[->|[->|[->|[->| ->]]]]]];
      destruct H2 as [->|[->|[->|[->|[->|[->| ->]]]]]];
      try reflexivity; discriminate E.
  + rewrite H2 in E.
    destruct H1 as [->|[->|[->|[->|[->|[->| ->]]]]]]; discriminate E.
- apply Hk. unfold InvalidMwebUtxos. tauto.
Qed.

End ReasonText.

(** ** The scenarios of the specification *)

Example threeLeafBatch_verifies :
  verifyMwebUtxos plainDigest threeLeafHeader [160] threeLeafBatch = Some true.
Proof. vm_compute. reflexivity. Qed.

Example threeLeafBatch_wrong_proof_hash :
  verifyMwebUtxos plainDigest threeLeafHeader [160]
    {| BlockHash := zeroHash; StartIndex := 0; OutputFormat := 0;
       Utxos := [mkUtxo 0 idA; mkUtxo 2 idC];
       ProofHashes := [node_hash plainDigest 1 idA] |} = Some false.
Proof. vm_compute. reflexivity. Qed.

Lemma verifyMwebUtxos_empty_witness :
  verifyMwebUtxos plainDigest emptyHeader [] emptyBatch = Some true.
Proof.
  apply (verifyMwebUtxos_empty plainDigest emptyHeader [] emptyBatch).
  left. reflexivity.
Defined.

Lemma verifyMwebUtxos_batch_witness :
  Forall (fun i => Leafset.contains [160] i = true) [0; 2] /\
  head [0; 2] = Some 0 /\
  (forall k a b, [0; 2] !! k = Some a -> [0; 2] !! S k = Some b ->
                 Leafset.nextUnspent [160] a = Some b /\ a < b) /\
  (exists lastIdx, last [0; 2] = Some lastIdx /\
     forall j, 0 <= j <= lastIdx ->
               (Leafset.contains [160] j = true <-> In j [0; 2])).
Proof.
  apply (verifyMwebUtxos_batch plainDigest threeLeafHeader [160] threeLeafBatch).
  - cbn. lia.
  - cbn. lia.
  - vm_compute. reflexivity.
  - vm_compute. reflexivity.
Defined.

Lemma verifyMwebUtxos_returns_witness :
  exists b, verifyMwebUtxos plainDigest threeLeafHeader [160] threeLeafBatch = Some b.
Proof.
  apply (verifyMwebUtxos_returns plainDigest threeLeafHeader [160] threeLeafBatch).
  cbn. lia.
Defined.

Lemma handleResponse_bans_witness :
  exists p effects,
    handleResponse plainDigest threeLeafQuery (GetMwebUtxosMsg threeLeafRequest)
      (MwebUtxosMsg threeLeafBatch) 7 true = Some (p, effects) /\
    handlerPost plainDigest threeLeafQuery (GetMwebUtxosMsg threeLeafRequest)
      (MwebUtxosMsg threeLeafBatch) 7 true p effects.
Proof.
  apply (handleResponse_bans plainDigest threeLeafQuery
           (GetMwebUtxosMsg threeLeafRequest) (MwebUtxosMsg threeLeafBatch) 7 true).
  intros r E. injection E as <-. cbn. lia.
Defined.




(** The run of the example: the three spans are committed in the order
    100, 200, 300, each to both callbacks, and the duplicate adds
    nothing. *)
Example reassemble_example :
  exists st,
    reassemble threeSpans 2
      (map GotUtxos [responseAt 300 301; responseAt 100 150;
                     responseAt 200 200; responseAt 100 150]) initialState
      = AllCommitted st /\
    commits st =
      [PutCoins (Utxos (responseAt 100 150));
       Callback 0 (Utxos (responseAt 100 150));
       Callback 1 (Utxos (responseAt 100 150));
       PutCoins (Utxos (responseAt 200 200));
       Callback 0 (Utxos (responseAt 200 200));
       Callback 1 (Utxos (responseAt 200 200));
       PutCoins (Utxos (responseAt 300 301));
       Callback 0 (Utxos (responseAt 300 301));
       Callback 1 (Utxos (responseAt 300 301))] /\
    map firstLeaf (persisted (commits st)) = [100; 200; 300].
Proof. eexists. split_and!; vm_compute; reflexivity. Qed.

